(** * Verification of [color/color_rate.py]

    A shallow embedding of the colour-similarity scorer, of the reference
    aggregator and of the directory driver, followed by the properties of
    the specification that were checked against them.

    Modelling conventions.
    - A Python [str] is a [string] (its UTF-8 bytes); [str.lower] is the
      ASCII case mapping, which is what it does on ASCII text.  Python
      also lowers the cased letters outside ASCII: a statement whose
      content is what lower-casing does to a label is made for ASCII
      labels ([is_ascii]).
    - A Python [dict] is an association list in insertion order; the first
      binding of a key is the live one.
    - A Python [float] is a primitive binary64 [float]; a Python [int] is a
      [Z].  The two meet in [num], with Python's promotion rules.
    - Exceptions are values of [exn] carried by [result].

    The file has four parts: the embedding of the program; what binary64
    arithmetic computes on non-negative numbers, from [SpecFloat]; the
    properties of the scorer, the driver and the aggregator; further
    properties of the colour helpers, the scorer, the aggregator and the
    driver. *)

From Stdlib Require Import ZArith List String Ascii Bool Lia.
From Stdlib Require Import Permutation Sorted.
From Stdlib Require Import Floats Uint63.
Import ListNotations.

Local Open Scope Z_scope.

(* The decimal literals 0.8 and 0.3 denote, as in Python, the nearest
   binary64 values. *)
#[local] Set Warnings "-inexact-float".

(** ** Python primitives *)

Module Py.

(** [str.lower] on one character. *)
Definition lower_ascii (c : ascii) : ascii :=
  let n := nat_of_ascii c in
  if (Nat.leb 65 n && Nat.leb n 90)%bool then ascii_of_nat (n + 32) else c.

(** [str.lower] on ASCII text: the letters A to Z are mapped, every other
    byte is left as it is.  Python also maps the cased letters outside
    ASCII, so on a string that has one the two differ. *)
Fixpoint lower (s : string) : string :=
  match s with
  | EmptyString => EmptyString
  | String c s' => String (lower_ascii c) (lower s')
  end.

(** [s.isascii()]: every byte is below 128.  On such a string [lower] is
    [str.lower]. *)
Fixpoint is_ascii (s : string) : bool :=
  match s with
  | EmptyString => true
  | String c s' => (Nat.ltb (nat_of_ascii c) 128 && is_ascii s')%bool
  end.

(** Dictionaries with string keys. *)
Definition dict (V : Type) : Type := list (string * V).

Section Dict.
Context {V : Type}.

(** [d.get(k)] as an option. *)
Fixpoint lookup (k : string) (d : dict V) : option V :=
  match d with
  | [] => None
  | (k', v) :: d' => if String.eqb k k' then Some v else lookup k d'
  end.

(** [d.get(k, default)]. *)
Definition get (k : string) (d : dict V) (default : V) : V :=
  match lookup k d with Some v => v | None => default end.

Definition keys (d : dict V) : list string := map fst d.
Definition values (d : dict V) : list V := map snd d.

(** [d[k] = v]: an existing key keeps its position. *)
Fixpoint set (k : string) (v : V) (d : dict V) : dict V :=
  match d with
  | [] => [(k, v)]
  | (k', v') :: d' =>
      if String.eqb k k' then (k', v) :: d' else (k', v') :: set k v d'
  end.

(** [not d]. *)
Definition is_empty (d : dict V) : bool :=
  match d with [] => true | _ :: _ => false end.
End Dict.

(** [x in l] for a list of strings. *)
Definition str_in (x : string) (l : list string) : bool :=
  existsb (String.eqb x) l.

(** [float(n)] for an [int] from [0] to [2^63 - 1]: round to nearest, ties
    to even.  Outside that range the conversion below wraps, where
    Python's does not; the squared distances of 8-bit triples and the
    counters of a mapping that fits in memory are inside it. *)
Definition Z2F (z : Z) : float := of_uint63 (Uint63.of_Z z).

(** A Python number: [int] or [float]. *)
Inductive num : Type :=
| PInt (z : Z)
| PFloat (f : float).

Definition to_float (x : num) : float :=
  match x with
  | PInt z => Z2F z
  | PFloat f => f
  end.

(** [x + y]: exact on two ints, binary64 once a float is involved. *)
Definition add (x y : num) : num :=
  match x, y with
  | PInt a, PInt b => PInt (a + b)
  | _, _ => PFloat (to_float x + to_float y)
  end.

(** [x / y], true division, for a non-zero [y].  Between two ints Python
    rounds the exact quotient once; ints below [2 ^ 53] convert exactly,
    and dividing their floats is the same. *)
Definition truediv (x y : num) : float := (to_float x / to_float y)%float.

(** [x > 0]. *)
Definition gt0 (x : num) : bool :=
  match x with
  | PInt z => 0 <? z
  | PFloat f => (0 <? f)%float
  end.

(** [max(a, b)] on floats: [b] only when [b > a]. *)
Definition max (a b : float) : float := if (a <? b)%float then b else a.

(** [sum(l)] on ints. *)
Definition sum (l : list Z) : Z := fold_left Z.add l 0.

End Py.

(** ** The scorer *)

Module ColorRate.
Import Py.

Local Open Scope string_scope.
Local Open Scope list_scope.

(** The palette, [color_to_rgb]. *)
Definition color_to_rgb : dict (list Z) :=
  [ ("red", [255; 0; 0]);
    ("green", [0; 255; 0]);
    ("blue", [0; 0; 255]);
    ("yellow", [255; 255; 0]);
    ("cyan", [0; 255; 255]);
    ("magenta", [255; 0; 255]);
    ("orange", [255; 165; 0]);
    ("purple", [128; 0; 128]);
    ("pink", [255; 192; 203]);
    ("brown", [165; 42; 42]);
    ("gray", [128; 128; 128]);
    ("grey", [128; 128; 128]);
    ("black", [0; 0; 0]);
    ("white", [255; 255; 255]);
    ("lime", [0; 255; 0]);
    ("navy", [0; 0; 128]);
    ("teal", [0; 128; 128]);
    ("olive", [128; 128; 0]);
    ("maroon", [128; 0; 0]);
    ("silver", [192; 192; 192]);
    ("gold", [255; 215; 0]) ].

(** [sum((a - b) ** 2 for a, b in zip(rgb1, rgb2))]. *)
Definition sq_distance (rgb1 rgb2 : list Z) : Z :=
  sum (map (fun ab => (fst ab - snd ab) ^ 2) (combine rgb1 rgb2)).

(** One iteration of the loop of [rgb_to_color_name], on the pair
    [(min_distance, closest_color)]. *)
Definition nearer (rgb : list Z) (best : float * string)
    (item : string * list Z) : float * string :=
  let (min_distance, closest_color) := best in
  let (color_name, color_rgb) := item in
  let distance := PrimFloat.sqrt (Z2F (sq_distance rgb color_rgb)) in
  if (distance <? min_distance)%float then (distance, color_name)
  else (min_distance, closest_color).

(** [rgb_to_color_name] on a list of ints.  [min_distance] starts at
    [float('inf')]. *)
Definition rgb_to_color_name (rgb : list Z) : string :=
  snd (fold_left (nearer rgb) color_to_rgb (infinity, "unknown")).

(** The similarity of two RGB lists, lines 52 to 60. *)
Definition rgb_similarity (rgb1 rgb2 : list Z) : float :=
  let distance := PrimFloat.sqrt (Z2F (sq_distance rgb1 rgb2)) in
  let max_distance := PrimFloat.sqrt (Z2F (255 ^ 2 + 255 ^ 2 + 255 ^ 2)) in
  let similarity := (1.0 - distance / max_distance)%float in
  Py.max 0.0%float similarity.

Definition calculate_color_similarity (color1 color2 : string) : float :=
  let rgb1 := get (lower color1) color_to_rgb [0; 0; 0] in
  let rgb2 := get (lower color2) color_to_rgb [0; 0; 0] in
  rgb_similarity rgb1 rgb2.

(** The three accumulators of [calculate_enhanced_similarity]. *)
Record acc : Type := mkAcc {
  matches : num;
  total_comparisons : num;
  color_similarities : list float
}.

Definition acc0 : acc := mkAcc (PInt 0) (PInt 0) [].

(** One iteration of the loop over [dict1.items()]. *)
Definition forward_step (dict2 : dict string) (a : acc)
    (item : string * string) : acc :=
  let (user_obj, user_color) := item in
  let user_obj_lower := lower user_obj in
  match lookup user_obj_lower dict2 with
  | Some json_color =>
      if String.eqb json_color user_color then
        mkAcc (add (matches a) (PInt 1))
              (add (total_comparisons a) (PInt 1))
              (color_similarities a ++ [1.0%float])
      else
        let color_sim := calculate_color_similarity user_color json_color in
        let weighted_match := (color_sim * 0.8)%float in
        mkAcc (add (matches a) (PFloat weighted_match))
              (add (total_comparisons a) (PInt 1))
              (color_similarities a ++ [color_sim])
  | None =>
      mkAcc (matches a)
            (add (total_comparisons a) (PInt 1))
            (color_similarities a ++ [0.0%float])
  end.

(** The test of the second loop: the reference label is no lower-cased
    user label, and its colour is one of the user's values. *)
Definition qualifies (dict1 : dict string) (item : string * string) : bool :=
  let (json_obj, json_color) := item in
  negb (str_in json_obj (map lower (keys dict1)))
  && str_in json_color (values dict1).

(** The partial credit of the second loop. *)
Definition bonus (a : acc) : acc :=
  mkAcc (add (matches a) (PFloat 0.3%float))
        (add (total_comparisons a) (PFloat 0.3%float))
        (color_similarities a).

(** One iteration of the loop over [dict2.items()]. *)
Definition reverse_step (dict1 : dict string) (a : acc)
    (item : string * string) : acc :=
  if qualifies dict1 item then bonus a else a.

(** Both loops, without the guard on empty inputs. *)
Definition accumulate (dict1 dict2 : dict string) : acc :=
  fold_left (reverse_step dict1) dict2
    (fold_left (forward_step dict2) dict1 acc0).

(** The returned pair. *)
Definition finish (a : acc) : float * list float :=
  ((if gt0 (total_comparisons a)
    then truediv (matches a) (total_comparisons a)
    else 0.0%float),
   color_similarities a).

Definition calculate_enhanced_similarity
    (dict1 dict2 : dict string) (dict2_rgb : dict (list Z))
    : float * list float :=
  if (is_empty dict1 || is_empty dict2)%bool then (0.0%float, [])
  else finish (accumulate dict1 dict2).

End ColorRate.


(** ** Exceptions *)

Module Exc.

(** The exceptions the program can let through. *)
Inductive exn : Type :=
| KeyError (key : string)
| ValueError
| OSError.

Inductive result (A : Type) : Type :=
| Ok (a : A)
| Raise (e : exn).

Arguments Ok {A} a.
Arguments Raise {A} e.

Definition bind {A B : Type} (r : result A) (k : A -> result B) : result B :=
  match r with
  | Ok a => k a
  | Raise e => Raise e
  end.

(** A loop whose body may raise: the first exception ends it. *)
Fixpoint foldM {A S : Type} (body : S -> A -> result S) (l : list A) (s : S)
    : result S :=
  match l with
  | [] => Ok s
  | x :: l' => bind (body s x) (foldM body l')
  end.

(** [obj[key]] on a JSON object: [None] is an absent member. *)
Definition getitem {A : Type} (key : string) (member : option A) : result A :=
  match member with
  | Some v => Ok v
  | None => Raise (KeyError key)
  end.

End Exc.

Declare Scope exc_scope.
Delimit Scope exc_scope with exc.
Notation "x <- c ;; k" := (Exc.bind c (fun x => k))
  (at level 61, c at next level, right associativity) : exc_scope.

(** ** The reference aggregator *)

Module Aggregator.
Import Py Exc.

Local Open Scope string_scope.
Local Open Scope list_scope.

(** One record of ['entries'] as [json.load] returns it, for documents
    whose members, where present, have the types the program expects:
    strings for the label and the colour name, a list of ints for the
    RGB triple, a float for the score.  A member may be absent
    ([KeyError]); a member of another JSON type (a score that is a string
    or [null], a label that is no string) makes the loop raise
    [TypeError] or [AttributeError], and is outside this type. *)
Record json_entry : Type := mkEntry {
  j_class : option string;
  j_dominant_name : option string;
  j_dominant_rgb : option (list Z);
  j_score : option float
}.

(** The parsed document: an object that has an ['entries'] array or not. *)
Record json_doc : Type := mkDoc { j_entries : option (list json_entry) }.

(** What [open] and [json.load] make of a path: no file there
    ([FileNotFoundError]), a file that cannot be opened (another [OSError],
    such as [PermissionError]), text that is not JSON ([JSONDecodeError]),
    or a document that is a JSON object.  Bytes that do not decode
    ([UnicodeDecodeError]) and JSON that is no object are outside this
    type. *)
Inductive file : Type :=
| FileNotFound
| Unreadable
| InvalidJSON
| Loaded (json_data : json_doc).

(** The dictionaries appended to [object_rgb_data]. *)
Record rgb_record : Type := mkRgb {
  rgb : list Z;
  color_name : string;
  score : float
}.

(** [d[k] = f(d[k])] on a [defaultdict]: a missing key is first bound to
    [default], at the end. *)
Fixpoint update {V : Type} (k : string) (default : V) (f : V -> V)
    (d : dict V) : dict V :=
  match d with
  | [] => [(k, f default)]
  | (k', v) :: d' =>
      if String.eqb k k' then (k', f v) :: d'
      else (k', v) :: update k default f d'
  end.

(** [max(x :: xs, key=key)]: a later item wins only when greater. *)
Definition max_by {A : Type} (key : A -> float) (x : A) (xs : list A) : A :=
  fold_left (fun best y => if (key best <? key y)%float then y else best) xs x.

(** The state of the first loop. *)
Record tables : Type := mkTables {
  object_color_counts : dict (dict float);
  object_rgb_data : dict (list rgb_record)
}.

(** [counts[color_name] += score].  A fresh counter is the int [0], which
    the addition turns into [0.0]. *)
Definition count (color_name : string) (score : float) (counts : dict float)
    : dict float :=
  update color_name (Z2F 0) (fun c => (c + score)%float) counts.

(** The body of the loop over [json_data['entries']]. *)
Definition record_entry (t : tables) (entry : json_entry) : result tables :=
  (cls <- getitem "class" (j_class entry) ;;
   let obj_class := lower cls in
   color_name <- getitem "dominant_name" (j_dominant_name entry) ;;
   rgb_values <- getitem "dominant_rgb" (j_dominant_rgb entry) ;;
   score <- getitem "score" (j_score entry) ;;
   Ok (mkTables
         (update obj_class [] (count color_name score) (object_color_counts t))
         (update obj_class []
            (fun l => (l ++ [mkRgb rgb_values color_name score])%list)
            (object_rgb_data t))))%exc.

(** The body of the loop over [object_color_counts.items()]. *)
Definition pick (rgb_data : dict (list rgb_record))
    (out : dict string * dict (list Z)) (item : string * dict float)
    : result (dict string * dict (list Z)) :=
  let (obj_class, color_counts) := item in
  match color_counts with
  | [] => Ok out
  | c :: cs =>
      let most_common_color := fst (max_by snd c cs) in
      match get obj_class rgb_data [] with
      | [] => Raise ValueError
      | r :: rs =>
          let most_common_entry := max_by score r rs in
          Ok (set obj_class most_common_color (fst out),
              set obj_class (rgb most_common_entry) (snd out))
      end
  end.

(** Lines 117 to 150, on the loaded document. *)
Definition aggregate (json_data : json_doc)
    : result (dict string * dict (list Z)) :=
  (entries <- getitem "entries" (j_entries json_data) ;;
   t <- foldM record_entry entries (mkTables [] []) ;;
   foldM (pick (object_rgb_data t)) (object_color_counts t) ([], []))%exc.

Definition process_json_file (file_path : file)
    : result (dict string * dict (list Z)) :=
  match file_path with
  | FileNotFound => Ok ([], [])
  | Unreadable => Raise OSError
  | InvalidJSON => Ok ([], [])
  | Loaded json_data => aggregate json_data
  end.

End Aggregator.

(** ** The directory driver *)

Module Driver.
Import Py Exc ColorRate Aggregator.

Local Open Scope string_scope.
Local Open Scope list_scope.

(** [s.replace(old, '')]: the occurrences of [old], leftmost first, are
    dropped.  [skip] characters of a match are still to be dropped. *)
Fixpoint remove_from (old : string) (skip : nat) (s : string) : string :=
  match s with
  | EmptyString => EmptyString
  | String c s' =>
      match skip with
      | S n => remove_from old n s'
      | O =>
          if (prefix old s && negb (String.eqb old ""))%bool
          then remove_from old (String.length old - 1) s'
          else String c (remove_from old 0 s')
      end
  end.

Definition remove (old s : string) : string := remove_from old 0 s.

(** [sorted] on named files, by name. *)
Fixpoint insert_sorted {A : Type} (x : string * A) (l : list (string * A))
    : list (string * A) :=
  match l with
  | [] => [x]
  | y :: l' =>
      if (fst x <=? fst y)%string then x :: l else y :: insert_sorted x l'
  end.

Definition sorted {A : Type} (l : list (string * A)) : list (string * A) :=
  fold_right insert_sorted [] l.

(** The body of the loop over the sorted files. *)
Definition score_file (user_dict : dict string)
    (similarity_scores_dict : dict float) (f : string * file)
    : result (dict float) :=
  let (file_name, file_path) := f in
  let file_key := remove ".json" file_name in
  (r <- process_json_file file_path ;;
   let (json_object_colors, json_object_rgb) := r in
   if is_empty json_object_colors
   then Ok (set file_key 0.0%float similarity_scores_dict)
   else
     let similarity_score :=
       fst (calculate_enhanced_similarity user_dict json_object_colors
              json_object_rgb) in
     Ok (set file_key similarity_score similarity_scores_dict))%exc.

(** [object_colors] is [None] when the directory does not exist, and else
    the files that match ["*.colors.json"], each with what reading it
    gives.  The [verbose] flag only prints and is left out. *)
Definition calculate_similarity_scores_dict (user_dict : dict string)
    (object_colors : option (list (string * file))) : result (dict float) :=
  match object_colors with
  | None => Ok []
  | Some [] => Ok []
  | Some json_files => foldM (score_file user_dict) (sorted json_files) []
  end.

End Driver.

(** * Binary floating-point rounding

    What [SpecFloat] computes on non-negative numbers, read as integers in
    units of [2 ^ emin]. *)

Module Binary.

Section Rounding.
Variables prec emax : Z.
Hypothesis prec_pos : 0 < prec.
Hypothesis prec_lt_emax : prec < emax.

Abbreviation emin := (SpecFloat.emin prec emax).
Abbreviation fexp := (SpecFloat.fexp prec emax).

Lemma emin_eq : emin = 3 - emax - prec.
Proof. reflexivity. Qed.

Lemma fexp_eq e : fexp e = Z.max (e - prec) emin.
Proof. reflexivity. Qed.

(** *** Number of binary digits *)

Lemma digits2_pos_bounds (p : positive) :
  2 ^ (Zpos (digits2_pos p) - 1) <= Zpos p < 2 ^ Zpos (digits2_pos p).
Proof.
  induction p as [p IH | p IH |]; cbn [digits2_pos].
  - rewrite Pos2Z.inj_succ, Z.sub_succ_l, !Z.pow_succ_r by lia. lia.
  - rewrite Pos2Z.inj_succ, Z.sub_succ_l, !Z.pow_succ_r by lia. lia.
  - simpl. lia.
Qed.

Lemma Zdigits2_log2 (m : Z) : 0 < m -> Zdigits2 m = Z.log2 m + 1.
Proof.
  destruct m as [|p|p]; try lia. intros _. cbn [Zdigits2].
  pose proof (digits2_pos_bounds p) as H.
  rewrite (Z.log2_unique (Zpos p) (Zpos (digits2_pos p) - 1)); try lia.
  replace (Z.succ (Zpos (digits2_pos p) - 1)) with (Zpos (digits2_pos p)) by lia.
  exact H.
Qed.

Lemma Zdigits2_bounds (m : Z) :
  0 < m -> 2 ^ (Zdigits2 m - 1) <= m < 2 ^ Zdigits2 m.
Proof.
  destruct m as [|p|p]; try lia. intros _. apply digits2_pos_bounds.
Qed.

Lemma Zdigits2_pos (m : Z) : 0 < m -> 0 < Zdigits2 m.
Proof. destruct m; simpl; lia. Qed.

Lemma Zdigits2_unique (m d : Z) :
  2 ^ (d - 1) <= m < 2 ^ d -> 0 < d -> Zdigits2 m = d.
Proof.
  intros H Hd.
  assert (0 < m) by (pose proof (Z.pow_pos_nonneg 2 (d - 1)); lia).
  rewrite Zdigits2_log2 by lia.
  rewrite (Z.log2_unique m (d - 1)); try lia.
  replace (Z.succ (d - 1)) with d by lia. lia.
Qed.

Lemma Zdigits2_mul_pow2 (m k : Z) :
  0 < m -> 0 <= k -> Zdigits2 (m * 2 ^ k) = Zdigits2 m + k.
Proof.
  intros Hm Hk. pose proof (Zdigits2_bounds m Hm) as [H1 H2].
  pose proof (Zdigits2_pos m Hm).
  apply Zdigits2_unique; [|lia].
  replace (Zdigits2 m + k - 1) with (Zdigits2 m - 1 + k) by lia.
  rewrite !Z.pow_add_r by lia.
  pose proof (Z.pow_pos_nonneg 2 k). nia.
Qed.

Lemma Zdigits2_le (m n : Z) : 0 < m -> m <= n -> Zdigits2 m <= Zdigits2 n.
Proof.
  intros Hm Hn. rewrite !Zdigits2_log2 by lia.
  pose proof (Z.log2_le_mono m n Hn). lia.
Qed.


(** *** Shifting a mantissa to the right *)

(** The mantissa and the round bit of a record, as one number in half
    units. *)
Definition code (mrs : shr_record) : Z := 2 * shr_m mrs + Z.b2z (shr_r mrs).

Lemma shr_1_nonneg (m : Z) (r s : bool) :
  0 <= m ->
  shr_1 (Build_shr_record m r s) = Build_shr_record (m / 2) (Z.odd m) (r || s).
Proof.
  intro Hm. destruct m as [|p|p]; [reflexivity | | lia].
  destruct p as [p|p|]; cbn [shr_1 Z.odd].
  - replace (Z.pos p~1 / 2) with (Z.pos p); [reflexivity|].
    apply (Z.div_unique _ 2 _ 1); lia.
  - replace (Z.pos p~0 / 2) with (Z.pos p); [reflexivity|].
    apply (Z.div_unique _ 2 _ 0); lia.
  - reflexivity.
Qed.

Lemma shr_1_code (mrs : shr_record) :
  0 <= shr_m mrs ->
  0 <= shr_m (shr_1 mrs)
  /\ code (shr_1 mrs) = code mrs / 2
  /\ shr_s (shr_1 mrs) = (shr_s mrs || Z.odd (code mrs))%bool.
Proof.
  destruct mrs as [m r s]. cbn [shr_m]. intro Hm.
  rewrite shr_1_nonneg by exact Hm. unfold code. cbn [shr_m shr_r shr_s].
  split; [apply Z.div_pos; lia|].
  assert (E : (2 * m + Z.b2z r) / 2 = m).
  { symmetry. apply (Z.div_unique _ 2 _ (Z.b2z r)); destruct r; cbn [Z.b2z]; lia. }
  assert (O : Z.odd (2 * m + Z.b2z r) = r).
  { rewrite Z.add_comm, Z.odd_add_mul_2. now destruct r. }
  rewrite E, O. split; [|apply orb_comm].
  pose proof (Z.div_mod m 2 ltac:(lia)) as D.
  rewrite (Zmod_odd m) in D. destruct (Z.odd m); cbn [Z.b2z]; lia.
Qed.

Lemma iter_shr_1 (n : nat) (mrs : shr_record) :
  0 <= shr_m mrs ->
  0 <= shr_m (Nat.iter n shr_1 mrs)
  /\ code (Nat.iter n shr_1 mrs) = code mrs / 2 ^ Z.of_nat n
  /\ shr_s (Nat.iter n shr_1 mrs)
     = (shr_s mrs || negb (code mrs mod 2 ^ Z.of_nat n =? 0))%bool.
Proof.
  intro Hm. induction n as [|n [IH1 [IH2 IH3]]].
  - simpl. rewrite Z.div_1_r, Z.mod_1_r, orb_false_r. auto.
  - change (Nat.iter (S n) shr_1 mrs) with (shr_1 (Nat.iter n shr_1 mrs)).
    destruct (shr_1_code _ IH1) as [H1 [H2 H3]].
    split; [exact H1|]. rewrite H2, H3, IH2, IH3.
    rewrite Nat2Z.inj_succ, Z.pow_succ_r by lia.
    assert (P : 0 < 2 ^ Z.of_nat n) by (apply Z.pow_pos_nonneg; lia).
    split.
    + rewrite Z.div_div by lia. f_equal. lia.
    + rewrite <- orb_assoc. f_equal.
      rewrite (Z.mul_comm 2), Z.rem_mul_r by lia.
      rewrite (Zmod_odd (code mrs / 2 ^ Z.of_nat n)).
      pose proof (Z.mod_pos_bound (code mrs) (2 ^ Z.of_nat n) P).
      destruct (Z.odd (code mrs / 2 ^ Z.of_nat n)); cbn [Z.b2z];
        destruct (Z.eqb_spec (code mrs mod 2 ^ Z.of_nat n) 0) as [E|E];
        match goal with |- context [?a =? 0] =>
          destruct (Z.eqb_spec a 0) end; cbn; try reflexivity; lia.
Qed.

Lemma iter_pos_nat {A : Type} (f : A -> A) (p : positive) (x : A) :
  iter_pos f p x = Nat.iter (Pos.to_nat p) f x.
Proof.
  revert x. induction p as [p IH | p IH |]; intro x; cbn [iter_pos].
  - rewrite !IH, Pos2Nat.inj_xI.
    replace (S (2 * Pos.to_nat p)) with (Pos.to_nat p + (Pos.to_nat p + 1))%nat by lia.
    rewrite !Nat.iter_add. reflexivity.
  - rewrite !IH, Pos2Nat.inj_xO.
    replace (2 * Pos.to_nat p)%nat with (Pos.to_nat p + Pos.to_nat p)%nat by lia.
    now rewrite Nat.iter_add.
  - reflexivity.
Qed.


Lemma shr_spec (mrs : shr_record) (e n : Z) :
  0 <= shr_m mrs ->
  snd (shr mrs e n) = e + Z.max n 0
  /\ 0 <= shr_m (fst (shr mrs e n))
  /\ code (fst (shr mrs e n)) = code mrs / 2 ^ Z.max n 0
  /\ shr_s (fst (shr mrs e n))
     = (shr_s mrs || negb (code mrs mod 2 ^ Z.max n 0 =? 0))%bool.
Proof.
  intro Hm. destruct n as [|p|p]; cbn [shr fst snd].
  - change (Z.max 0 0) with 0. rewrite Z.add_0_r.
    exact (conj eq_refl (iter_shr_1 0 mrs Hm)).
  - rewrite iter_pos_nat, Z.max_l by lia.
    pose proof (iter_shr_1 (Pos.to_nat p) mrs Hm) as H.
    rewrite positive_nat_Z in H. exact (conj eq_refl H).
  - rewrite Z.max_r by lia. rewrite Z.add_0_r.
    exact (conj eq_refl (iter_shr_1 0 mrs Hm)).
Qed.

(** *** Rounding to nearest, ties to even *)

(** Whether the last shift rounds up. *)
Definition incr (mrs : shr_record) : bool :=
  (shr_r mrs && (shr_s mrs || Z.odd (shr_m mrs)))%bool.

Lemma round_nearest_even_incr (mrs : shr_record) :
  round_nearest_even (shr_m mrs) (loc_of_shr_record mrs)
  = shr_m mrs + Z.b2z (incr mrs).
Proof.
  destruct mrs as [m r s]. unfold incr. cbn [shr_m shr_r shr_s].
  destruct r, s; cbn [loc_of_shr_record round_nearest_even andb orb Z.b2z];
    try lia.
  rewrite <- Z.negb_odd. destruct (Z.odd m); cbn; lia.
Qed.

(** Dropping the [k] low bits of [N] rounds up when they are more than
    half, or half with an odd quotient. *)
Definition round_up (N k : Z) : bool :=
  ((2 ^ k <? 2 * (N mod 2 ^ k))
   || ((2 ^ k =? 2 * (N mod 2 ^ k)) && Z.odd (N / 2 ^ k)))%bool.

Definition rnd (N k : Z) : Z := N / 2 ^ k + Z.b2z (round_up N k).

Lemma round_up_0 (N : Z) : round_up N 0 = false.
Proof.
  unfold round_up. rewrite Z.pow_0_r, Z.mod_1_r. reflexivity.
Qed.

Lemma round_up_multiple (N k : Z) :
  0 <= k -> N mod 2 ^ k = 0 -> round_up N k = false.
Proof.
  intros Hk H. unfold round_up. rewrite H.
  pose proof (Z.pow_pos_nonneg 2 k ltac:(lia) Hk).
  destruct (Z.ltb_spec (2 ^ k) (2 * 0)); [lia|].
  destruct (Z.eqb_spec (2 ^ k) (2 * 0)); [lia|]. reflexivity.
Qed.

Lemma shr_exact_round (m e n : Z) :
  0 <= m ->
  let mrs := fst (shr (Build_shr_record m false false) e n) in
  shr_m mrs = m / 2 ^ Z.max n 0 /\ incr mrs = round_up m (Z.max n 0).
Proof.
  intros Hm mrs.
  destruct (shr_spec (Build_shr_record m false false) e n Hm)
    as [_ [H1 [H2 H3]]].
  fold mrs in H1, H2, H3. unfold code in H2, H3.
  cbn [shr_m shr_r shr_s Z.b2z orb] in H2, H3. rewrite Z.add_0_r in H2, H3.
  set (k := Z.max n 0) in *.
  assert (Hk : 0 <= k) by (unfold k; lia).
  unfold incr. rewrite H3. clear H3.
  destruct (Z.eq_dec k 0) as [K|K].
  - rewrite K in *. rewrite Z.pow_0_r, Z.div_1_r in *. rewrite round_up_0.
    rewrite Z.mod_1_r. cbn [Z.eqb negb orb].
    destruct (shr_r mrs); cbn [Z.b2z] in H2; [lia|]. split; [lia | reflexivity].
  - set (H := 2 ^ (k - 1)).
    assert (HH : 0 < H) by (apply Z.pow_pos_nonneg; lia).
    assert (E : 2 ^ k = H * 2).
    { unfold H. replace k with (Z.succ (k - 1)) at 1 by lia.
      rewrite Z.pow_succ_r by lia. lia. }
    assert (C : 2 * m / 2 ^ k = m / H).
    { rewrite E, (Z.mul_comm H 2). apply Z.div_mul_cancel_l; lia. }
    assert (M : (2 * m) mod 2 ^ k = 2 * (m mod H)).
    { rewrite E, (Z.mul_comm H 2). apply Z.mul_mod_distr_l; lia. }
    rewrite C in H2. rewrite M.
    assert (Q : m / 2 ^ k = m / H / 2) by (rewrite E, Z.div_div; lia).
    assert (R : m mod 2 ^ k = m mod H + H * ((m / H) mod 2)).
    { rewrite E. apply Z.rem_mul_r; lia. }
    pose proof (Z.mod_pos_bound m H HH) as B.
    pose proof (Z.div_mod (m / H) 2 ltac:(lia)) as D.
    pose proof (Z.mod_pos_bound (m / H) 2 ltac:(lia)) as B2.
    assert (S1 : shr_m mrs = m / H / 2) by (destruct (shr_r mrs); cbn [Z.b2z] in H2; lia).
    assert (S2 : Z.b2z (shr_r mrs) = (m / H) mod 2) by lia.
    split; [lia|].
    unfold round_up. rewrite R, Q, <- S1, E.
    destruct (shr_r mrs); cbn [Z.b2z] in S2; rewrite <- S2; cbn [andb].
    + destruct (Z.eqb_spec (2 * (m mod H)) 0) as [Z0|Z0]; cbn [negb orb].
      * destruct (Z.ltb_spec (H * 2) (2 * (m mod H + H * 1))); [lia|].
        destruct (Z.eqb_spec (H * 2) (2 * (m mod H + H * 1))); [|lia].
        reflexivity.
      * destruct (Z.ltb_spec (H * 2) (2 * (m mod H + H * 1))); [|lia].
        reflexivity.
    + destruct (Z.ltb_spec (H * 2) (2 * (m mod H + H * 0))); [lia|].
      destruct (Z.eqb_spec (H * 2) (2 * (m mod H + H * 0))); [lia|].
      reflexivity.
Qed.


(** *** The two stages of [binary_round_aux] *)

Abbreviation shr_fexp := (SpecFloat.shr_fexp prec emax).

Lemma shr_fexp_exact (m e : Z) :
  0 <= m ->
  let k := Z.max (fexp (Zdigits2 m + e) - e) 0 in
  snd (shr_fexp m e loc_Exact) = e + k
  /\ shr_m (fst (shr_fexp m e loc_Exact)) = m / 2 ^ k
  /\ incr (fst (shr_fexp m e loc_Exact)) = round_up m k.
Proof.
  intros Hm k. unfold SpecFloat.shr_fexp. cbn [shr_record_of_loc].
  destruct (shr_spec (Build_shr_record m false false) e
              (fexp (Zdigits2 m + e) - e) Hm) as [H _].
  destruct (shr_exact_round m e (fexp (Zdigits2 m + e) - e) Hm) as [H1 H2].
  auto.
Qed.

(** The second stage: renormalize after rounding, then test for overflow. *)
Definition tail (sx : bool) (m1 e1 : Z) : spec_float :=
  match shr_m (fst (shr_fexp m1 e1 loc_Exact)) with
  | Z0 => S754_zero sx
  | Zpos m =>
      if snd (shr_fexp m1 e1 loc_Exact) <=? emax - prec
      then S754_finite sx m (snd (shr_fexp m1 e1 loc_Exact))
      else S754_infinity sx
  | Zneg _ => S754_nan
  end.

Lemma binary_round_aux_tail (sx : bool) (mx ex : Z) (lx : location) :
  binary_round_aux prec emax sx mx ex lx
  = tail sx
      (round_nearest_even (shr_m (fst (shr_fexp mx ex lx)))
         (loc_of_shr_record (fst (shr_fexp mx ex lx))))
      (snd (shr_fexp mx ex lx)).
Proof.
  unfold binary_round_aux, tail.
  destruct (SpecFloat.shr_fexp prec emax mx ex lx) as [mrs' e'].
  cbn [fst snd].
  destruct (SpecFloat.shr_fexp prec emax _ e' loc_Exact) as [mrs'' e''].
  reflexivity.
Qed.

Lemma tail_cases (sx : bool) (m1 e1 : Z) :
  0 <= m1 ->
  let n2 := Z.max (fexp (Zdigits2 m1 + e1) - e1) 0 in
  tail sx m1 e1
  = if m1 / 2 ^ n2 =? 0 then S754_zero sx
    else if e1 + n2 <=? emax - prec
         then S754_finite sx (Z.to_pos (m1 / 2 ^ n2)) (e1 + n2)
         else S754_infinity sx.
Proof.
  intros Hm n2. unfold tail.
  destruct (shr_fexp_exact m1 e1 Hm) as [H1 [H2 _]]. fold n2 in H1, H2.
  rewrite H1, H2.
  assert (0 <= m1 / 2 ^ n2).
  { apply Z.div_pos; [lia | apply Z.pow_pos_nonneg; unfold n2; lia]. }
  destruct (m1 / 2 ^ n2) as [|q|q]; [reflexivity | reflexivity | lia].
Qed.

Lemma pow2_pos (k : Z) : 0 <= k -> 0 < 2 ^ k.
Proof. intro. apply Z.pow_pos_nonneg; lia. Qed.

Lemma pow2_le (a b : Z) : 0 <= a <= b -> 2 ^ a <= 2 ^ b.
Proof. intro. apply Z.pow_le_mono_r; lia. Qed.

Lemma pow2_lt (a b : Z) : 0 <= a < b -> 2 ^ a < 2 ^ b.
Proof. intro. apply Z.pow_lt_mono_r; lia. Qed.

Lemma pow2_add (a b : Z) : 0 <= a -> 0 <= b -> 2 ^ (a + b) = 2 ^ a * 2 ^ b.
Proof. intros. apply Z.pow_add_r; lia. Qed.

(** The largest scaled value, that of infinity. *)
Definition top : Z := 2 ^ (emax - emin).

(** A rounded mantissa [m1] at exponent [e1], canonical or carried to
    [2 ^ prec], is kept or overflows according to its value. *)
Lemma tail_value (m1 e1 : Z) :
  0 < m1 -> emin <= e1 ->
  (Zdigits2 m1 <= prec /\ fexp (Zdigits2 m1 + e1) = e1)
  \/ (m1 = 2 ^ prec /\ emin < e1) ->
  let V := m1 * 2 ^ (e1 - emin) in
  (V < top ->
   exists m' e', tail false m1 e1 = S754_finite false m' e'
                 /\ emin <= e' /\ Zpos m' * 2 ^ (e' - emin) = V)
  /\ (top <= V -> tail false m1 e1 = S754_infinity false).
Proof.
  intros Hm He Hc V. rewrite tail_cases by lia.
  pose proof emin_eq as Emin.
  pose proof (Zdigits2_bounds m1 Hm) as [B1 B2].
  pose proof (Zdigits2_pos m1 Hm) as Dp.
  destruct Hc as [[Hd Hf] | [Hm1 He1]].
  - rewrite Hf, Z.sub_diag. change (Z.max 0 0) with 0.
    rewrite Z.pow_0_r, Z.div_1_r, Z.add_0_r.
    destruct (Z.eqb_spec m1 0); [lia|].
    assert (VL : 2 ^ (Zdigits2 m1 - 1 + (e1 - emin)) <= V).
    { unfold V. rewrite pow2_add by lia.
      pose proof (pow2_pos (e1 - emin)). nia. }
    assert (VU : V < 2 ^ (Zdigits2 m1 + (e1 - emin))).
    { unfold V. rewrite pow2_add by lia.
      pose proof (pow2_pos (e1 - emin)). nia. }
    rewrite fexp_eq in Hf.
    destruct (Z.leb_spec e1 (emax - prec)) as [L|L]; split; intro HV.
    + exists (Z.to_pos m1), e1. rewrite Z2Pos.id by lia. auto.
    + exfalso. unfold top in HV.
      pose proof (pow2_le (Zdigits2 m1 + (e1 - emin)) (emax - emin)). lia.
    + exfalso. unfold top in HV.
      pose proof (pow2_le (emax - emin) (Zdigits2 m1 - 1 + (e1 - emin))). lia.
    + reflexivity.
  - assert (D : Zdigits2 m1 = prec + 1).
    { apply Zdigits2_unique; [|lia]. subst m1.
      replace (prec + 1 - 1) with prec by lia.
      split; [lia | apply pow2_lt; lia]. }
    rewrite D, fexp_eq.
    replace (Z.max (Z.max (prec + 1 + e1 - prec) emin - e1) 0) with 1 by lia.
    assert (Q : m1 / 2 ^ 1 = 2 ^ (prec - 1)).
    { subst m1. replace prec with (Z.succ (prec - 1)) at 1 by lia.
      rewrite Z.pow_succ_r by lia. rewrite Z.pow_1_r.
      rewrite Z.mul_comm, Z.div_mul by lia. reflexivity. }
    rewrite Q.
    pose proof (pow2_pos (prec - 1)) as Pp.
    destruct (Z.eqb_spec (2 ^ (prec - 1)) 0); [lia|].
    assert (EV : V = 2 ^ (prec + (e1 - emin))).
    { unfold V. subst m1. rewrite pow2_add by lia. reflexivity. }
    destruct (Z.leb_spec (e1 + 1) (emax - prec)) as [L|L]; split; intro HV.
    + exists (Z.to_pos (2 ^ (prec - 1))), (e1 + 1).
      rewrite Z2Pos.id by lia. split; [reflexivity|]. split; [lia|].
      rewrite EV, <- pow2_add by lia. f_equal. lia.
    + exfalso. unfold top in HV. rewrite EV in HV.
      pose proof (pow2_lt (prec + (e1 - emin)) (emax - emin)). lia.
    + exfalso. unfold top in HV. rewrite EV in HV.
      pose proof (pow2_le (emax - emin) (prec + (e1 - emin))). lia.
    + reflexivity.
Qed.


(** *** The value [binary_round] computes *)

(** The bits to drop from a scaled value [N] to fit [prec] digits. *)
Definition kshift (N : Z) : Z := Z.max (Zdigits2 N - prec) 0.

(** [N] rounded to [prec] significant bits. *)
Definition rv (N : Z) : Z := rnd N (kshift N) * 2 ^ kshift N.

Lemma rnd_0 (N : Z) : rnd N 0 = N.
Proof. unfold rnd. rewrite round_up_0, Z.pow_0_r, Z.div_1_r. cbn. lia. Qed.

Lemma rnd_scale (m k j : Z) :
  0 <= k -> 0 <= j -> rnd (m * 2 ^ j) (k + j) = rnd m k.
Proof.
  intros Hk Hj. unfold rnd, round_up.
  pose proof (pow2_pos k Hk) as Pk. pose proof (pow2_pos j Hj) as Pj.
  rewrite pow2_add by lia.
  rewrite Z.div_mul_cancel_r by lia.
  rewrite Z.mul_mod_distr_r by lia.
  f_equal. f_equal. f_equal.
  - destruct (Z.ltb_spec (2 ^ k * 2 ^ j) (2 * (m mod 2 ^ k * 2 ^ j)));
      destruct (Z.ltb_spec (2 ^ k) (2 * (m mod 2 ^ k))); trivial; nia.
  - f_equal.
    destruct (Z.eqb_spec (2 ^ k * 2 ^ j) (2 * (m mod 2 ^ k * 2 ^ j)));
      destruct (Z.eqb_spec (2 ^ k) (2 * (m mod 2 ^ k))); trivial; nia.
Qed.

Lemma div_pow2_bounds (m k d : Z) :
  0 <= k -> 0 < d ->
  2 ^ (d - 1 + k) <= m < 2 ^ (d + k) ->
  2 ^ (d - 1) <= m / 2 ^ k < 2 ^ d.
Proof.
  intros Hk Hd [H1 H2]. pose proof (pow2_pos k Hk).
  rewrite pow2_add in H1, H2 by lia. split.
  - apply Z.div_le_lower_bound; lia.
  - apply Z.div_lt_upper_bound; lia.
Qed.

Lemma pos_iter_xO (m d : positive) :
  Zpos (Pos.iter xO m d) = Zpos m * 2 ^ Zpos d.
Proof.
  induction d as [|d IH] using Pos.peano_ind.
  - cbn [Pos.iter]. rewrite Z.pow_1_r. lia.
  - rewrite Pos.iter_succ, Pos2Z.inj_xO, IH, Pos2Z.inj_succ.
    rewrite Z.pow_succ_r by lia. lia.
Qed.

Lemma shl_align_spec (mx : positive) (ex ex' : Z) :
  snd (shl_align mx ex ex') = Z.min ex ex'
  /\ Zpos (fst (shl_align mx ex ex'))
     = Zpos mx * 2 ^ (ex - Z.min ex ex').
Proof.
  unfold shl_align. destruct (ex' - ex) as [|d|d] eqn:E; cbn [fst snd].
  - rewrite Z.min_l by lia. rewrite Z.sub_diag. cbn. lia.
  - rewrite Z.min_l by lia. rewrite Z.sub_diag. cbn. lia.
  - rewrite Z.min_r by lia. split; [reflexivity|].
    rewrite pos_iter_xO. f_equal. f_equal. lia.
Qed.

(** [binary_round] returns the float of value [rv N], or infinity when
    that value is out of range. *)
Theorem binary_round_correct (p : positive) (e : Z) :
  emin <= e ->
  let N := Zpos p * 2 ^ (e - emin) in
  (rv N < top ->
   exists m' e', binary_round prec emax false p e = S754_finite false m' e'
                 /\ emin <= e' /\ Zpos m' * 2 ^ (e' - emin) = rv N)
  /\ (top <= rv N -> binary_round prec emax false p e = S754_infinity false).
Proof.
  intros He N. pose proof emin_eq as Emin.
  unfold binary_round.
  change (Zpos (digits2_pos p)) with (Zdigits2 (Zpos p)).
  set (D := Zdigits2 (Zpos p) + e). set (fe := fexp D).
  pose proof (shl_align_spec p e fe) as [Hez Hmz].
  destruct (shl_align p e fe) as [mz ez]. cbn [fst snd] in Hez, Hmz.
  pose proof (Zdigits2_pos (Zpos p) eq_refl) as Dp.
  pose proof (Zdigits2_bounds (Zpos p) eq_refl) as Bp.
  assert (Fe : fe = Z.max (D - prec) emin) by reflexivity.
  assert (Dz : Zdigits2 (Zpos mz) + ez = D).
  { rewrite Hmz, Zdigits2_mul_pow2 by lia. unfold D. lia. }
  rewrite binary_round_aux_tail, round_nearest_even_incr.
  destruct (shr_fexp_exact (Zpos mz) ez ltac:(lia)) as [H1 [H2 H3]].
  rewrite Dz in H1, H2, H3. fold fe in H1, H2, H3.
  rewrite H1, H2, H3.
  set (k1 := Z.max (fe - ez) 0).
  fold (rnd (Zpos mz) k1).
  replace (ez + k1) with fe by lia.
  assert (EN : N = Zpos mz * 2 ^ (ez - emin)).
  { unfold N. rewrite Hmz, <- Z.mul_assoc, <- pow2_add by lia.
    f_equal. f_equal. lia. }
  assert (DN : Zdigits2 N = D - emin).
  { unfold N. rewrite Zdigits2_mul_pow2 by lia. unfold D. lia. }
  assert (KN : kshift N = k1 + (ez - emin)).
  { unfold kshift. rewrite DN. lia. }
  assert (RV : rv N = rnd (Zpos mz) k1 * 2 ^ (fe - emin)).
  { unfold rv. rewrite KN. rewrite EN at 1. rewrite rnd_scale by lia.
    f_equal. f_equal. lia. }
  rewrite RV.
  apply tail_value; [ | lia | ].
  - unfold rnd. assert (0 <= Zpos mz / 2 ^ k1).
    { apply Z.div_pos; [lia | apply pow2_pos; lia]. }
    destruct (Z.eq_dec k1 0) as [K|K].
    + rewrite K, Z.pow_0_r, Z.div_1_r, round_up_0. cbn [Z.b2z]. lia.
    + assert (2 ^ (prec - 1) <= Zpos mz / 2 ^ k1 < 2 ^ prec).
      { apply div_pow2_bounds; try lia.
        assert (Zdigits2 (Zpos mz) = prec + k1) by lia.
        pose proof (Zdigits2_bounds (Zpos mz) eq_refl) as B.
        replace (prec - 1 + k1) with (Zdigits2 (Zpos mz) - 1) by lia.
        replace (prec + k1) with (Zdigits2 (Zpos mz)) by lia. exact B. }
      pose proof (pow2_pos (prec - 1)).
      destruct (round_up (Zpos mz) k1); cbn [Z.b2z]; lia.
  - destruct (Z.eq_dec k1 0) as [K|K].
    + left. rewrite K, rnd_0. split; [lia|].
      replace (Zdigits2 (Zpos mz) + fe) with D by lia. reflexivity.
    + assert (Dm : Zdigits2 (Zpos mz) = prec + k1) by lia.
      assert (B : 2 ^ (prec - 1) <= Zpos mz / 2 ^ k1 < 2 ^ prec).
      { apply div_pow2_bounds; try lia.
        pose proof (Zdigits2_bounds (Zpos mz) eq_refl) as B.
        replace (prec - 1 + k1) with (Zdigits2 (Zpos mz) - 1) by lia.
        replace (prec + k1) with (Zdigits2 (Zpos mz)) by lia. exact B. }
      unfold rnd. destruct (round_up (Zpos mz) k1); cbn [Z.b2z].
      * destruct (Z.eq_dec (Zpos mz / 2 ^ k1 + 1) (2 ^ prec)) as [C|C].
        -- right. split; [exact C | lia].
        -- left.
           assert (Zdigits2 (Zpos mz / 2 ^ k1 + 1) = prec).
           { apply Zdigits2_unique; lia. }
           split; [lia|]. rewrite fexp_eq. lia.
      * left. rewrite Z.add_0_r.
        assert (Zdigits2 (Zpos mz / 2 ^ k1) = prec).
        { apply Zdigits2_unique; lia. }
        split; [lia|]. rewrite fexp_eq. lia.
Qed.


(** *** Rounding is monotone and keeps representable values *)

Lemma rnd_mono (N1 N2 k : Z) :
  0 <= k -> N1 <= N2 -> rnd N1 k <= rnd N2 k.
Proof.
  intros Hk H. unfold rnd, round_up.
  pose proof (pow2_pos k Hk) as P.
  pose proof (Z.div_mod N1 (2 ^ k) ltac:(lia)) as D1.
  pose proof (Z.div_mod N2 (2 ^ k) ltac:(lia)) as D2.
  pose proof (Z.mod_pos_bound N1 (2 ^ k) P) as B1.
  pose proof (Z.mod_pos_bound N2 (2 ^ k) P) as B2.
  pose proof (Z.div_le_mono N1 N2 (2 ^ k) P H) as Q.
  set (q1 := N1 / 2 ^ k) in *. set (q2 := N2 / 2 ^ k) in *.
  set (r1 := N1 mod 2 ^ k) in *. set (r2 := N2 mod 2 ^ k) in *.
  destruct (Z.eq_dec q1 q2) as [E|E].
  - rewrite <- E. assert (r1 <= r2) by nia.
    destruct (Z.ltb_spec (2 ^ k) (2 * r1)); destruct (Z.ltb_spec (2 ^ k) (2 * r2));
      destruct (Z.eqb_spec (2 ^ k) (2 * r1)); destruct (Z.eqb_spec (2 ^ k) (2 * r2));
      destruct (Z.odd q1); cbn; lia.
  - assert (q1 + 1 <= q2) by lia.
    destruct (_ || _)%bool; destruct (_ || _)%bool; cbn [Z.b2z]; lia.
Qed.

Lemma rnd_bounds (N k : Z) : N / 2 ^ k <= rnd N k <= N / 2 ^ k + 1.
Proof. unfold rnd. destruct (round_up N k); cbn [Z.b2z]; lia. Qed.

Lemma kshift_nonneg (N : Z) : 0 <= kshift N.
Proof. unfold kshift. lia. Qed.

Lemma kshift_mono (N1 N2 : Z) : 0 <= N1 <= N2 -> kshift N1 <= kshift N2.
Proof.
  intros [H1 H2]. unfold kshift.
  destruct (Z.eq_dec N1 0) as [->|N].
  - cbn [Zdigits2]. lia.
  - pose proof (Zdigits2_le N1 N2 ltac:(lia) H2). lia.
Qed.

Lemma rv_0 : rv 0 = 0.
Proof.
  unfold rv, kshift. cbn [Zdigits2].
  replace (Z.max (0 - prec) 0) with 0 by lia. rewrite rnd_0. reflexivity.
Qed.

Lemma rv_upper (N : Z) : 0 <= N -> rv N <= 2 ^ (prec + kshift N).
Proof.
  intro HN. destruct (Z.eq_dec N 0) as [->|NZ].
  - rewrite rv_0. pose proof (pow2_pos (prec + kshift 0)).
    pose proof (kshift_nonneg 0). lia.
  - unfold rv. pose proof (kshift_nonneg N) as K.
    pose proof (Zdigits2_bounds N ltac:(lia)) as [_ B].
    pose proof (Zdigits2_pos N ltac:(lia)) as Dp.
    rewrite pow2_add by lia. pose proof (pow2_pos (kshift N) K).
    apply Z.mul_le_mono_nonneg_r; [lia|].
    assert (N / 2 ^ kshift N < 2 ^ prec); [|pose proof (rnd_bounds N (kshift N)); lia].
    apply Z.div_lt_upper_bound; [lia|].
    rewrite Z.mul_comm, <- pow2_add by lia.
    pose proof (pow2_le (Zdigits2 N) (prec + kshift N)).
    unfold kshift in *. lia.
Qed.

Lemma rv_lower (N : Z) :
  0 <= N -> 0 < kshift N -> 2 ^ (prec - 1 + kshift N) <= rv N.
Proof.
  intros N0 K. unfold rv.
  assert (D : Zdigits2 N = prec + kshift N) by (unfold kshift in *; lia).
  assert (HN : 0 < N) by (destruct N; cbn [Zdigits2] in D; lia).
  pose proof (Zdigits2_bounds N HN) as [B _].
  rewrite pow2_add by lia. pose proof (pow2_pos (kshift N)).
  apply Z.mul_le_mono_nonneg_r; [lia|].
  assert (2 ^ (prec - 1) <= N / 2 ^ kshift N);
    [|pose proof (rnd_bounds N (kshift N)); lia].
  apply Z.div_le_lower_bound; [lia|].
  rewrite Z.mul_comm, <- pow2_add by lia.
  replace (prec - 1 + kshift N) with (Zdigits2 N - 1) by lia. exact B.
Qed.

(** Rounding to nearest is monotone. *)
Theorem rv_mono (N1 N2 : Z) : 0 <= N1 <= N2 -> rv N1 <= rv N2.
Proof.
  intro H. pose proof (kshift_mono N1 N2 H) as K.
  pose proof (kshift_nonneg N1) as K1.
  destruct (Z.eq_dec (kshift N1) (kshift N2)) as [E|E].
  - unfold rv. rewrite <- E.
    apply Z.mul_le_mono_nonneg_r; [pose proof (pow2_pos (kshift N1)); lia|].
    apply rnd_mono; lia.
  - pose proof (rv_upper N1 ltac:(lia)).
    pose proof (rv_lower N2 ltac:(lia) ltac:(lia)).
    pose proof (pow2_le (prec + kshift N1) (prec - 1 + kshift N2)). lia.
Qed.

Lemma rv_exact (N : Z) : 0 <= N -> N mod 2 ^ kshift N = 0 -> rv N = N.
Proof.
  intros HN H. unfold rv, rnd. pose proof (kshift_nonneg N) as K.
  rewrite round_up_multiple by assumption. cbn [Z.b2z].
  pose proof (Z.div_mod N (2 ^ kshift N)) as D.
  pose proof (pow2_pos (kshift N) K). lia.
Qed.

Lemma rv_exact_scaled (m j : Z) :
  0 <= m -> 0 <= j -> Zdigits2 m <= prec -> rv (m * 2 ^ j) = m * 2 ^ j.
Proof.
  intros Hm Hj Hd. destruct (Z.eq_dec m 0) as [->|NZ].
  - rewrite Z.mul_0_l. apply rv_0.
  - pose proof (pow2_pos j Hj).
    apply rv_exact; [nia|].
    assert (K : kshift (m * 2 ^ j) <= j).
    { unfold kshift. rewrite Zdigits2_mul_pow2 by lia. lia. }
    pose proof (kshift_nonneg (m * 2 ^ j)).
    replace j with ((j - kshift (m * 2 ^ j)) + kshift (m * 2 ^ j)) at 1 by lia.
    rewrite pow2_add by lia. rewrite Z.mul_assoc. apply Z.mod_mul.
    pose proof (pow2_pos (kshift (m * 2 ^ j))). lia.
Qed.


(** *** Non-negative floats as scaled integers *)

(** The value of a non-negative float in units of [2 ^ emin]; infinity is
    [top], above every finite value. *)
Definition sval (x : spec_float) : Z :=
  match x with
  | S754_finite false m e => Zpos m * 2 ^ (e - emin)
  | S754_infinity false => top
  | _ => 0
  end.

(** Zero, a positive finite number or plus infinity. *)
Definition nonneg_sf (x : spec_float) : Prop :=
  match x with
  | S754_zero _ | S754_finite false _ _ | S754_infinity false => True
  | _ => False
  end.

Abbreviation valid := (SpecFloat.valid_binary prec emax).

Lemma top_pos : 0 < top.
Proof. apply pow2_pos. pose proof emin_eq. lia. Qed.

Lemma bounded_inv (m : positive) (e : Z) :
  valid (S754_finite false m e) = true ->
  emin <= e <= emax - prec
  /\ Zdigits2 (Zpos m) <= prec
  /\ (Zdigits2 (Zpos m) = prec \/ e = emin).
Proof.
  cbn [SpecFloat.valid_binary]. unfold bounded, canonical_mantissa. intro H.
  apply andb_true_iff in H. destruct H as [H1 H2].
  apply Z.eqb_eq in H1. apply Z.leb_le in H2.
  change (Zpos (digits2_pos m)) with (Zdigits2 (Zpos m)) in H1.
  rewrite fexp_eq in H1. lia.
Qed.

Lemma sval_finite_bounds (m : positive) (e : Z) :
  valid (S754_finite false m e) = true ->
  0 < sval (S754_finite false m e) < top.
Proof.
  intro H. destruct (bounded_inv m e H) as [He [Hd _]]. cbn [sval].
  pose proof (pow2_pos (e - emin)).
  pose proof (Zdigits2_bounds (Zpos m) eq_refl) as [_ B].
  pose proof (Zdigits2_pos (Zpos m) eq_refl).
  split; [nia|]. unfold top.
  pose proof (pow2_le (Zdigits2 (Zpos m)) prec).
  pose proof (pow2_le (prec + (e - emin)) (emax - emin)).
  rewrite pow2_add in * by lia. nia.
Qed.

Lemma sval_nonneg (x : spec_float) : 0 <= sval x.
Proof.
  destruct x as [s|s| |s m e]; cbn [sval]; try lia.
  - destruct s; [lia | pose proof top_pos; lia].
  - destruct s; [lia|].
    destruct (Z.le_gt_cases 0 (e - emin)).
    + pose proof (pow2_pos (e - emin)). nia.
    + rewrite Z.pow_neg_r by lia. lia.
Qed.

(** On valid non-negative floats the order is that of the values. *)
Theorem SFcompare_sval (x y : spec_float) :
  valid x = true -> valid y = true -> nonneg_sf x -> nonneg_sf y ->
  SFcompare x y = Some (sval x ?= sval y).
Proof.
  intros Vx Vy Nx Ny. pose proof top_pos as T.
  destruct x as [sx|sx| |sx mx ex]; try contradiction;
    destruct y as [sy|sy| |sy my ey]; try contradiction;
    try (destruct sx; try contradiction); try (destruct sy; try contradiction);
    cbn [SFcompare sval].
  all: try (pose proof (sval_finite_bounds _ _ Vx) as Bx; cbn [sval] in Bx).
  all: try (pose proof (sval_finite_bounds _ _ Vy) as By; cbn [sval] in By).
  all: try (f_equal; symmetry;
            first [ apply Z.compare_eq_iff; lia
                  | apply Z.compare_lt_iff; lia
                  | apply Z.compare_gt_iff; lia ]).
  destruct (bounded_inv mx ex Vx) as [Hex [Hdx Cx]].
  destruct (bounded_inv my ey Vy) as [Hey [Hdy Cy]].
  pose proof (Zdigits2_bounds (Zpos mx) eq_refl) as [Lx Ux].
  pose proof (Zdigits2_bounds (Zpos my) eq_refl) as [Ly Uy].
  pose proof (Zdigits2_pos (Zpos mx) eq_refl) as Dpx.
  pose proof (Zdigits2_pos (Zpos my) eq_refl) as Dpy.
  pose proof (pow2_pos (prec - 1) ltac:(lia)) as Pp.
  assert (P2 : 2 ^ prec = 2 * 2 ^ (prec - 1)).
  { replace prec with (Z.succ (prec - 1)) at 1 by lia.
    apply Z.pow_succ_r. lia. }
  f_equal. destruct (Z.compare_spec ex ey) as [E|L|G].
  - subst ey. rewrite Pos.compare_cont_spec. cbn [Pos.switch_Eq].
    change (Pos.compare mx my) with (Z.compare (Zpos mx) (Zpos my)).
    pose proof (pow2_pos (ex - emin)).
    destruct (Z.compare_spec (Zpos mx) (Zpos my)); symmetry.
    + apply Z.compare_eq_iff. congruence.
    + apply Z.compare_lt_iff. nia.
    + apply Z.compare_gt_iff. nia.
  - symmetry. apply Z.compare_lt_iff.
    assert (Dy : Zdigits2 (Zpos my) = prec) by lia. rewrite Dy in Ly.
    pose proof (pow2_le (Zdigits2 (Zpos mx)) prec ltac:(lia)).
    replace (ey - emin) with ((ex - emin) + (ey - ex)) by lia.
    rewrite pow2_add by lia.
    pose proof (pow2_pos (ex - emin)).
    pose proof (pow2_le 1 (ey - ex) ltac:(lia)) as Q. rewrite Z.pow_1_r in Q.
    assert (Zpos mx * 2 ^ (ex - emin) < 2 ^ prec * 2 ^ (ex - emin)) by nia.
    assert (2 ^ prec * 2 ^ (ex - emin)
            <= Zpos my * (2 ^ (ex - emin) * 2 ^ (ey - ex))); [|lia].
    rewrite P2.
    assert (2 * 2 ^ (ex - emin) <= 2 ^ (ex - emin) * 2 ^ (ey - ex)) by nia.
    transitivity (2 ^ (prec - 1) * (2 * 2 ^ (ex - emin))); [lia|].
    apply Z.mul_le_mono_nonneg; lia.
  - symmetry. apply Z.compare_gt_iff.
    assert (Dx : Zdigits2 (Zpos mx) = prec) by lia. rewrite Dx in Lx.
    pose proof (pow2_le (Zdigits2 (Zpos my)) prec ltac:(lia)).
    replace (ex - emin) with ((ey - emin) + (ex - ey)) by lia.
    rewrite pow2_add by lia.
    pose proof (pow2_pos (ey - emin)).
    pose proof (pow2_le 1 (ex - ey) ltac:(lia)) as Q. rewrite Z.pow_1_r in Q.
    assert (Zpos my * 2 ^ (ey - emin) < 2 ^ prec * 2 ^ (ey - emin)) by nia.
    assert (2 ^ prec * 2 ^ (ey - emin)
            <= Zpos mx * (2 ^ (ey - emin) * 2 ^ (ex - ey))); [|lia].
    rewrite P2.
    assert (2 * 2 ^ (ey - emin) <= 2 ^ (ey - emin) * 2 ^ (ex - ey)) by nia.
    transitivity (2 ^ (prec - 1) * (2 * 2 ^ (ey - emin))); [lia|].
    apply Z.mul_le_mono_nonneg; lia.
Qed.


(** *** The value of a sum *)

(** The value of the float nearest to the scaled value [N]. *)
Definition round_val (N : Z) : Z := Z.min (rv N) top.

Lemma round_val_mono (N1 N2 : Z) :
  0 <= N1 <= N2 -> round_val N1 <= round_val N2.
Proof. intro H. unfold round_val. pose proof (rv_mono N1 N2 H). lia. Qed.

Lemma rv_top : rv top = top.
Proof.
  unfold top. pose proof emin_eq.
  rewrite <- (Z.mul_1_l (2 ^ (emax - emin))).
  apply rv_exact_scaled; cbn [Zdigits2 digits2_pos]; lia.
Qed.

Lemma round_val_above (N : Z) : top <= N -> round_val N = top.
Proof.
  intro H. unfold round_val. pose proof top_pos.
  pose proof (rv_mono top N ltac:(lia)). rewrite rv_top in *. lia.
Qed.

Lemma round_val_sval (x : spec_float) :
  valid x = true -> nonneg_sf x -> round_val (sval x) = sval x.
Proof.
  intros V N. pose proof top_pos. pose proof emin_eq.
  destruct x as [s|s| |s m e]; try contradiction; cbn [sval].
  - unfold round_val. rewrite rv_0. lia.
  - destruct s; [contradiction|]. apply round_val_above. lia.
  - destruct s; [contradiction|].
    destruct (bounded_inv m e V) as [He [Hd _]].
    pose proof (sval_finite_bounds m e V) as B. cbn [sval] in B.
    unfold round_val. rewrite rv_exact_scaled by lia. lia.
Qed.

Lemma binary_normalize_sval (m e : Z) :
  0 <= m -> emin <= e ->
  nonneg_sf (binary_normalize prec emax m e false)
  /\ sval (binary_normalize prec emax m e false)
     = round_val (m * 2 ^ (e - emin)).
Proof.
  intros Hm He. destruct m as [|p|p]; [| |lia]; cbn [binary_normalize].
  - cbn [nonneg_sf sval]. rewrite Z.mul_0_l. unfold round_val.
    rewrite rv_0. pose proof top_pos. split; [exact I | lia].
  - destruct (binary_round_correct p e He) as [F O]. unfold round_val.
    destruct (Z.lt_ge_cases (rv (Zpos p * 2 ^ (e - emin))) top) as [L|G].
    + destruct (F L) as [m' [e' [E [He' V]]]]. rewrite E.
      cbn [nonneg_sf sval]. split; [exact I | lia].
    + rewrite (O G). cbn [nonneg_sf sval]. split; [exact I | lia].
Qed.

(** The sum of two non-negative floats is the rounding of the exact sum
    of their values. *)
Theorem SFadd_sval (x y : spec_float) :
  valid x = true -> valid y = true -> nonneg_sf x -> nonneg_sf y ->
  nonneg_sf (SFadd prec emax x y)
  /\ sval (SFadd prec emax x y) = round_val (sval x + sval y).
Proof.
  intros Vx Vy Nx Ny. pose proof top_pos as T.
  pose proof (round_val_sval x Vx Nx) as Rx.
  pose proof (round_val_sval y Vy Ny) as Ry.
  pose proof (sval_nonneg x) as Px. pose proof (sval_nonneg y) as Py.
  destruct x as [sx|sx| |sx mx ex]; try contradiction;
    destruct y as [sy|sy| |sy my ey]; try contradiction;
    try (destruct sx; try contradiction); try (destruct sy; try contradiction);
    cbn [SFadd nonneg_sf]; cbn [sval] in *;
    rewrite ?Z.add_0_l, ?Z.add_0_r;
    try (split; [exact I | first [ symmetry; assumption
                                 | symmetry; apply round_val_above; lia ]]).
  destruct (bounded_inv mx ex Vx) as [Hex _].
  destruct (bounded_inv my ey Vy) as [Hey _].
  destruct (shl_align_spec mx ex (Z.min ex ey)) as [_ Ax].
  destruct (shl_align_spec my ey (Z.min ex ey)) as [_ Ay].
  replace (Z.min ex (Z.min ex ey)) with (Z.min ex ey) in Ax by lia.
  replace (Z.min ey (Z.min ex ey)) with (Z.min ex ey) in Ay by lia.
  cbn [cond_Zopp].
  set (a := Zpos (fst (shl_align mx ex (Z.min ex ey)))) in *.
  set (b := Zpos (fst (shl_align my ey (Z.min ex ey)))) in *.
  destruct (binary_normalize_sval (a + b) (Z.min ex ey)) as [N V];
    [unfold a, b; lia | lia |].
  split; [exact N|]. rewrite V. f_equal.
  rewrite Ax, Ay, Z.mul_add_distr_r, <- !Z.mul_assoc, <- !pow2_add by lia.
  f_equal; f_equal; f_equal; lia.
Qed.


(** *** A quotient of at most one *)

Lemma emin_nonpos : emin <= 0.
Proof. pose proof emin_eq. lia. Qed.

Lemma shr_record_of_loc_m (m : Z) (l : location) :
  shr_m (shr_record_of_loc m l) = m.
Proof. destruct l as [|[ | | ]]; reflexivity. Qed.

Lemma shr_record_of_loc_code (m : Z) (l : location) :
  2 * m <= code (shr_record_of_loc m l) <= 2 * m + 1
  /\ (l = loc_Exact -> code (shr_record_of_loc m l) = 2 * m).
Proof.
  unfold code. destruct l as [|[ | | ]]; cbn; split; try lia; discriminate.
Qed.

Lemma digits_le_pow2 (m E : Z) : 0 <= E -> 0 <= m <= 2 ^ E -> Zdigits2 m <= E + 1.
Proof.
  intros HE [H0 H]. destruct (Z.eq_dec m 0) as [->|N]; [cbn; lia|].
  pose proof (Zdigits2_bounds m ltac:(lia)) as [B _].
  pose proof (Zdigits2_pos m ltac:(lia)).
  destruct (Z.le_gt_cases (Zdigits2 m) (E + 1)) as [L|G]; [exact L|].
  pose proof (pow2_lt E (Zdigits2 m - 1) ltac:(lia)). lia.
Qed.

Lemma digits_lt_pow2 (m d : Z) : 0 <= d -> 0 <= m < 2 ^ d -> Zdigits2 m <= d.
Proof.
  intros Hd [H0 H]. destruct (Z.eq_dec m 0) as [->|N]; [cbn; lia|].
  pose proof (Zdigits2_bounds m ltac:(lia)) as [B _].
  pose proof (Zdigits2_pos m ltac:(lia)).
  destruct (Z.le_gt_cases (Zdigits2 m) d) as [L|G]; [exact L|].
  pose proof (pow2_le d (Zdigits2 m - 1) ltac:(lia)). lia.
Qed.

Lemma shift_le (m E : Z) :
  0 <= E -> 0 <= m <= 2 ^ E ->
  0 <= Z.max (fexp (Zdigits2 m + - E) - - E) 0 <= E.
Proof.
  intros HE Hm. pose proof (digits_le_pow2 m E HE Hm).
  pose proof emin_nonpos. rewrite fexp_eq. lia.
Qed.

(** A mantissa and a location that stand for a value of at most one round
    to at most one. *)
Lemma binary_round_aux_first_stage (mx E : Z) (lx : location) :
  0 <= E -> 0 <= mx <= 2 ^ E -> (mx = 2 ^ E -> lx = loc_Exact) ->
  exists m1 F,
    0 <= F /\ 0 <= m1 <= 2 ^ F
    /\ binary_round_aux prec emax false mx (- E) lx = tail false m1 (- F).
Proof.
  intros HE Hm Hx.
  rewrite binary_round_aux_tail, round_nearest_even_incr.
  unfold SpecFloat.shr_fexp.
  set (rec0 := shr_record_of_loc mx lx).
  set (n1 := fexp (Zdigits2 mx + - E) - - E).
  destruct (shr_spec rec0 (- E) n1) as [H1 [H2 [H3 _]]].
  { unfold rec0. rewrite shr_record_of_loc_m. lia. }
  destruct (shift_le mx E HE Hm) as [K0 K]. fold n1 in K0, K.
  set (k := Z.max n1 0) in *.
  set (mrs := fst (shr rec0 (- E) n1)) in *.
  rewrite H1. set (F := E - k).
  replace (- E + k) with (- F) by (unfold F; lia).
  assert (HF : 0 <= F) by (unfold F; lia).
  assert (PE : 2 ^ E = 2 ^ k * 2 ^ F).
  { rewrite <- pow2_add by lia. f_equal. unfold F. lia. }
  pose proof (pow2_pos k K0) as Pk. pose proof (pow2_pos F HF) as PF.
  destruct (shr_record_of_loc_code mx lx) as [[C1 C2] C3]. fold rec0 in C1, C2, C3.
  exists (shr_m mrs + Z.b2z (incr mrs)), F.
  split; [exact HF|]. split; [|reflexivity].
  unfold incr.
  change (code mrs) with (2 * shr_m mrs + Z.b2z (shr_r mrs)) in H3.
  split; [destruct (_ && _)%bool; cbn [Z.b2z]; lia|].
  destruct (Z.eq_dec mx (2 ^ E)) as [EQ|NE].
  - rewrite (C3 (Hx EQ)), EQ, PE in H3.
    replace (2 * (2 ^ k * 2 ^ F)) with (2 * 2 ^ F * 2 ^ k) in H3 by lia.
    rewrite Z.div_mul in H3 by lia.
    destruct (shr_r mrs); cbn [Z.b2z andb] in *; lia.
  - assert (code rec0 / 2 ^ k < 2 * 2 ^ F).
    { apply Z.div_lt_upper_bound; [lia|]. nia. }
    destruct (shr_r mrs); cbn [Z.b2z andb] in *; [|lia].
    destruct (_ || _)%bool; cbn [Z.b2z]; lia.
Qed.

(** A mantissa and a location that stand for a value of at most one round
    to at most one. *)
Lemma binary_round_aux_le_one (mx E : Z) (lx : location) :
  0 <= E -> 0 <= mx <= 2 ^ E -> (mx = 2 ^ E -> lx = loc_Exact) ->
  let r := binary_round_aux prec emax false mx (- E) lx in
  nonneg_sf r /\ r <> S754_infinity false
  /\ (valid r = true -> sval r <= 2 ^ (- emin)).
Proof.
  intros HE Hm Hx.
  destruct (binary_round_aux_first_stage mx E lx HE Hm Hx)
    as [m1 [F [HF [M1 R]]]].
  cbv zeta. rewrite R. clear R.
  rewrite tail_cases by lia.
  destruct (shift_le m1 F HF M1) as [N0 N].
  set (n2 := Z.max (fexp (Zdigits2 m1 + - F) - - F) 0) in *.
  assert (Q : 0 <= m1 / 2 ^ n2 <= 2 ^ (F - n2)).
  { pose proof (pow2_pos n2 N0). split; [apply Z.div_pos; lia|].
    apply Z.div_le_upper_bound; [lia|].
    rewrite <- pow2_add by lia. replace (n2 + (F - n2)) with F by lia. lia. }
  destruct (Z.eqb_spec (m1 / 2 ^ n2) 0) as [Z0|NZ].
  - cbn [nonneg_sf sval SpecFloat.valid_binary].
    pose proof (pow2_pos (- emin)) as P. pose proof emin_nonpos.
    split; [exact I | split; [discriminate | intros _; lia]].
  - destruct (Z.leb_spec (- F + n2) (emax - prec)) as [L|G]; [|lia].
    cbn [nonneg_sf]. split; [exact I | split; [discriminate|]].
    intro V. destruct (bounded_inv _ _ V) as [[He _] _].
    cbn [sval]. rewrite Z2Pos.id by lia.
    pose proof (pow2_pos (- F + n2 - emin) ltac:(lia)).
    replace (- emin) with ((F - n2) + (- F + n2 - emin)) by lia.
    rewrite pow2_add by lia.
    apply Z.mul_le_mono_nonneg_r; lia.
Qed.


Lemma new_location_0 (nb : Z) : new_location nb 0 = loc_Exact.
Proof.
  unfold new_location, new_location_even, new_location_odd.
  destruct (Z.even nb); reflexivity.
Qed.

Lemma SFdiv_core_binary_eq (m1 m2 : positive) (e1 e2 : Z) :
  let e' := Z.min (fexp (Zdigits2 (Zpos m1) + e1 - (Zdigits2 (Zpos m2) + e2)))
                  (e1 - e2) in
  let m' := Zpos m1 * 2 ^ (e1 - e2 - e') in
  SFdiv_core_binary prec emax (Zpos m1) e1 (Zpos m2) e2
  = (m' / Zpos m2, e', new_location (Zpos m2) (m' mod Zpos m2)).
Proof.
  intros e' m'. unfold SFdiv_core_binary. fold e'.
  assert (E : match e1 - e2 - e' with
              | Z0 => Zpos m1
              | Zpos _ => Z.shiftl (Zpos m1) (e1 - e2 - e')
              | Zneg _ => 0
              end = m').
  { unfold m'. assert (0 <= e1 - e2 - e') by (unfold e'; lia).
    destruct (e1 - e2 - e') as [|s|s] eqn:S; [| |lia].
    - rewrite Z.pow_0_r. lia.
    - apply Z.shiftl_mul_pow2. lia. }
  rewrite E. unfold Z.div, Z.modulo.
  destruct (Z.div_eucl m' (Zpos m2)) as [q r]. reflexivity.
Qed.

(** Dividing a non-negative float by a finite one that is not smaller gives
    a float no larger than one. *)
Theorem SFdiv_le_one (x : spec_float) (my : positive) (ey : Z) :
  valid x = true -> valid (S754_finite false my ey) = true -> nonneg_sf x ->
  sval x <= sval (S754_finite false my ey) ->
  let r := SFdiv prec emax x (S754_finite false my ey) in
  nonneg_sf r /\ r <> S754_infinity false
  /\ (valid r = true -> sval r <= 2 ^ (- emin)).
Proof.
  intros Vx Vy Nx H.
  pose proof (sval_finite_bounds my ey Vy) as By.
  pose proof (pow2_pos (- emin)) as P1. pose proof emin_nonpos as En.
  destruct x as [sx|sx| |sx mx ex]; try contradiction.
  - cbn [SFdiv nonneg_sf sval]. cbv zeta.
    split; [exact I | split; [discriminate | intros _; cbn [sval]; lia]].
  - destruct sx; [contradiction|]. cbn [sval] in H, By. lia.
  - destruct sx; [contradiction|]. cbn [sval] in H, By.
    destruct (bounded_inv mx ex Vx) as [Hex _].
    destruct (bounded_inv my ey Vy) as [Hey _].
    cbv zeta. cbn [SFdiv xorb]. rewrite SFdiv_core_binary_eq.
    set (d1 := Zdigits2 (Zpos mx)). set (d2 := Zdigits2 (Zpos my)).
    pose proof (Zdigits2_bounds (Zpos mx) eq_refl) as [L1 _]. fold d1 in L1.
    pose proof (Zdigits2_bounds (Zpos my) eq_refl) as [_ U2]. fold d2 in U2.
    pose proof (Zdigits2_pos (Zpos mx) eq_refl) as D1. fold d1 in D1.
    pose proof (Zdigits2_pos (Zpos my) eq_refl) as D2. fold d2 in D2.
    assert (DD : d1 + ex <= d2 + ey).
    { destruct (Z.le_gt_cases (d1 + ex) (d2 + ey)) as [L|G]; [exact L|].
      exfalso.
      pose proof (pow2_le (d2 + (ey - emin)) (d1 - 1 + (ex - emin)) ltac:(lia)) as Q.
      rewrite !pow2_add in Q by lia.
      pose proof (pow2_pos (ex - emin)). pose proof (pow2_pos (ey - emin)).
      nia. }
    set (e' := Z.min (fexp (d1 + ex - (d2 + ey))) (ex - ey)).
    set (E := - e').
    assert (HE : 0 <= E) by (unfold E, e'; rewrite fexp_eq; lia).
    assert (Hs : 0 <= ex - ey - e') by (unfold e'; lia).
    set (s := ex - ey - e') in *.
    replace e' with (- E) by (unfold E; lia).
    pose proof (pow2_pos s Hs) as Ps. pose proof (pow2_pos E HE) as PE.
    assert (M : Zpos mx * 2 ^ s <= Zpos my * 2 ^ E).
    { assert (X : 2 ^ (ex - emin) * 2 ^ E = 2 ^ s * 2 ^ (ey - emin)).
      { rewrite <- !pow2_add by lia. f_equal. unfold s, E. lia. }
      pose proof (pow2_pos (ey - emin)) as PA.
      apply (Z.mul_le_mono_pos_r _ _ (2 ^ (ey - emin))); [lia|].
      rewrite <- !Z.mul_assoc, <- X.
      replace (2 ^ E * 2 ^ (ey - emin)) with (2 ^ (ey - emin) * 2 ^ E) by lia.
      rewrite !Z.mul_assoc. apply Z.mul_le_mono_nonneg_r; lia. }
    pose proof (Z.div_mod (Zpos mx * 2 ^ s) (Zpos my) ltac:(lia)) as DM.
    pose proof (Z.mod_pos_bound (Zpos mx * 2 ^ s) (Zpos my) ltac:(lia)) as MB.
    apply binary_round_aux_le_one; [exact HE | split | ].
    + apply Z.div_pos; lia.
    + apply Z.div_le_upper_bound; lia.
    + intro Q. rewrite Q in DM.
      replace ((Zpos mx * 2 ^ s) mod Zpos my) with 0 by lia.
      apply new_location_0.
Qed.

End Rounding.
End Binary.

(** * Binary64 on non-negative numbers *)

Module Float64.
Import Py.

Lemma prec64_pos : 0 < prec.
Proof. reflexivity. Qed.

Lemma prec64_lt_emax : prec < emax.
Proof. reflexivity. Qed.

(** The value of a non-negative float, in units of [2 ^ -1074]. *)
Definition val (x : float) : Z := Binary.sval prec emax (Prim2SF x).

(** [0 <= x]: zero, a positive number or plus infinity. *)
Definition nonneg (x : float) : Prop := (0 <=? x)%float = true.

(** Rounding of an exact scaled value, and the value of [1.0]. *)
Definition round64 : Z -> Z := Binary.round_val prec emax.
Definition one_val : Z := 2 ^ (- emin).

Lemma Prim2SF_zero : Prim2SF 0 = S754_zero false.
Proof. vm_compute. reflexivity. Qed.

Lemma nonneg_spec (x : float) :
  nonneg x <-> Binary.nonneg_sf (Prim2SF x).
Proof.
  unfold nonneg. rewrite FloatAxioms.leb_spec, Prim2SF_zero.
  destruct (Prim2SF x) as [s|s| |s m e]; cbn;
    try destruct s; split; intro; trivial; try discriminate; contradiction.
Qed.

Lemma compare_val (x y : float) :
  nonneg x -> nonneg y ->
  SFcompare (Prim2SF x) (Prim2SF y) = Some (val x ?= val y).
Proof.
  intros Nx Ny.
  apply (Binary.SFcompare_sval prec emax prec64_pos prec64_lt_emax).
  - apply Prim2SF_valid.
  - apply Prim2SF_valid.
  - now apply nonneg_spec.
  - now apply nonneg_spec.
Qed.

Lemma leb_val (x y : float) :
  nonneg x -> nonneg y -> (x <=? y)%float = (val x <=? val y).
Proof.
  intros Nx Ny. rewrite FloatAxioms.leb_spec. unfold SFleb.
  rewrite compare_val by assumption. unfold Z.leb.
  destruct (val x ?= val y); reflexivity.
Qed.

Lemma ltb_val (x y : float) :
  nonneg x -> nonneg y -> (x <? y)%float = (val x <? val y).
Proof.
  intros Nx Ny. rewrite FloatAxioms.ltb_spec. unfold SFltb.
  rewrite compare_val by assumption. unfold Z.ltb.
  destruct (val x ?= val y); reflexivity.
Qed.

Lemma val_nonneg (x : float) : 0 <= val x.
Proof. apply Binary.sval_nonneg; reflexivity. Qed.

Lemma round64_mono (N1 N2 : Z) :
  0 <= N1 <= N2 -> round64 N1 <= round64 N2.
Proof. apply (Binary.round_val_mono prec emax prec64_pos prec64_lt_emax). Qed.

Lemma round64_val (x : float) : nonneg x -> round64 (val x) = val x.
Proof.
  intro N. apply (Binary.round_val_sval prec emax prec64_pos prec64_lt_emax).
  - apply Prim2SF_valid.
  - now apply nonneg_spec.
Qed.

(** A sum of non-negative floats is the rounding of the exact sum. *)
Theorem add_val (x y : float) :
  nonneg x -> nonneg y ->
  nonneg (x + y) /\ val (x + y) = round64 (val x + val y).
Proof.
  intros Nx Ny. rewrite nonneg_spec. unfold val. rewrite FloatAxioms.add_spec.
  apply (Binary.SFadd_sval prec emax prec64_pos prec64_lt_emax).
  - apply Prim2SF_valid.
  - apply Prim2SF_valid.
  - now apply nonneg_spec.
  - now apply nonneg_spec.
Qed.

Lemma add_mono (x x' y y' : float) :
  nonneg x -> nonneg x' -> nonneg y -> nonneg y' ->
  val x <= val x' -> val y <= val y' -> val (x + y) <= val (x' + y').
Proof.
  intros Nx Nx' Ny Ny' Hx Hy.
  rewrite (proj2 (add_val x y Nx Ny)), (proj2 (add_val x' y' Nx' Ny')).
  apply round64_mono. pose proof (val_nonneg x). pose proof (val_nonneg y).
  lia.
Qed.

(** [float(n)] is the rounding of [n]. *)
Theorem Z2F_val (n : Z) :
  nonneg (Z2F n)
  /\ val (Z2F n) = round64 ((n mod 2 ^ 63) * one_val).
Proof.
  rewrite nonneg_spec. unfold val, Z2F. rewrite FloatAxioms.of_uint63_spec.
  rewrite Uint63.of_Z_spec.
  change wB with (2 ^ 63).
  pose proof (Z.mod_pos_bound n (2 ^ 63) ltac:(lia)) as B.
  destruct (Binary.binary_normalize_sval prec emax prec64_pos prec64_lt_emax
              (n mod 2 ^ 63) 0) as [H1 H2]; [lia | now compute |].
  split; [exact H1|]. rewrite H2. unfold round64, one_val.
  reflexivity.
Qed.


Lemma val_zero : val 0 = 0.
Proof. unfold val. rewrite Prim2SF_zero. reflexivity. Qed.

Lemma nonneg_zero : nonneg 0.
Proof. reflexivity. Qed.

Lemma val_one : val 1 = one_val.
Proof. vm_compute. reflexivity. Qed.

Lemma nonneg_one : nonneg 1.
Proof. reflexivity. Qed.

Lemma one_val_pos : 0 < one_val.
Proof. apply Z.pow_pos_nonneg; [lia | now compute]. Qed.

Lemma top_eq : Binary.top prec emax = 2 ^ 1024 * one_val.
Proof.
  unfold Binary.top, one_val.
  rewrite <- Z.pow_add_r; [reflexivity | lia | now compute].
Qed.

(** Integers below [2 ^ 53] convert exactly. *)
Lemma round64_int (n : Z) :
  0 <= n < 2 ^ 53 -> round64 (n * one_val) = n * one_val.
Proof.
  intro H. unfold round64, Binary.round_val, one_val.
  rewrite Binary.rv_exact_scaled.
  - fold one_val. rewrite top_eq. pose proof one_val_pos.
    assert (2 ^ 53 < 2 ^ 1024) by (apply Z.pow_lt_mono_r; lia). nia.
  - exact prec64_pos.
  - lia.
  - now compute.
  - apply Binary.digits_lt_pow2; [now compute | exact H].
Qed.

Lemma Z2F_exact (n : Z) :
  0 <= n < 2 ^ 53 -> nonneg (Z2F n) /\ val (Z2F n) = n * one_val.
Proof.
  intro H. destruct (Z2F_val n) as [N V]. split; [exact N|].
  rewrite V, Z.mod_small by lia. now apply round64_int.
Qed.

(** A quotient of non-negative floats, the divisor positive, finite and no
    smaller than the dividend, is between zero and one. *)
Theorem div_le_one (x y : float) :
  nonneg x -> nonneg y -> val x <= val y ->
  0 < val y < Binary.top prec emax ->
  nonneg (x / y) /\ val (x / y) <= one_val.
Proof.
  intros Nx Ny H Hy.
  pose proof (Prim2SF_valid (x / y)) as Vr.
  rewrite nonneg_spec. unfold val in *. rewrite FloatAxioms.div_spec in *.
  apply nonneg_spec in Nx, Ny.
  pose proof (Prim2SF_valid x) as Vx. pose proof (Prim2SF_valid y) as Vy.
  destruct (Prim2SF y) as [sy|sy| |sy my ey]; try contradiction.
  - cbn [Binary.sval] in Hy. lia.
  - destruct sy; [contradiction|]. cbn [Binary.sval] in Hy. lia.
  - destruct sy; [contradiction|].
    destruct (Binary.SFdiv_le_one prec emax prec64_pos prec64_lt_emax
                (Prim2SF x) my ey Vx Vy Nx H) as [R1 [_ R3]].
    split; [exact R1 | exact (R3 Vr)].
Qed.

End Float64.

(** * Lemmas on dictionaries *)

Module DictFacts.
Import Py.

Local Open Scope string_scope.
Local Open Scope list_scope.

Lemma lookup_app_absent {V : Type} (k : string) (d d' : dict V) :
  ~ In k (keys d') -> lookup k (d ++ d') = lookup k d.
Proof.
  intro H. induction d as [|[k1 v1] d IH]; simpl.
  - induction d' as [|[k2 v2] d' IH']; simpl; trivial.
    destruct (String.eqb_spec k k2) as [->|_].
    + exfalso. apply H. now left.
    + apply IH'. intro Hin. apply H. now right.
  - destruct (String.eqb k k1); trivial.
Qed.

Lemma lookup_set_same {V : Type} (k : string) (v : V) (d : dict V) :
  lookup k (set k v d) = Some v.
Proof.
  induction d as [|[k' v'] d IH]; simpl.
  - now rewrite String.eqb_refl.
  - destruct (String.eqb k k') eqn:E; simpl; rewrite E; trivial.
Qed.

Lemma lookup_set_other {V : Type} (k k0 : string) (v : V) (d : dict V) :
  k0 <> k -> lookup k0 (set k v d) = lookup k0 d.
Proof.
  intro H. induction d as [|[k' v'] d IH]; simpl.
  - apply String.eqb_neq in H. now rewrite H.
  - destruct (String.eqb_spec k k') as [->|N]; simpl.
    + apply String.eqb_neq in H. now rewrite H.
    + now rewrite IH.
Qed.

Lemma values_set {V : Type} (P : V -> Prop) (k : string) (v : V) (d : dict V) :
  P v -> Forall P (values d) -> Forall P (values (set k v d)).
Proof.
  intros Hv. induction d as [|[k' v'] d IH]; simpl; intro H.
  - now constructor.
  - inversion H; subst. destruct (String.eqb k k'); simpl; constructor; auto.
Qed.

Lemma lookup_value {V : Type} (P : V -> Prop) (k : string) (d : dict V) :
  Forall P (values d) -> lookup k d <> None ->
  exists v, lookup k d = Some v /\ P v.
Proof.
  induction d as [|[k' v'] d IH]; simpl; intros H N; [contradiction|].
  inversion H; subst.
  destruct (String.eqb k k'); [now exists v' | auto].
Qed.

Lemma str_in_In (x : string) (l : list string) : str_in x l = true <-> In x l.
Proof.
  unfold str_in. rewrite existsb_exists. split.
  - intros [y [Hy E]]. apply String.eqb_eq in E. now subst.
  - intro H. exists x. split; [exact H | apply String.eqb_refl].
Qed.

Lemma str_in_not_In (x : string) (l : list string) :
  str_in x l = false <-> ~ In x l.
Proof.
  split.
  - intros H I. apply str_in_In in I. congruence.
  - intro H. destruct (str_in x l) eqn:E; [|reflexivity].
    apply str_in_In in E. contradiction.
Qed.

Lemma NoDup_snoc {A : Type} (l : list A) (x : A) :
  NoDup l -> ~ In x l -> NoDup (l ++ [x]).
Proof.
  intros H N. induction H as [|y l Hy H IH]; simpl.
  - constructor; [intros [] | constructor].
  - constructor.
    + rewrite in_app_iff. intros [I|[E|[]]]; [contradiction|].
      subst. apply N. now left.
    + apply IH. intro I. apply N. now right.
Qed.

Lemma lookup_In {V : Type} (k : string) (v : V) (m : dict V) :
  NoDup (keys m) -> In (k, v) m -> lookup k m = Some v.
Proof.
  induction m as [|[k' v'] m IH]; simpl; intros N H; [contradiction|].
  destruct H as [E|I].
  - inversion E; subst. now rewrite String.eqb_refl.
  - inversion N; subst.
    destruct (String.eqb_spec k k') as [->|_].
    + exfalso. apply H1. unfold keys. change k' with (fst (k', v)).
      now apply in_map.
    + now apply IH.
Qed.

Lemma lookup_None_keys {V : Type} (k : string) (m : dict V) :
  lookup k m = None <-> ~ In k (keys m).
Proof.
  induction m as [|[k' v] m IH]; simpl.
  - tauto.
  - destruct (String.eqb_spec k k') as [->|N].
    + split; [discriminate | intro H; elim H; now left].
    + rewrite IH. split; intro H; [intros [E|I]; [congruence | tauto] | tauto].
Qed.

End DictFacts.

(** * Properties of the scorer *)

Module ColorRateFacts.
Import Py ColorRate DictFacts.

Local Open Scope string_scope.
Local Open Scope list_scope.

(** *** The colour distance *)

Lemma sq_distance_sym (rgb1 rgb2 : list Z) :
  sq_distance rgb1 rgb2 = sq_distance rgb2 rgb1.
Proof.
  unfold sq_distance, sum. f_equal.
  revert rgb2. induction rgb1 as [|a r1 IH]; intros [|b r2]; simpl; trivial.
  rewrite IH. f_equal. nia.
Qed.

Lemma sq_distance_refl (rgb1 : list Z) : sq_distance rgb1 rgb1 = 0.
Proof.
  unfold sq_distance, sum.
  induction rgb1 as [|a r IH]; simpl; trivial.
  rewrite Z.sub_diag. exact IH.
Qed.

Lemma rgb_similarity_refl (rgb1 : list Z) : rgb_similarity rgb1 rgb1 = 1.0%float.
Proof.
  unfold rgb_similarity. rewrite sq_distance_refl. vm_compute. reflexivity.
Qed.

Lemma similarity_same_lower (color1 color2 : string) :
  lower color1 = lower color2 ->
  calculate_color_similarity color1 color2 = 1.0%float.
Proof.
  intro H. unfold calculate_color_similarity. rewrite H.
  apply rgb_similarity_refl.
Qed.

(** C9: the colour similarity does not depend on the order of its two
    arguments. *)
Theorem calculate_color_similarity_sym (color1 color2 : string) :
  calculate_color_similarity color1 color2
  = calculate_color_similarity color2 color1.
Proof.
  unfold calculate_color_similarity, rgb_similarity.
  now rewrite sq_distance_sym.
Qed.

(** C8: a name whose lower-cased form is not a key of the palette is
    scored as ["black"] against every name, and as [1.0] against every
    other such name. *)
Theorem unknown_name_is_black (color1 : string) :
  lookup (lower color1) color_to_rgb = None ->
  (forall color2,
      calculate_color_similarity color1 color2
      = calculate_color_similarity "black" color2)
  /\ (forall color2,
         lookup (lower color2) color_to_rgb = None ->
         calculate_color_similarity color1 color2 = 1.0%float).
Proof.
  intro H. split.
  - intro color2. unfold calculate_color_similarity, get.
    rewrite H. reflexivity.
  - intros color2 H2. unfold calculate_color_similarity, get.
    rewrite H, H2. apply rgb_similarity_refl.
Qed.

Lemma unknown_name_is_black_witness :
  lookup (lower "Mauve") color_to_rgb = None
  /\ calculate_color_similarity "Mauve" "white"
     = calculate_color_similarity "black" "white"
  /\ calculate_color_similarity "Mauve" "taupe" = 1.0%float.
Proof.
  assert (H : lookup (lower "Mauve") color_to_rgb = None) by reflexivity.
  destruct (unknown_name_is_black "Mauve" H) as [H1 H2].
  split; [exact H | split; [apply H1 | apply H2; reflexivity]].
Defined.

(** *** The forward pass *)

(** The value the forward pass appends for one user entry, in the words of
    the specification. *)
Definition entry_similarity (reference : dict string)
    (item : string * string) : float :=
  match lookup (lower (fst item)) reference with
  | Some ref_color =>
      if String.eqb ref_color (snd item) then 1.0%float
      else calculate_color_similarity (snd item) ref_color
  | None => 0.0%float
  end.

Lemma forward_step_similarities dict2 a item :
  color_similarities (forward_step dict2 a item)
  = color_similarities a ++ [entry_similarity dict2 item].
Proof.
  destruct item as [o c]. unfold forward_step, entry_similarity. simpl.
  destruct (lookup (lower o) dict2) as [j|]; [|reflexivity].
  destruct (String.eqb j c); reflexivity.
Qed.

Lemma forward_pass_similarities dict2 dict1 a :
  color_similarities (fold_left (forward_step dict2) dict1 a)
  = color_similarities a ++ map (entry_similarity dict2) dict1.
Proof.
  revert a. induction dict1 as [|item d IH]; intro a; simpl.
  - now rewrite app_nil_r.
  - rewrite IH, forward_step_similarities, <- app_assoc. reflexivity.
Qed.

Lemma reverse_pass_similarities dict1 dict2 a :
  color_similarities (fold_left (reverse_step dict1) dict2 a)
  = color_similarities a.
Proof.
  revert a. induction dict2 as [|item d IH]; intro a; simpl; trivial.
  rewrite IH. unfold reverse_step. now destruct (qualifies dict1 item).
Qed.

Lemma accumulate_similarities dict1 dict2 :
  color_similarities (accumulate dict1 dict2)
  = map (entry_similarity dict2) dict1.
Proof.
  unfold accumulate.
  now rewrite reverse_pass_similarities, forward_pass_similarities.
Qed.

(** C2, amended: against a non-empty reference the list has one value per
    user entry, the [i]-th being the similarity of the [i]-th entry;
    against the empty reference the result is [(0.0, [])]. *)
Theorem similarity_list_follows_user dict1 dict2_rgb :
  (forall dict2,
      dict2 <> [] ->
      let sims := snd (calculate_enhanced_similarity dict1 dict2 dict2_rgb) in
      List.length sims = List.length dict1
      /\ forall i item,
           nth_error dict1 i = Some item ->
           nth_error sims i = Some (entry_similarity dict2 item))
  /\ calculate_enhanced_similarity dict1 [] dict2_rgb = (0.0%float, []).
Proof.
  split.
  - intros dict2 H2 sims.
    assert (E : sims = map (entry_similarity dict2) dict1).
    { unfold sims, calculate_enhanced_similarity.
      destruct dict1 as [|x d1]; [reflexivity|].
      destruct dict2 as [|y d2]; [contradiction|].
      simpl is_empty. cbn [orb]. unfold finish. cbn [snd].
      apply accumulate_similarities. }
    rewrite E. split.
    + apply length_map.
    + intros i item Hi. rewrite nth_error_map, Hi. reflexivity.
  - unfold calculate_enhanced_similarity. cbn [is_empty].
    now rewrite orb_true_r.
Qed.

Lemma similarity_list_follows_user_witness :
  List.length
    (snd (calculate_enhanced_similarity
            [("Lantern", "red"); ("x", "navy")] [("lantern", "red")] []))
  = List.length [("Lantern", "red"); ("x", "navy")]
  /\ forall i item,
       nth_error [("Lantern", "red"); ("x", "navy")] i = Some item ->
       nth_error
         (snd (calculate_enhanced_similarity
                 [("Lantern", "red"); ("x", "navy")] [("lantern", "red")] []))
         i
       = Some (entry_similarity [("lantern", "red")] item).
Proof.
  apply (proj1 (similarity_list_follows_user
                  [("Lantern", "red"); ("x", "navy")] [])
           [("lantern", "red")]).
  discriminate.
Defined.

(** C2, as stated, fails: with an empty reference the guard on empty
    inputs returns the empty list for a one-entry user mapping. *)
Lemma empty_reference_gives_empty_list :
  calculate_enhanced_similarity [("x", "red")] [] [] = (0.0%float, [])
  /\ List.length (snd (calculate_enhanced_similarity [("x", "red")] [] []))
     <> List.length [("x", "red")]
  /\ snd (calculate_enhanced_similarity [("x", "red")] [] [])
     <> [0.0%float].
Proof.
  split; [reflexivity | split; cbn; discriminate].
Qed.

(** C7: the RGB argument has no influence on the result. *)
Theorem rgb_argument_ignored dict1 dict2 (r1 r2 : dict (list Z)) :
  calculate_enhanced_similarity dict1 dict2 r1
  = calculate_enhanced_similarity dict1 dict2 r2.
Proof. reflexivity. Qed.


(** *** The reverse pass *)

(** Entries that pass the test of the second loop are never looked up by
    the first. *)
Lemma forward_step_app dict1 dict2 extra a item :
  Forall (fun e => qualifies dict1 e = true) extra ->
  In item dict1 ->
  forward_step (dict2 ++ extra) a item = forward_step dict2 a item.
Proof.
  intros Hq Hin. destruct item as [o c]. unfold forward_step.
  rewrite lookup_app_absent; trivial.
  intro Hk. unfold keys in Hk. apply in_map_iff in Hk.
  destruct Hk as [[k v] [Ek Hkv]]. simpl in Ek. subst k.
  rewrite Forall_forall in Hq. specialize (Hq _ Hkv).
  unfold qualifies in Hq. apply andb_true_iff in Hq. destruct Hq as [Hq _].
  apply negb_true_iff in Hq.
  assert (Hc : str_in (lower o) (map lower (keys dict1)) = true).
  { apply str_in_In. apply in_map. unfold keys.
    change o with (fst (o, c)). now apply in_map. }
  congruence.
Qed.

Lemma forward_pass_app dict1 dict2 extra a :
  Forall (fun e => qualifies dict1 e = true) extra ->
  fold_left (forward_step (dict2 ++ extra)) dict1 a
  = fold_left (forward_step dict2) dict1 a.
Proof.
  intro Hq.
  assert (G : forall d a0, incl d dict1 ->
            fold_left (forward_step (dict2 ++ extra)) d a0
            = fold_left (forward_step dict2) d a0).
  { induction d as [|item d IH]; intros a0 Hd; simpl; trivial.
    rewrite (forward_step_app dict1) by (trivial; apply Hd; now left).
    apply IH. intros x Hx. apply Hd. now right. }
  apply G, incl_refl.
Qed.

Lemma reverse_pass_qualifying dict1 extra a :
  Forall (fun e => qualifies dict1 e = true) extra ->
  fold_left (reverse_step dict1) extra a
  = Nat.iter (List.length extra) bonus a.
Proof.
  intro Hq. revert a. induction Hq as [|e l He _ IH]; intro a; simpl; trivial.
  rewrite IH. unfold reverse_step. rewrite He.
  clear. induction (List.length l) as [|n IHn]; simpl; trivial.
  now rewrite IHn.
Qed.

(** [k] times [x += 0.3]. *)
Definition plus_bonuses (k : nat) (x : num) : num :=
  Nat.iter k (fun y => add y (PFloat 0.3%float)) x.

Lemma iter_bonus (k : nat) (a : acc) :
  Nat.iter k bonus a
  = mkAcc (plus_bonuses k (matches a)) (plus_bonuses k (total_comparisons a))
          (color_similarities a).
Proof.
  unfold plus_bonuses. induction k as [|k IH]; simpl.
  - now destruct a.
  - rewrite IH. reflexivity.
Qed.

(** C1, amended: [k] more qualifying reference entries leave the list of
    similarities as it is and add [0.3], [k] times, to the numerator and
    to the denominator of the score. *)
Theorem qualifying_entries_add_bonus dict1 dict2 extra dict2_rgb rgb' :
  dict1 <> [] -> dict2 <> [] ->
  Forall (fun e => qualifies dict1 e = true) extra ->
  let a := accumulate dict1 dict2 in
  let k := List.length extra in
  calculate_enhanced_similarity dict1 dict2 dict2_rgb = finish a
  /\ calculate_enhanced_similarity dict1 (dict2 ++ extra) rgb'
     = finish (mkAcc (plus_bonuses k (matches a))
                     (plus_bonuses k (total_comparisons a))
                     (color_similarities a)).
Proof.
  intros H1 H2 Hq a k. unfold calculate_enhanced_similarity.
  destruct dict1 as [|x d1]; [contradiction|].
  destruct dict2 as [|y d2]; [contradiction|].
  split; [reflexivity|].
  simpl is_empty. cbn [orb]. f_equal.
  unfold accumulate. rewrite forward_pass_app by exact Hq.
  rewrite fold_left_app. rewrite reverse_pass_qualifying by exact Hq.
  apply iter_bonus.
Qed.

Lemma qualifying_entries_add_bonus_witness :
  calculate_enhanced_similarity [("a", "red")] [("c", "blue")] []
  = finish (accumulate [("a", "red")] [("c", "blue")])
  /\ calculate_enhanced_similarity [("a", "red")]
       ([("c", "blue")] ++ [("b", "red"); ("d", "red")]) []
     = finish (mkAcc (plus_bonuses 2 (PInt 0)) (plus_bonuses 2 (PInt 1))
                     [0.0%float]).
Proof.
  apply (qualifying_entries_add_bonus
           [("a", "red")] [("c", "blue")] [("b", "red"); ("d", "red")] [] []).
  - discriminate.
  - discriminate.
  - repeat constructor.
Defined.

(** C1, as stated, fails: one qualifying entry moves the score of a user
    mapping with no match from [0/1] to [0.3/1.3]. *)
Lemma qualifying_entry_changes_score :
  qualifies [("a", "red")] ("b", "red") = true
  /\ fst (calculate_enhanced_similarity [("a", "red")] [("c", "blue")] [])
     = 0.0%float
  /\ fst (calculate_enhanced_similarity [("a", "red")]
            ([("c", "blue")] ++ [("b", "red")]) [])
     = (0.3 / 1.3)%float
  /\ (fst (calculate_enhanced_similarity [("a", "red")] [("c", "blue")] [])
      =? fst (calculate_enhanced_similarity [("a", "red")]
                ([("c", "blue")] ++ [("b", "red")]) []))%float = false.
Proof.
  repeat split; vm_compute; reflexivity.
Qed.

(** *** Exact and partial matches *)

(** C4, amended: a reference colour that is the user's colour, character
    for character, counts [1] in the numerator; one that differs from it
    only in letter case counts [0.8].  Both count [1] in the denominator
    and append [1.0]. *)
Theorem same_color_up_to_case dict2 a user_obj user_color json_color :
  lookup (lower user_obj) dict2 = Some json_color ->
  lower json_color = lower user_color ->
  (json_color = user_color ->
   forward_step dict2 a (user_obj, user_color)
   = mkAcc (add (matches a) (PInt 1))
           (add (total_comparisons a) (PInt 1))
           (color_similarities a ++ [1.0%float]))
  /\ (json_color <> user_color ->
      forward_step dict2 a (user_obj, user_color)
      = mkAcc (add (matches a) (PFloat 0.8%float))
              (add (total_comparisons a) (PInt 1))
              (color_similarities a ++ [1.0%float])).
Proof.
  intros Hl Hc. unfold forward_step. rewrite Hl. split; intro H.
  - apply String.eqb_eq in H. now rewrite H.
  - apply String.eqb_neq in H. rewrite H.
    rewrite similarity_same_lower by (symmetry; exact Hc).
    reflexivity.
Qed.

Lemma same_color_up_to_case_witness :
  forward_step [("car", "red")] acc0 ("Car", "Red")
  = mkAcc (add (PInt 0) (PFloat 0.8%float)) (add (PInt 0) (PInt 1))
          ([] ++ [1.0%float]).
Proof.
  refine (proj2 (same_color_up_to_case [("car", "red")] acc0
                   "Car" "Red" "red" _ _) _).
  - reflexivity.
  - reflexivity.
  - discriminate.
Defined.

(** C4, as stated, fails: ["Red"] against ["red"] is no exact match, and
    the entry adds a float [0.8] to the numerator, not [1]. *)
Lemma case_difference_is_partial_match :
  lookup (lower "car") [("car", "red")] = Some "red"
  /\ lower "red" = lower "Red"
  /\ matches (forward_step [("car", "red")] acc0 ("car", "Red"))
     = PFloat 0.8%float
  /\ matches (forward_step [("car", "red")] acc0 ("car", "Red"))
     <> add (matches acc0) (PInt 1)
  /\ calculate_enhanced_similarity [("car", "Red")] [("car", "red")] []
     = (0.8%float, [1.0%float]).
Proof.
  repeat split; try (vm_compute; reflexivity).
  vm_compute. discriminate.
Qed.

End ColorRateFacts.

(** * Properties of the driver on sources that fail to load *)

Module DriverFacts.
Import Py Exc ColorRate Aggregator Driver DictFacts.

Local Open Scope string_scope.
Local Open Scope list_scope.

(** The two failures [process_json_file] catches: no file at the path,
    and content that is not JSON. *)
Definition caught (f : file) : Prop := f = FileNotFound \/ f = InvalidJSON.

Lemma insert_sorted_In {A : Type} (x y : string * A) l :
  In y (insert_sorted x l) <-> y = x \/ In y l.
Proof.
  induction l as [|z l IH]; simpl.
  - intuition.
  - destruct (fst x <=? fst z)%string; simpl; rewrite ?IH; intuition.
Qed.

Lemma sorted_In {A : Type} (y : string * A) l : In y (sorted l) <-> In y l.
Proof.
  induction l as [|x l IH]; simpl; [tauto|].
  rewrite insert_sorted_In, IH. intuition.
Qed.

Lemma score_file_caught user_dict scores file_name file_path :
  caught file_path ->
  score_file user_dict scores (file_name, file_path)
  = Ok (set (remove ".json" file_name) 0.0%float scores).
Proof. intros [-> | ->]; reflexivity. Qed.

Lemma caught_run user_dict (l : list (string * file)) scores :
  Forall (fun f => caught (snd f)) l ->
  Forall (fun v => v = 0.0%float) (values scores) ->
  exists d,
    foldM (score_file user_dict) l scores = Ok d
    /\ Forall (fun v => v = 0.0%float) (values d)
    /\ (forall k, lookup k scores <> None -> lookup k d <> None)
    /\ (forall f, In f l -> lookup (remove ".json" (fst f)) d <> None).
Proof.
  intro Hl. revert scores.
  induction Hl as [|[name src] l Hu _ IH]; intros scores Hs.
  - exists scores. simpl. repeat split; trivial. intros f [].
  - simpl in Hu. cbn [foldM]. rewrite score_file_caught by exact Hu.
    cbn [bind].
    destruct (IH (set (remove ".json" name) 0.0%float scores))
      as [d [Ed [Hd [Hk Hf]]]].
    { now apply values_set. }
    exists d. repeat split; trivial.
    + intros k Hks. apply Hk.
      destruct (String.eqb_spec k (remove ".json" name)) as [->|N].
      * rewrite lookup_set_same. discriminate.
      * now rewrite lookup_set_other.
    + intros f [<- | Hin]; [|now apply Hf].
      apply Hk. simpl. rewrite lookup_set_same. discriminate.
Qed.

(** C3, amended: a path with no file, or a file that is not JSON, gives
    the empty mappings, and the driver binds its key to [0.0]; over a
    directory of such sources the driver returns, every source bound to
    [0.0]. *)
Theorem caught_failure_scores_zero user_dict :
  (forall file_path,
      caught file_path -> process_json_file file_path = Ok ([], []))
  /\ (forall scores file_name file_path,
         caught file_path ->
         score_file user_dict scores (file_name, file_path)
         = Ok (set (remove ".json" file_name) 0.0%float scores))
  /\ (forall json_files,
         Forall (fun f => caught (snd f)) json_files ->
         exists d,
           calculate_similarity_scores_dict user_dict (Some json_files) = Ok d
           /\ forall f, In f json_files ->
                lookup (remove ".json" (fst f)) d = Some 0.0%float).
Proof.
  split; [|split].
  - intros f [-> | ->]; reflexivity.
  - intros. now apply score_file_caught.
  - intros json_files Hu.
    destruct json_files as [|f0 fs].
    { exists []. split; [reflexivity | intros f []]. }
    destruct (caught_run user_dict (sorted (f0 :: fs)) [])
      as [d [Ed [Hd [_ Hf]]]].
    { apply Forall_forall. intros f Hin. apply (proj1 (sorted_In _ _)) in Hin.
      rewrite Forall_forall in Hu. now apply Hu. }
    { constructor. }
    exists d. split; [exact Ed|].
    intros f Hin.
    assert (N : lookup (remove ".json" (fst f)) d <> None).
    { apply Hf. now apply (proj2 (sorted_In _ _)). }
    destruct (lookup_value _ _ d Hd N) as [v [E Hv]].
    simpl in Hv. now rewrite E, Hv.
Qed.

Lemma caught_failure_scores_zero_witness :
  process_json_file InvalidJSON = Ok ([], [])
  /\ score_file [("x", "red")] [] ("001.colors.json", FileNotFound)
     = Ok (set (remove ".json" "001.colors.json") 0.0%float [])
  /\ exists d,
       calculate_similarity_scores_dict [("x", "red")]
         (Some [("b.colors.json", InvalidJSON); ("a.colors.json", FileNotFound)])
       = Ok d
       /\ forall f,
            In f [("b.colors.json", InvalidJSON); ("a.colors.json", FileNotFound)] ->
            lookup (remove ".json" (fst f)) d = Some 0.0%float.
Proof.
  destruct (caught_failure_scores_zero [("x", "red")]) as [H1 [H2 H3]].
  split; [|split].
  - apply H1. now right.
  - apply H2. now left.
  - apply H3.
    constructor; [now right | constructor; [now left | constructor]].
Defined.

(** C3, as stated, fails: a document that parses but has no ['entries']
    member raises [KeyError] through the aggregator and the driver, and so
    does an entry without a ['score']; a file that cannot be opened raises
    [OSError]. *)
Lemma missing_entries_raises :
  process_json_file (Loaded (mkDoc None)) = Raise (KeyError "entries")
  /\ calculate_similarity_scores_dict [("x", "red")]
       (Some [("001.colors.json", Loaded (mkDoc None))])
     = Raise (KeyError "entries")
  /\ process_json_file
       (Loaded (mkDoc (Some [mkEntry (Some "car") (Some "red")
                               (Some [255; 0; 0]) None])))
     = Raise (KeyError "score")
  /\ calculate_similarity_scores_dict [("x", "red")]
       (Some [("001.colors.json", Unreadable)])
     = Raise OSError.
Proof. repeat split; reflexivity. Qed.

End DriverFacts.

(** * Bounds on the score *)

Module ScoreFacts.
Import Py ColorRate Float64.

Local Open Scope string_scope.
Local Open Scope list_scope.

(** *** The weights of partial matches *)

(** The RGB lists [calculate_color_similarity] can look up. *)
Definition rgbs : list (list Z) := [0; 0; 0] :: values color_to_rgb.

Lemma get_in_rgbs (color : string) :
  In (get (lower color) color_to_rgb [0; 0; 0]) rgbs.
Proof.
  unfold get, rgbs. generalize (lower color). intro k.
  generalize color_to_rgb. intro d.
  induction d as [|[k' v] d IH]; simpl.
  - now left.
  - destruct (String.eqb k k'); [right; now left|].
    destruct IH as [IH|IH]; [now left | right; now right].
Qed.

Definition unit_weight (rgb1 rgb2 : list Z) : bool :=
  let w := (rgb_similarity rgb1 rgb2 * 0.8)%float in
  ((0 <=? w)%float && (w <=? 1)%float)%bool.

Lemma unit_weights :
  forallb (fun rgb1 => forallb (unit_weight rgb1) rgbs) rgbs = true.
Proof. vm_compute. reflexivity. Qed.

Lemma weighted_match_bounds (color1 color2 : string) :
  let w := (calculate_color_similarity color1 color2 * 0.8)%float in
  nonneg w /\ val w <= one_val.
Proof.
  intro w. pose proof unit_weights as H.
  rewrite forallb_forall in H.
  specialize (H _ (get_in_rgbs color1)). rewrite forallb_forall in H.
  specialize (H _ (get_in_rgbs color2)). unfold unit_weight in H.
  apply andb_true_iff in H. destruct H as [H0 H1].
  fold (calculate_color_similarity color1 color2) in H0, H1. fold w in H0, H1.
  split; [exact H0|].
  rewrite leb_val in H1 by (trivial; apply nonneg_one).
  rewrite val_one in H1. now apply Z.leb_le.
Qed.


(** *** The forward pass *)

(** After [j] user entries the denominator is the int [j], and the
    numerator is an int or a float of at most [j]. *)
Definition forward_inv (a : acc) (j : Z) : Prop :=
  total_comparisons a = PInt j
  /\ match matches a with
     | PInt k => 0 <= k <= j
     | PFloat f => nonneg f /\ val f <= j * one_val
     end.

Lemma add_below_next (x y : float) (j : Z) :
  0 <= j -> j + 1 < 2 ^ 53 ->
  nonneg x -> nonneg y -> val x <= j * one_val -> val y <= one_val ->
  nonneg (x + y) /\ val (x + y) <= (j + 1) * one_val.
Proof.
  intros Hj Hb Nx Ny Hx Hy. destruct (add_val x y Nx Ny) as [N V].
  split; [exact N|]. rewrite V, <- (round64_int (j + 1)) by lia.
  apply round64_mono.
  pose proof (val_nonneg x). pose proof (val_nonneg y). lia.
Qed.

Lemma forward_step_inv dict2 a item (j : Z) :
  0 <= j -> j + 1 < 2 ^ 53 ->
  forward_inv a j -> forward_inv (forward_step dict2 a item) (j + 1).
Proof.
  intros Hj Hb [Ht Hm]. destruct item as [user_obj user_color].
  pose proof one_val_pos as U.
  unfold forward_step, forward_inv.
  destruct (lookup (lower user_obj) dict2) as [json_color|];
    [destruct (String.eqb json_color user_color)|];
    cbn [matches total_comparisons]; rewrite Ht; (split; [reflexivity|]).
  - destruct (matches a) as [k|f]; cbn [add to_float]; [lia|].
    destruct Hm as [Nf Vf].
    destruct (Z2F_exact 1 ltac:(lia)) as [N1 V1].
    apply add_below_next; trivial; lia.
  - destruct (weighted_match_bounds user_color json_color) as [Nw Vw].
    destruct (matches a) as [k|f]; cbn [add to_float].
    + destruct (Z2F_exact k ltac:(lia)) as [Nk Vk].
      destruct (add_below_next (Z2F k) _ k ltac:(lia) ltac:(lia) Nk Nw
                  ltac:(lia) Vw) as [N V].
      split; [exact N | nia].
    + destruct Hm as [Nf Vf]. apply add_below_next; trivial.
  - destruct (matches a) as [k|f]; [lia|].
    destruct Hm as [Nf Vf]. split; [exact Nf | nia].
Qed.

Lemma forward_pass_inv dict2 dict1 a (j : Z) :
  0 <= j -> j + Z.of_nat (List.length dict1) < 2 ^ 53 ->
  forward_inv a j ->
  forward_inv (fold_left (forward_step dict2) dict1 a)
              (j + Z.of_nat (List.length dict1)).
Proof.
  revert a j. induction dict1 as [|item d IH]; intros a j Hj Hb H.
  - cbn. now rewrite Z.add_0_r.
  - cbn [fold_left List.length] in *. rewrite Nat2Z.inj_succ in *.
    replace (j + Z.succ (Z.of_nat (List.length d)))
      with ((j + 1) + Z.of_nat (List.length d)) by lia.
    apply IH; [lia | lia |]. apply forward_step_inv; trivial; lia.
Qed.

Lemma forward_pass_total dict2 dict1 a (j : Z) :
  total_comparisons a = PInt j ->
  total_comparisons (fold_left (forward_step dict2) dict1 a)
  = PInt (j + Z.of_nat (List.length dict1)).
Proof.
  revert a j. induction dict1 as [|item d IH]; intros a j H.
  - cbn. now rewrite Z.add_0_r.
  - cbn [fold_left List.length]. rewrite Nat2Z.inj_succ.
    replace (j + Z.succ (Z.of_nat (List.length d)))
      with ((j + 1) + Z.of_nat (List.length d)) by lia.
    apply IH. destruct item as [o c]. unfold forward_step.
    destruct (lookup (lower o) dict2) as [jc|];
      [destruct (String.eqb jc c)|]; cbn [total_comparisons];
      rewrite H; reflexivity.
Qed.

(** *** The reverse pass *)

(** The accumulators as floats: the numerator is at most the denominator,
    which is at least [1] and at most [2 ^ 54]. *)
Definition ratio_inv (a : acc) : Prop :=
  let m := to_float (matches a) in
  let t := to_float (total_comparisons a) in
  nonneg m /\ nonneg t /\ val m <= val t
  /\ one_val <= val t <= 2 ^ 54 * one_val
  /\ match total_comparisons a with PInt j => 0 < j | PFloat _ => True end.

Lemma forward_inv_ratio (a : acc) (j : Z) :
  0 < j < 2 ^ 53 -> forward_inv a j -> ratio_inv a.
Proof.
  intros Hj [Ht Hm]. unfold ratio_inv. rewrite Ht. cbn [to_float].
  destruct (Z2F_exact j ltac:(lia)) as [Nj Vj]. rewrite Vj.
  pose proof one_val_pos.
  assert (one_val <= j * one_val <= 2 ^ 54 * one_val) by nia.
  destruct (matches a) as [k|f]; cbn [to_float].
  - destruct (Z2F_exact k ltac:(lia)) as [Nk Vk]. rewrite Vk.
    repeat split; trivial; try lia. nia.
  - destruct Hm as [Nf Vf]. repeat split; trivial; lia.
Qed.

Lemma nonneg_bonus : nonneg 0.3.
Proof. reflexivity. Qed.

Lemma bonus_saturates : val (0x1p54 + 0.3) = 2 ^ 54 * one_val.
Proof. vm_compute. reflexivity. Qed.

Lemma bonus_ratio_inv (a : acc) : ratio_inv a -> ratio_inv (bonus a).
Proof.
  unfold ratio_inv, bonus. cbn [matches total_comparisons].
  intros [Nm [Nt [Hmt [[Hl Hu] _]]]].
  set (m := to_float (matches a)) in *.
  set (t := to_float (total_comparisons a)) in *.
  assert (Em : to_float (add (matches a) (PFloat 0.3)) = (m + 0.3)%float)
    by (unfold m; destruct (matches a); reflexivity).
  assert (Et : to_float (add (total_comparisons a) (PFloat 0.3))
               = (t + 0.3)%float)
    by (unfold t; destruct (total_comparisons a); reflexivity).
  rewrite Em, Et.
  destruct (add_val m 0.3 Nm nonneg_bonus) as [Nm' Vm'].
  destruct (add_val t 0.3 Nt nonneg_bonus) as [Nt' Vt'].
  pose proof (val_nonneg m). pose proof (val_nonneg 0.3) as V3.
  pose proof one_val_pos.
  repeat split; trivial.
  - rewrite Vm', Vt'. apply round64_mono. lia.
  - rewrite Vt', <- val_one, <- (round64_val 1 nonneg_one).
    apply round64_mono. rewrite val_one. lia.
  - rewrite Vt', <- bonus_saturates.
    rewrite (proj2 (add_val 0x1p54 0.3 eq_refl nonneg_bonus)).
    apply round64_mono.
    replace (val 0x1p54) with (2 ^ 54 * one_val) by (vm_compute; reflexivity).
    lia.
  - destruct (total_comparisons a); exact I.
Qed.

Lemma reverse_pass_ratio_inv dict1 dict2 (a : acc) :
  ratio_inv a -> ratio_inv (fold_left (reverse_step dict1) dict2 a).
Proof.
  revert a. induction dict2 as [|item d IH]; intros a H; [exact H|].
  cbn [fold_left]. apply IH. unfold reverse_step.
  destruct (qualifies dict1 item); [now apply bonus_ratio_inv | exact H].
Qed.

Lemma ratio_inv_gt0 (a : acc) : ratio_inv a -> gt0 (total_comparisons a) = true.
Proof.
  intros [_ [Nt [_ [[Hl _] Hp]]]]. pose proof one_val_pos.
  destruct (total_comparisons a) as [j|t]; cbn [gt0 to_float] in *.
  - now apply Z.ltb_lt.
  - rewrite ltb_val by (trivial; apply nonneg_zero). rewrite val_zero.
    apply Z.ltb_lt. lia.
Qed.

Lemma ratio_inv_score (a : acc) :
  ratio_inv a ->
  (0 <=? fst (finish a))%float = true /\ (fst (finish a) <=? 1)%float = true.
Proof.
  intro H. unfold finish. cbn [fst]. rewrite (ratio_inv_gt0 a H).
  destruct H as [Nm [Nt [Hmt [[Hl Hu] _]]]]. unfold truediv.
  pose proof one_val_pos.
  destruct (div_le_one _ _ Nm Nt Hmt) as [N V].
  { rewrite top_eq. assert (2 ^ 54 < 2 ^ 1024) by (apply Z.pow_lt_mono_r; lia).
    nia. }
  split; [exact N|].
  rewrite leb_val by (trivial; apply nonneg_one). rewrite val_one.
  now apply Z.leb_le.
Qed.


(** C5: the score is in [[0, 1]], reverse-pass bonuses included, for a user
    mapping of fewer than [2 ^ 53] entries, the range in which Python's int
    counters convert to floats exactly. *)
Theorem score_in_unit_interval dict1 dict2 dict2_rgb :
  Z.of_nat (List.length dict1) < 2 ^ 53 ->
  (0 <=? fst (calculate_enhanced_similarity dict1 dict2 dict2_rgb))%float = true
  /\ (fst (calculate_enhanced_similarity dict1 dict2 dict2_rgb) <=? 1)%float
     = true.
Proof.
  intro Hlen. unfold calculate_enhanced_similarity.
  destruct (is_empty dict1 || is_empty dict2)%bool eqn:E.
  - split; reflexivity.
  - apply ratio_inv_score. unfold accumulate.
    apply reverse_pass_ratio_inv.
    apply (forward_inv_ratio _ (0 + Z.of_nat (List.length dict1))).
    + destruct dict1; [discriminate E | cbn [List.length] in *; lia].
    + apply forward_pass_inv; [lia | lia |].
      split; [reflexivity | cbn; lia].
Qed.

Lemma score_in_unit_interval_witness :
  (0 <=? fst (calculate_enhanced_similarity
                [("skyscraper", "red"); ("lantern", "red")]
                [("skyscraper", "blue"); ("car", "red")] []))%float = true
  /\ (fst (calculate_enhanced_similarity
             [("skyscraper", "red"); ("lantern", "red")]
             [("skyscraper", "blue"); ("car", "red")] []) <=? 1)%float = true.
Proof.
  apply (score_in_unit_interval
           [("skyscraper", "red"); ("lantern", "red")]
           [("skyscraper", "blue"); ("car", "red")] []).
  reflexivity.
Defined.

(** *** The denominator *)

(** The denominator is a positive int, or a float above zero. *)
Definition positive_total (a : acc) : Prop :=
  match total_comparisons a with
  | PInt j => 0 < j
  | PFloat t => nonneg t /\ 0 < val t
  end.

Lemma val_bonus_pos : 0 < val 0.3.
Proof.
  assert (H : (0 <? 0.3)%float = true) by reflexivity.
  rewrite ltb_val, val_zero in H by reflexivity. now apply Z.ltb_lt.
Qed.

Lemma bonus_positive_total (a : acc) :
  positive_total a -> positive_total (bonus a).
Proof.
  unfold positive_total, bonus. cbn [total_comparisons].
  pose proof val_bonus_pos as V3.
  assert (G : forall t, nonneg t ->
            nonneg (t + 0.3) /\ 0 < val (t + 0.3)).
  { intros t Nt. destruct (add_val t 0.3 Nt nonneg_bonus) as [N V].
    split; [exact N|]. rewrite V.
    rewrite <- (round64_val 0.3 nonneg_bonus) in V3.
    pose proof (round64_mono (val 0.3) (val t + val 0.3)).
    pose proof (val_nonneg t). pose proof (val_nonneg 0.3). lia. }
  destruct (total_comparisons a) as [j|t]; cbn [add to_float]; intro H.
  - apply G. apply Z2F_val.
  - apply G. apply H.
Qed.

Lemma reverse_pass_positive_total dict1 dict2 (a : acc) :
  positive_total a ->
  positive_total (fold_left (reverse_step dict1) dict2 a).
Proof.
  revert a. induction dict2 as [|item d IH]; intros a H; [exact H|].
  cbn [fold_left]. apply IH. unfold reverse_step.
  destruct (qualifies dict1 item); [now apply bonus_positive_total | exact H].
Qed.

Lemma positive_total_gt0 (a : acc) :
  positive_total a -> gt0 (total_comparisons a) = true.
Proof.
  unfold positive_total. destruct (total_comparisons a) as [j|t]; cbn [gt0].
  - apply Z.ltb_lt.
  - intros [N V]. rewrite ltb_val by (trivial; apply nonneg_zero).
    rewrite val_zero. now apply Z.ltb_lt.
Qed.

(** C10: for non-empty inputs the forward pass leaves the denominator at
    the number of user entries, the final denominator is positive, and the
    score is the quotient, never the fallback. *)
Theorem denominator_positive dict1 dict2 dict2_rgb :
  dict1 <> [] -> dict2 <> [] ->
  total_comparisons (fold_left (forward_step dict2) dict1 acc0)
  = PInt (Z.of_nat (List.length dict1))
  /\ 0 < Z.of_nat (List.length dict1)
  /\ gt0 (total_comparisons (accumulate dict1 dict2)) = true
  /\ calculate_enhanced_similarity dict1 dict2 dict2_rgb
     = (truediv (matches (accumulate dict1 dict2))
                (total_comparisons (accumulate dict1 dict2)),
        color_similarities (accumulate dict1 dict2)).
Proof.
  intros H1 H2.
  pose proof (forward_pass_total dict2 dict1 acc0 0 eq_refl) as T.
  rewrite Z.add_0_l in T.
  assert (L : 0 < Z.of_nat (List.length dict1)).
  { destruct dict1; [contradiction | cbn [List.length]; lia]. }
  assert (G : gt0 (total_comparisons (accumulate dict1 dict2)) = true).
  { apply positive_total_gt0. unfold accumulate.
    apply reverse_pass_positive_total. unfold positive_total.
    rewrite T. exact L. }
  repeat split; trivial.
  unfold calculate_enhanced_similarity.
  destruct dict1; [contradiction|]. destruct dict2; [contradiction|].
  cbn [is_empty orb]. unfold finish. now rewrite G.
Qed.

Lemma denominator_positive_witness :
  total_comparisons
    (fold_left (forward_step [("c", "blue"); ("b", "red")])
       [("a", "red"); ("d", "Blue")] acc0)
  = PInt (Z.of_nat (List.length [("a", "red"); ("d", "Blue")]))
  /\ 0 < Z.of_nat (List.length [("a", "red"); ("d", "Blue")])
  /\ gt0 (total_comparisons
            (accumulate [("a", "red"); ("d", "Blue")]
               [("c", "blue"); ("b", "red")])) = true
  /\ calculate_enhanced_similarity [("a", "red"); ("d", "Blue")]
       [("c", "blue"); ("b", "red")] []
     = (truediv
          (matches (accumulate [("a", "red"); ("d", "Blue")]
                      [("c", "blue"); ("b", "red")]))
          (total_comparisons
             (accumulate [("a", "red"); ("d", "Blue")]
                [("c", "blue"); ("b", "red")])),
        color_similarities
          (accumulate [("a", "red"); ("d", "Blue")]
             [("c", "blue"); ("b", "red")])).
Proof.
  apply (denominator_positive [("a", "red"); ("d", "Blue")]
           [("c", "blue"); ("b", "red")] []); discriminate.
Defined.

End ScoreFacts.

(** * Properties of the aggregator *)

Module AggregatorFacts.
Import Py Exc Aggregator Float64 DictFacts.

Local Open Scope string_scope.
Local Open Scope list_scope.

(** *** Typed detection entries *)

(** A well-formed record of a reference source. *)
Record DetectionEntry : Type := mkDetection {
  label : string;
  color : string;
  rgb_triple : list Z;
  confidence : float
}.

Definition to_json (e : DetectionEntry) : json_entry :=
  mkEntry (Some (label e)) (Some (color e)) (Some (rgb_triple e))
          (Some (confidence e)).

Definition doc_of (es : list DetectionEntry) : json_doc :=
  mkDoc (Some (map to_json es)).

(** The entry carries the case-normalized label [l]. *)
Definition shares (l : string) (e : DetectionEntry) : bool :=
  String.eqb (lower (label e)) l.

(** The total that line 137 accumulates for label [l] and colour [c]:
    binary64 additions, from the int [0], in the order of the entries.
    Each addition rounds, so the total depends on that order; it is not
    the sum of the scores as real numbers ([exact_sum] below). *)
Definition summed (es : list DetectionEntry) (l c : string) : float :=
  fold_left
    (fun s e =>
       if (shares l e && String.eqb (color e) c)%bool
       then (s + confidence e)%float else s)
    es (Z2F 0).

(** The colours of the entries with label [l], each once, in the order in
    which they are first met. *)
Definition colors_of (es : list DetectionEntry) (l : string) : list string :=
  fold_left
    (fun seen e =>
       if (shares l e && negb (str_in (color e) seen))%bool
       then seen ++ [color e] else seen)
    es [].

(** *** [defaultdict] updates *)

Lemma lookup_update_same {V : Type} (k : string) (d : V) (f : V -> V)
    (m : dict V) :
  lookup k (update k d f m) = Some (f (get k m d)).
Proof.
  unfold get. induction m as [|[k' v] m IH]; simpl.
  - now rewrite String.eqb_refl.
  - destruct (String.eqb k k') eqn:E; simpl; rewrite E; [reflexivity|].
    exact IH.
Qed.

Lemma lookup_update_other {V : Type} (k k0 : string) (d : V) (f : V -> V)
    (m : dict V) :
  k0 <> k -> lookup k0 (update k d f m) = lookup k0 m.
Proof.
  intro H. apply String.eqb_neq in H.
  induction m as [|[k' v] m IH]; simpl.
  - now rewrite H.
  - destruct (String.eqb_spec k k') as [->|N]; simpl.
    + now rewrite H.
    + now rewrite IH.
Qed.

Lemma keys_update {V : Type} (k : string) (d : V) (f : V -> V) (m : dict V) :
  keys (update k d f m) = if str_in k (keys m) then keys m else keys m ++ [k].
Proof.
  unfold keys, str_in. induction m as [|[k' v] m IH]; simpl; [reflexivity|].
  destruct (String.eqb k k'); simpl; [reflexivity|].
  rewrite IH. now destruct (existsb (String.eqb k) (map fst m)).
Qed.

Lemma NoDup_keys_update {V : Type} (k : string) (d : V) (f : V -> V)
    (m : dict V) :
  NoDup (keys m) -> NoDup (keys (update k d f m)).
Proof.
  intro H. rewrite keys_update.
  destruct (str_in k (keys m)) eqn:E; [exact H|].
  apply NoDup_snoc; [exact H | now apply str_in_not_In].
Qed.

Lemma update_map_in {V : Type} (c : string) (d : V) (f : V -> V)
    (h : string -> V) (cs : list string) :
  NoDup cs -> In c cs ->
  update c d f (map (fun x => (x, h x)) cs)
  = map (fun x => (x, if String.eqb x c then f (h x) else h x)) cs.
Proof.
  induction cs as [|x cs IH]; intros N I; [contradiction|].
  inversion N as [|? ? Nx Ncs]; subst. simpl.
  destruct (String.eqb_spec c x) as [->|Ne].
  - rewrite String.eqb_refl. f_equal. apply map_ext_in.
    intros y Hy. destruct (String.eqb_spec y x) as [->|_]; [contradiction|].
    reflexivity.
  - destruct (String.eqb_spec x c) as [->|_]; [congruence|].
    f_equal. apply IH; [exact Ncs|]. destruct I; [congruence | assumption].
Qed.

Lemma update_map_notin {V : Type} (c : string) (d : V) (f : V -> V)
    (h : string -> V) (cs : list string) :
  ~ In c cs ->
  update c d f (map (fun x => (x, h x)) cs)
  = map (fun x => (x, h x)) cs ++ [(c, f d)].
Proof.
  induction cs as [|x cs IH]; intro N; simpl; [reflexivity|].
  destruct (String.eqb_spec c x) as [->|Ne].
  - elim N. now left.
  - f_equal. apply IH. intro I. apply N. now right.
Qed.

(** *** The first loop on typed entries *)

Definition record_typed (t : tables) (e : DetectionEntry) : tables :=
  mkTables
    (update (lower (label e)) [] (count (color e) (confidence e))
       (object_color_counts t))
    (update (lower (label e)) []
       (fun l => l ++ [mkRgb (rgb_triple e) (color e) (confidence e)])
       (object_rgb_data t)).

Definition tables_of (es : list DetectionEntry) : tables :=
  fold_left record_typed es (mkTables [] []).

Lemma first_loop (es : list DetectionEntry) (t : tables) :
  foldM record_entry (map to_json es) t = Ok (fold_left record_typed es t).
Proof.
  revert t. induction es as [|e es IH]; intro t; [reflexivity|].
  cbn [map foldM fold_left]. unfold record_entry at 1. cbn. apply IH.
Qed.

Lemma tables_of_snoc es e :
  tables_of (es ++ [e]) = record_typed (tables_of es) e.
Proof. unfold tables_of. now rewrite fold_left_app. Qed.

Lemma summed_snoc es e l c :
  summed (es ++ [e]) l c
  = if (shares l e && String.eqb (color e) c)%bool
    then (summed es l c + confidence e)%float else summed es l c.
Proof. unfold summed. now rewrite fold_left_app. Qed.

Lemma colors_of_snoc es e l :
  colors_of (es ++ [e]) l
  = if (shares l e && negb (str_in (color e) (colors_of es l)))%bool
    then colors_of es l ++ [color e] else colors_of es l.
Proof. unfold colors_of. now rewrite fold_left_app. Qed.

Lemma colors_of_NoDup es l : NoDup (colors_of es l).
Proof.
  induction es as [|e es IH] using rev_ind; [constructor|].
  rewrite colors_of_snoc.
  destruct (shares l e); cbn [andb]; [|exact IH].
  destruct (str_in (color e) (colors_of es l)) eqn:E; cbn [negb]; [exact IH|].
  apply NoDup_snoc; [exact IH | now apply str_in_not_In].
Qed.

Lemma colors_of_incl es e l c :
  In c (colors_of es l) -> In c (colors_of (es ++ [e]) l).
Proof.
  intro H. rewrite colors_of_snoc. destruct (_ && _)%bool; [|exact H].
  apply in_or_app. now left.
Qed.

Lemma summed_unseen es l c :
  ~ In c (colors_of es l) -> summed es l c = Z2F 0.
Proof.
  induction es as [|e es IH] using rev_ind; intro H; [reflexivity|].
  rewrite summed_snoc.
  assert (N : ~ In c (colors_of es l)).
  { intro I. apply H. now apply colors_of_incl. }
  destruct (shares l e) eqn:S; cbn [andb]; [|now apply IH].
  destruct (String.eqb_spec (color e) c) as [E|_]; [|now apply IH].
  exfalso. apply H. rewrite colors_of_snoc, S. cbn [andb]. subst c.
  destruct (str_in (color e) (colors_of es l)) eqn:I; cbn [negb].
  - now apply str_in_In.
  - apply in_or_app. right. now left.
Qed.

(** The counters of label [l] are its colours in encounter order, each
    with its summed score. *)
Lemma counts_of_label es l :
  lookup l (object_color_counts (tables_of es))
  = match colors_of es l with
    | [] => None
    | _ :: _ => Some (map (fun c => (c, summed es l c)) (colors_of es l))
    end.
Proof.
  induction es as [|e es IH] using rev_ind; [reflexivity|].
  rewrite tables_of_snoc. cbn [record_typed object_color_counts].
  unfold shares in *.
  destruct (String.eqb_spec (lower (label e)) l) as [E|N].
  - rewrite E, lookup_update_same.
    assert (G : get l (object_color_counts (tables_of es)) []
                = map (fun c => (c, summed es l c)) (colors_of es l)).
    { unfold get. rewrite IH. now destruct (colors_of es l). }
    rewrite G. clear G IH. unfold count.
    pose proof (colors_of_NoDup es l) as ND.
    rewrite colors_of_snoc. unfold shares. rewrite E, String.eqb_refl.
    cbn [andb].
    destruct (str_in (color e) (colors_of es l)) eqn:I; cbn [negb].
    + apply str_in_In in I.
      rewrite update_map_in by assumption.
      destruct (colors_of es l) as [|c0 cs] eqn:C; [contradiction|].
      rewrite <- C. f_equal. apply map_ext. intro c.
      rewrite summed_snoc. unfold shares. rewrite E, String.eqb_refl.
      cbn [andb]. now rewrite (String.eqb_sym c (color e)).
    + apply str_in_not_In in I.
      rewrite update_map_notin by assumption.
      destruct (colors_of es l ++ [color e]) as [|c0 cs] eqn:C.
      { destruct (colors_of es l); discriminate. }
      rewrite <- C. f_equal. rewrite map_app. cbn [map]. f_equal.
      * apply map_ext_in. intros c Hc. rewrite summed_snoc.
        destruct (String.eqb_spec (color e) c) as [Ec|_];
          [subst c; contradiction|].
        now rewrite andb_false_r.
      * rewrite summed_snoc. unfold shares.
        rewrite E, !String.eqb_refl. cbn [andb].
        now rewrite (summed_unseen es l (color e) I).
  - rewrite lookup_update_other by congruence. rewrite IH.
    rewrite colors_of_snoc. unfold shares.
    apply String.eqb_neq in N. rewrite N. cbn [andb].
    destruct (colors_of es l); [reflexivity|].
    f_equal. apply map_ext. intro c. rewrite summed_snoc. unfold shares.
    now rewrite N.
Qed.

Lemma counts_keys_NoDup es : NoDup (keys (object_color_counts (tables_of es))).
Proof.
  induction es as [|e es IH] using rev_ind; [constructor|].
  rewrite tables_of_snoc. cbn [record_typed object_color_counts].
  now apply NoDup_keys_update.
Qed.

Lemma rgb_data_of_label es l :
  lookup l (object_color_counts (tables_of es)) <> None ->
  exists r rs, lookup l (object_rgb_data (tables_of es)) = Some (r :: rs).
Proof.
  induction es as [|e es IH] using rev_ind; [intro H; now elim H|].
  rewrite tables_of_snoc. cbn [record_typed object_color_counts object_rgb_data].
  destruct (String.eqb_spec (lower (label e)) l) as [E|N].
  - intros _. rewrite E, lookup_update_same.
    destruct (get l (object_rgb_data (tables_of es)) []) as [|r rs];
      cbn [app]; eauto.
  - rewrite !lookup_update_other by congruence. exact IH.
Qed.


(** *** The maximum of the second loop *)

(** On non-negative keys [max] returns the first item whose key is the
    largest: the items before it have smaller keys, the items after it
    have keys that are not larger. *)
Lemma max_by_first_max {A : Type} (key : A -> float) (x : A) (xs : list A) :
  (forall y, In y (x :: xs) -> nonneg (key y)) ->
  exists pre w post,
    x :: xs = pre ++ w :: post /\ max_by key x xs = w
    /\ (forall y, In y pre -> (key y <? key w)%float = true)
    /\ (forall y, In y post -> (key y <=? key w)%float = true).
Proof.
  induction xs as [|y xs IH] using rev_ind; intro N.
  - exists [], x, []. repeat split; intros y [].
  - assert (N' : forall z, In z (x :: xs) -> nonneg (key z)).
    { intros z Hz. apply N. rewrite app_comm_cons. apply in_or_app. now left. }
    assert (Ny : nonneg (key y)).
    { apply N. rewrite app_comm_cons. apply in_or_app. right. now left. }
    destruct (IH N') as [pre [w [post [E [M [Hpre Hpost]]]]]].
    assert (Nw : nonneg (key w)).
    { apply N'. rewrite E. apply in_or_app. right. now left. }
    unfold max_by in *. rewrite fold_left_app. cbn [fold_left]. rewrite M.
    destruct (key w <? key y)%float eqn:L.
    + exists (x :: xs), y, []. rewrite app_comm_cons.
      repeat split; [|intros z []].
      intros z Hz. assert (Nz : nonneg (key z)) by now apply N'.
      rewrite ltb_val in * by assumption. apply Z.ltb_lt in L.
      apply Z.ltb_lt. rewrite E in Hz. apply in_app_or in Hz.
      destruct Hz as [Hz|[<-|Hz]]; [| lia |].
      * specialize (Hpre z Hz). rewrite ltb_val in Hpre by assumption.
        apply Z.ltb_lt in Hpre. lia.
      * specialize (Hpost z Hz). rewrite leb_val in Hpost by assumption.
        apply Z.leb_le in Hpost. lia.
    + exists pre, w, (post ++ [y]).
      repeat split; trivial.
      * rewrite app_comm_cons, E, <- app_assoc. reflexivity.
      * intros z Hz. apply in_app_or in Hz. destruct Hz as [Hz|[<-|[]]].
        -- now apply Hpost.
        -- rewrite ltb_val in L by assumption. apply Z.ltb_ge in L.
           rewrite leb_val by assumption. now apply Z.leb_le.
Qed.

Lemma second_loop (rgb_data : dict (list rgb_record))
    (items : dict (dict float)) (out : dict string * dict (list Z)) :
  NoDup (keys items) ->
  (forall l cc, In (l, cc) items ->
                exists r rs, lookup l rgb_data = Some (r :: rs)) ->
  exists out',
    foldM (pick rgb_data) items out = Ok out'
    /\ forall l,
         lookup l (fst out')
         = match lookup l items with
           | Some (c :: cs) => Some (fst (max_by snd c cs))
           | _ => lookup l (fst out)
           end.
Proof.
  revert out. induction items as [|[l0 cc] items IH]; intros out N R.
  - exists out. split; reflexivity.
  - inversion N as [|? ? N0 N1]; subst.
    assert (R' : forall l cc', In (l, cc') items ->
                 exists r rs, lookup l rgb_data = Some (r :: rs)).
    { intros l cc' H. apply (R l cc'). now right. }
    assert (L0 : lookup l0 items = None) by now apply lookup_None_keys.
    cbn [foldM]. unfold pick at 1.
    destruct cc as [|c cs].
    + cbn [bind]. destruct (IH out N1 R') as [out' [E H]].
      exists out'. split; [exact E|]. intro l. rewrite H. cbn [lookup].
      destruct (String.eqb_spec l l0) as [->|_]; [now rewrite L0 | reflexivity].
    + destruct (R l0 (c :: cs) ltac:(now left)) as [r [rs Er]].
      unfold get. rewrite Er. cbn [bind].
      destruct (IH (set l0 (fst (max_by snd c cs)) (fst out),
                    set l0 (rgb (max_by score r rs)) (snd out)) N1 R')
        as [out' [E H]].
      exists out'. split; [exact E|]. intro l. rewrite H. cbn [lookup fst].
      destruct (String.eqb_spec l l0) as [->|Ne].
      * rewrite L0. apply lookup_set_same.
      * destruct (lookup l items) as [[|? ?]|];
          trivial; now apply lookup_set_other.
Qed.

(** *** The winning colour *)

Lemma summed_nonneg es l c :
  Forall (fun e => nonneg (confidence e)) es -> nonneg (summed es l c).
Proof.
  induction es as [|e es IH] using rev_ind; intro H.
  - apply Z2F_val.
  - apply Forall_app in H. destruct H as [H He]. inversion He; subst.
    rewrite summed_snoc. destruct (_ && _)%bool; [|now apply IH].
    apply add_val; [now apply IH | assumption].
Qed.

Lemma colors_of_shares es e l :
  In e es -> shares l e = true -> In (color e) (colors_of es l).
Proof.
  induction es as [|e' es IH] using rev_ind; intros I S; [contradiction|].
  apply in_app_or in I. destruct I as [I|[<-|[]]].
  - apply colors_of_incl. now apply IH.
  - rewrite colors_of_snoc, S. cbn [andb].
    destruct (str_in (color e') (colors_of es l)) eqn:E; cbn [negb].
    + now apply str_in_In.
    + apply in_or_app. right. now left.
Qed.


(** C6, amended: for every case-normalized label of a sequence of entries
    with non-negative scores, the aggregator's colour is the one with the
    largest total as the loop accumulates it, in binary64 and in the order
    of the entries; of several colours with that total it is the one met
    first.  The colours met before the winner have strictly smaller
    accumulated totals and those met after it have totals that are not
    larger. *)
Theorem weighted_majority_wins (es : list DetectionEntry) (l : string) :
  Forall (fun e => nonneg (confidence e)) es ->
  In l (map (fun e => lower (label e)) es) ->
  exists colors rgbs pre w post,
    process_json_file (Loaded (doc_of es)) = Ok (colors, rgbs)
    /\ lookup l colors = Some w
    /\ colors_of es l = pre ++ w :: post
    /\ (forall c, In c pre -> (summed es l c <? summed es l w)%float = true)
    /\ (forall c, In c post -> (summed es l c <=? summed es l w)%float = true).
Proof.
  intros Hn Hl.
  unfold process_json_file, aggregate, doc_of. cbn [j_entries getitem bind].
  rewrite first_loop. fold (tables_of es). cbn [bind].
  destruct (second_loop (object_rgb_data (tables_of es))
              (object_color_counts (tables_of es)) ([], [])
              (counts_keys_NoDup es)) as [[colors rgbs] [E H]].
  { intros l' cc I. apply rgb_data_of_label.
    rewrite (lookup_In _ _ _ (counts_keys_NoDup es) I). discriminate. }
  exists colors, rgbs. specialize (H l). cbn [fst] in H.
  rewrite counts_of_label in H.
  apply in_map_iff in Hl. destruct Hl as [e [El Ie]].
  assert (S : shares l e = true) by (unfold shares; now apply String.eqb_eq).
  pose proof (colors_of_shares es e l Ie S) as Ic.
  set (g := fun c => (c, summed es l c)) in *.
  assert (G : forall cs y, In y (map g cs) -> snd y = summed es l (fst y)).
  { intros cs y Hy. apply in_map_iff in Hy. destruct Hy as [c [<- _]].
    reflexivity. }
  destruct (colors_of es l) as [|c0 cs] eqn:C; [contradiction|].
  change (map g (c0 :: cs)) with (g c0 :: map g cs) in H.
  cbv beta iota in H.
  destruct (max_by_first_max snd (g c0) (map g cs))
    as [pre [w [post [Ep [M [Hpre Hpost]]]]]].
  { intros y Hy. rewrite (G (c0 :: cs) y Hy). now apply summed_nonneg. }
  rewrite M in H.
  assert (Gw : snd w = summed es l (fst w)).
  { apply (G (c0 :: cs)).
    change (map g (c0 :: cs)) with (g c0 :: map g cs). rewrite Ep.
    apply in_or_app.
    right. now left. }
  exists (map fst pre), (fst w), (map fst post).
  split; [exact E|]. split; [exact H|]. split; [|split].
  - assert (Q : map fst (map g (c0 :: cs)) = c0 :: cs).
    { rewrite map_map. unfold g. cbn [fst]. apply map_id. }
    rewrite <- Q. change (map g (c0 :: cs)) with (g c0 :: map g cs).
    rewrite Ep, map_app. reflexivity.
  - intros c Hc. apply in_map_iff in Hc. destruct Hc as [y [<- Hy]].
    rewrite <- Gw, <- (G (c0 :: cs) y).
    + now apply Hpre.
    + change (map g (c0 :: cs)) with (g c0 :: map g cs). rewrite Ep.
      apply in_or_app. now left.
  - intros c Hc. apply in_map_iff in Hc. destruct Hc as [y [<- Hy]].
    rewrite <- Gw, <- (G (c0 :: cs) y).
    + now apply Hpost.
    + change (map g (c0 :: cs)) with (g c0 :: map g cs). rewrite Ep.
      apply in_or_app. right. now right.
Qed.

(** Three detections of a car: red and blue both sum to [0.5]. *)
Definition tie_entries : list DetectionEntry :=
  [ mkDetection "Car" "red" [250; 1; 2] 0.5;
    mkDetection "car" "blue" [0; 1; 200] 0.4;
    mkDetection "car" "blue" [0; 1; 220] 0.1 ].

Lemma weighted_majority_wins_witness :
  exists colors rgbs pre w post,
    process_json_file (Loaded (doc_of tie_entries)) = Ok (colors, rgbs)
    /\ lookup "car" colors = Some w
    /\ colors_of tie_entries "car" = pre ++ w :: post
    /\ (forall c, In c pre ->
          (summed tie_entries "car" c <? summed tie_entries "car" w)%float
          = true)
    /\ (forall c, In c post ->
          (summed tie_entries "car" c <=? summed tie_entries "car" w)%float
          = true).
Proof.
  apply (weighted_majority_wins tie_entries "car").
  - repeat constructor.
  - simpl. now left.
Defined.

(** In the tie red is met first and wins. *)
Example tie_goes_to_first_color :
  process_json_file (Loaded (doc_of tie_entries))
  = Ok ([("car", "red")], [("car", [250; 1; 2])])
  /\ colors_of tie_entries "car" = ["red"; "blue"]
  /\ summed tie_entries "car" "red" = 0.5%float
  /\ summed tie_entries "car" "blue" = 0.5%float.
Proof. repeat split; vm_compute; reflexivity. Qed.

(** *** Sums of scores as real numbers *)

(** The scores of the entries with label [l] and colour [c], in order. *)
Definition scores_of (es : list DetectionEntry) (l c : string) : list float :=
  map confidence
    (filter (fun e => (shares l e && String.eqb (color e) c)%bool) es).

(** Their sum as a real number, in units of [2 ^ -1074]: it does not
    depend on the order of the entries. *)
Definition exact_sum (es : list DetectionEntry) (l c : string) : Z :=
  fold_left Z.add (map val (scores_of es l c)) 0.

(** Six detections of a car: blue and red have the same three scores. *)
Definition rounding_entries : list DetectionEntry :=
  [ mkDetection "car" "blue" [0; 0; 250] 0.3;
    mkDetection "car" "red" [250; 0; 0] 0.1;
    mkDetection "car" "red" [251; 0; 0] 0.2;
    mkDetection "car" "blue" [0; 0; 251] 0.2;
    mkDetection "car" "red" [252; 0; 0] 0.3;
    mkDetection "car" "blue" [0; 0; 252] 0.1 ].

(** C6, as stated, fails: blue and red have the same scores, hence the
    same sum, and blue is met first; the aggregator returns red, because
    the totals it accumulates in binary64 differ: [0.3 + 0.2 + 0.1] is
    below [0.1 + 0.2 + 0.3]. *)
Lemma equal_sums_later_colour_wins :
  process_json_file (Loaded (doc_of rounding_entries))
  = Ok ([("car", "red")], [("car", [0; 0; 250])])
  /\ colors_of rounding_entries "car" = ["blue"; "red"]
  /\ Permutation (scores_of rounding_entries "car" "blue")
                 (scores_of rounding_entries "car" "red")
  /\ exact_sum rounding_entries "car" "blue"
     = exact_sum rounding_entries "car" "red"
  /\ (summed rounding_entries "car" "blue"
      <? summed rounding_entries "car" "red")%float = true.
Proof.
  split; [vm_compute; reflexivity|].
  split; [vm_compute; reflexivity|].
  split; [exact (Permutation_rev [0.3; 0.2; 0.1]%float)|].
  split; vm_compute; reflexivity.
Qed.

End AggregatorFacts.

(** * The colour helpers on 8-bit channels *)

Module PaletteFacts.
Import Py ColorRate Float64 DictFacts ColorRateFacts ScoreFacts.

Local Open Scope string_scope.
Local Open Scope list_scope.

(** *** Square roots of the squared distances *)

(** [math.sqrt(n)] on an int. *)
Definition sqrtZ (n : Z) : float := PrimFloat.sqrt (Z2F n).

(** The largest squared distance of two 8-bit triples. *)
Definition max_sq : Z := 255 ^ 2 + 255 ^ 2 + 255 ^ 2.

(** Lines 52 to 60 as a function of the squared distance. *)
Definition similarity_of (n : Z) : float :=
  Py.max 0.0%float (1.0 - sqrtZ n / sqrtZ max_sq)%float.

Lemma rgb_similarity_of (rgb1 rgb2 : list Z) :
  rgb_similarity rgb1 rgb2 = similarity_of (sq_distance rgb1 rgb2).
Proof. reflexivity. Qed.

(** [p] holds of the [fuel] integers from [z] on. *)
Fixpoint upto (p : Z -> bool) (fuel : nat) (z : Z) : bool :=
  match fuel with
  | O => true
  | S k => if p z then upto p k (z + 1) else false
  end.

Lemma upto_spec (p : Z -> bool) (fuel : nat) (z : Z) :
  upto p fuel z = true ->
  forall i, z <= i < z + Z.of_nat fuel -> p i = true.
Proof.
  revert z. induction fuel as [|k IH]; intros z H i Hi; [lia|].
  cbn [upto] in H. destruct (p z) eqn:E; [|discriminate].
  destruct (Z.eq_dec i z) as [->|N]; [exact E|].
  apply (IH (z + 1) H). lia.
Qed.

Definition sqrt_step (n : Z) : bool :=
  ((0 <=? sqrtZ n)%float && (0 <=? sqrtZ (n + 1))%float
   && (sqrtZ n <? sqrtZ (n + 1))%float
   && (sqrtZ (n + 1) <? infinity)%float)%bool.

Lemma sqrt_steps : upto sqrt_step (Z.to_nat (max_sq + 1)) 0 = true.
Proof. vm_compute. reflexivity. Qed.

Lemma sqrt_step_at (n : Z) : 0 <= n <= max_sq -> sqrt_step n = true.
Proof.
  intro H. apply (upto_spec _ _ _ sqrt_steps).
  rewrite Z2Nat.id by (unfold max_sq; lia). lia.
Qed.

Lemma sqrt_step_parts (n : Z) :
  0 <= n <= max_sq ->
  nonneg (sqrtZ n) /\ nonneg (sqrtZ (n + 1))
  /\ (sqrtZ n <? sqrtZ (n + 1))%float = true
  /\ (sqrtZ (n + 1) <? infinity)%float = true.
Proof.
  intro H. pose proof (sqrt_step_at n H) as S. unfold sqrt_step in S.
  apply andb_true_iff in S. destruct S as [S S4].
  apply andb_true_iff in S. destruct S as [S S3].
  apply andb_true_iff in S. destruct S as [S1 S2].
  repeat split; assumption.
Qed.

Lemma sqrtZ_nonneg (n : Z) : 0 <= n <= max_sq + 1 -> nonneg (sqrtZ n).
Proof.
  intro H. destruct (Z.eq_dec n (max_sq + 1)) as [->|N].
  - apply (sqrt_step_parts max_sq). unfold max_sq. lia.
  - apply (sqrt_step_parts n). lia.
Qed.

Lemma sqrtZ_next (n : Z) :
  0 <= n <= max_sq -> val (sqrtZ n) < val (sqrtZ (n + 1)).
Proof.
  intro H. destruct (sqrt_step_parts n H) as [N1 [N2 [S _]]].
  rewrite ltb_val in S by assumption. now apply Z.ltb_lt.
Qed.

Lemma sqrtZ_lt (a b : Z) :
  0 <= a -> a < b -> b <= max_sq + 1 -> val (sqrtZ a) < val (sqrtZ b).
Proof.
  intros Ha Hab Hb.
  assert (G : forall k : nat,
            a + Z.of_nat k + 1 <= max_sq + 1 ->
            val (sqrtZ a) < val (sqrtZ (a + Z.of_nat k + 1))).
  { induction k as [|k IH]; intro Hk.
    - rewrite Z.add_0_r. apply sqrtZ_next. lia.
    - rewrite Nat2Z.inj_succ in *.
      pose proof (sqrtZ_next (a + Z.of_nat k + 1) ltac:(lia)).
      replace (a + Z.succ (Z.of_nat k) + 1) with (a + Z.of_nat k + 1 + 1)
        by lia.
      specialize (IH ltac:(lia)). lia. }
  specialize (G (Z.to_nat (b - a - 1))).
  rewrite Z2Nat.id in G by lia.
  replace (a + (b - a - 1) + 1) with b in G by lia. apply G. lia.
Qed.

(** On squared distances of 8-bit triples the float square root keeps the
    order of the integers, strictly. *)
Lemma sqrtZ_ltb (a b : Z) :
  0 <= a <= max_sq -> 0 <= b <= max_sq ->
  (sqrtZ a <? sqrtZ b)%float = (a <? b)%Z.
Proof.
  intros Ha Hb. rewrite ltb_val by (apply sqrtZ_nonneg; lia).
  destruct (Z.ltb_spec a b) as [L|L].
  - apply Z.ltb_lt. apply sqrtZ_lt; lia.
  - apply Z.ltb_ge. destruct (Z.eq_dec a b) as [->|N]; [lia|].
    pose proof (sqrtZ_lt b a). lia.
Qed.

Lemma sqrtZ_finite (a : Z) :
  0 <= a <= max_sq -> (sqrtZ a <? infinity)%float = true.
Proof.
  intro H. destruct (sqrt_step_parts a H) as [N1 [N2 [_ S]]].
  rewrite ltb_val in * by (trivial; reflexivity).
  apply Z.ltb_lt in S. apply Z.ltb_lt.
  pose proof (sqrtZ_next a H). lia.
Qed.

(** *** The similarity as a function of the squared distance *)

Definition similarity_step (n : Z) : bool :=
  ((0 <=? similarity_of (n + 1))%float
   && (similarity_of (n + 1) <? similarity_of n)%float
   && (similarity_of n <=? 1)%float)%bool.

Lemma similarity_steps : upto similarity_step (Z.to_nat max_sq) 0 = true.
Proof. vm_compute. reflexivity. Qed.

Lemma similarity_step_at (n : Z) :
  0 <= n < max_sq -> similarity_step n = true.
Proof.
  intro H. apply (upto_spec _ _ _ similarity_steps).
  rewrite Z2Nat.id by (unfold max_sq; lia). lia.
Qed.

Lemma similarity_of_zero : similarity_of 0 = 1.0%float.
Proof. vm_compute. reflexivity. Qed.

Lemma similarity_of_max : similarity_of max_sq = 0.0%float.
Proof. vm_compute. reflexivity. Qed.

Lemma similarity_of_bounds (n : Z) :
  0 <= n <= max_sq ->
  nonneg (similarity_of n) /\ val (similarity_of n) <= one_val.
Proof.
  intro H.
  assert (N : nonneg (similarity_of n)).
  { destruct (Z.eq_dec n 0) as [->|N0]; [reflexivity|].
    pose proof (similarity_step_at (n - 1) ltac:(lia)) as S.
    unfold similarity_step in S. replace (n - 1 + 1) with n in S by lia.
    apply andb_true_iff in S. destruct S as [S _].
    apply andb_true_iff in S. now destruct S as [S _]. }
  split; [exact N|].
  destruct (Z.eq_dec n max_sq) as [->|Nm].
  - rewrite similarity_of_max, val_zero. pose proof one_val_pos. lia.
  - pose proof (similarity_step_at n ltac:(lia)) as S.
    unfold similarity_step in S.
    apply andb_true_iff in S. destruct S as [_ S].
    rewrite leb_val in S by (trivial; apply nonneg_one).
    rewrite val_one in S. now apply Z.leb_le.
Qed.

Lemma similarity_of_next (n : Z) :
  0 <= n < max_sq -> val (similarity_of (n + 1)) < val (similarity_of n).
Proof.
  intro H. pose proof (similarity_step_at n H) as S.
  unfold similarity_step in S.
  apply andb_true_iff in S. destruct S as [S _].
  apply andb_true_iff in S. destruct S as [_ S].
  rewrite ltb_val in S by (apply similarity_of_bounds; lia).
  now apply Z.ltb_lt.
Qed.

Lemma similarity_of_lt (a b : Z) :
  0 <= a -> a < b -> b <= max_sq ->
  val (similarity_of b) < val (similarity_of a).
Proof.
  intros Ha Hab Hb.
  assert (G : forall k : nat,
            a + Z.of_nat k + 1 <= max_sq ->
            val (similarity_of (a + Z.of_nat k + 1)) < val (similarity_of a)).
  { induction k as [|k IH]; intro Hk.
    - rewrite Z.add_0_r. apply similarity_of_next. lia.
    - rewrite Nat2Z.inj_succ in *.
      pose proof (similarity_of_next (a + Z.of_nat k + 1) ltac:(lia)).
      replace (a + Z.succ (Z.of_nat k) + 1) with (a + Z.of_nat k + 1 + 1)
        by lia.
      specialize (IH ltac:(lia)). lia. }
  specialize (G (Z.to_nat (b - a - 1))).
  rewrite Z2Nat.id in G by lia.
  replace (a + (b - a - 1) + 1) with b in G by lia. apply G. lia.
Qed.

Lemma similarity_of_ltb (a b : Z) :
  0 <= a <= max_sq -> 0 <= b <= max_sq ->
  (similarity_of a <? similarity_of b)%float = (b <? a)%Z.
Proof.
  intros Ha Hb. rewrite ltb_val by (apply similarity_of_bounds; lia).
  destruct (Z.ltb_spec b a) as [L|L].
  - apply Z.ltb_lt. apply similarity_of_lt; lia.
  - apply Z.ltb_ge. destruct (Z.eq_dec a b) as [->|N]; [lia|].
    pose proof (similarity_of_lt a b). lia.
Qed.

(** *** Distances of 8-bit lists *)

(** The channels are 8-bit values. *)
Definition channels (rgb : list Z) : Prop :=
  Forall (fun v => 0 <= v <= 255) rgb.

Lemma sum_from (l : list Z) (s : Z) : fold_left Z.add l s = s + sum l.
Proof.
  unfold sum. revert s. induction l as [|x l IH]; intro s; simpl; [lia|].
  rewrite (IH (s + x)), (IH x). lia.
Qed.

Lemma sq_distance_cons (a b : Z) (r1 r2 : list Z) :
  sq_distance (a :: r1) (b :: r2) = (a - b) ^ 2 + sq_distance r1 r2.
Proof.
  unfold sq_distance. cbn [combine map fst snd]. unfold sum at 1.
  cbn [fold_left]. rewrite sum_from. lia.
Qed.

Lemma sq_distance_channels (r1 r2 : list Z) :
  channels r1 -> channels r2 ->
  0 <= sq_distance r1 r2 <= 255 ^ 2 * Z.of_nat (List.length r2).
Proof.
  intro H1. revert r2. induction H1 as [|a r1 Ha H1 IH]; intros r2 H2.
  - change (sq_distance [] r2) with 0. lia.
  - destruct H2 as [|b r2 Hb H2].
    + change (sq_distance (a :: r1) []) with 0. cbn [List.length]. lia.
    + rewrite sq_distance_cons. cbn [List.length]. rewrite Nat2Z.inj_succ.
      specialize (IH r2 H2). nia.
Qed.

Definition triple (rgb : list Z) : bool :=
  (Nat.eqb (List.length rgb) 3
   && forallb (fun v => (0 <=? v)%Z && (v <=? 255)%Z) rgb)%bool.

Lemma palette_triples : forallb triple rgbs = true.
Proof. vm_compute. reflexivity. Qed.

Lemma triple_channels (prgb : list Z) :
  In prgb rgbs -> List.length prgb = 3%nat /\ channels prgb.
Proof.
  intro H. pose proof palette_triples as T. rewrite forallb_forall in T.
  specialize (T _ H). unfold triple in T.
  apply andb_true_iff in T. destruct T as [L C].
  split; [now apply Nat.eqb_eq|].
  rewrite forallb_forall in C. apply Forall_forall. intros v Hv.
  specialize (C v Hv). lia.
Qed.

Lemma palette_distance (rgb prgb : list Z) :
  channels rgb -> In prgb rgbs -> 0 <= sq_distance rgb prgb <= max_sq.
Proof.
  intros C I. destruct (triple_channels prgb I) as [L Cp].
  pose proof (sq_distance_channels rgb prgb C Cp) as B.
  rewrite L in B. unfold max_sq. lia.
Qed.

(** The RGB list that [calculate_color_similarity] uses for a name. *)
Definition rgb_of (color : string) : list Z :=
  get (lower color) color_to_rgb [0; 0; 0].

Lemma similarity_of_names (color1 color2 : string) :
  calculate_color_similarity color1 color2
  = similarity_of (sq_distance (rgb_of color1) (rgb_of color2)).
Proof. reflexivity. Qed.

Lemma names_distance (color1 color2 : string) :
  0 <= sq_distance (rgb_of color1) (rgb_of color2) <= max_sq.
Proof.
  apply palette_distance; [|apply get_in_rgbs].
  apply triple_channels, get_in_rgbs.
Qed.

(** Two triples at squared distance zero are equal. *)
Lemma sq_distance_zero (r1 r2 : list Z) :
  List.length r1 = List.length r2 -> sq_distance r1 r2 = 0 -> r1 = r2.
Proof.
  revert r2. induction r1 as [|a r1 IH]; intros [|b r2] L H;
    try discriminate; [reflexivity|].
  rewrite sq_distance_cons in H. injection L as L.
  assert (P : forall l1 l2 : list Z, 0 <= sq_distance l1 l2).
  { induction l1 as [|x l1 IHl]; intros [|y l2];
      try (now vm_compute).
    rewrite sq_distance_cons. specialize (IHl l2). nia. }
  specialize (P r1 r2).
  assert (a = b) by nia. subst b.
  f_equal. apply IH; [exact L | nia].
Qed.

(** *** [calculate_color_similarity] *)

(** X1: the similarity of two colour names, known to the palette or not,
    is a float between [0.0] and [1.0]. *)
Theorem color_similarity_in_unit_interval (color1 color2 : string) :
  (0 <=? calculate_color_similarity color1 color2)%float = true
  /\ (calculate_color_similarity color1 color2 <=? 1)%float = true.
Proof.
  rewrite similarity_of_names.
  destruct (similarity_of_bounds _ (names_distance color1 color2)) as [N V].
  split; [exact N|].
  rewrite leb_val by (trivial; apply nonneg_one). rewrite val_one.
  now apply Z.leb_le.
Qed.

(** X2: the similarity orders pairs of names as their squared RGB
    distances do, reversed and strictly: a pair is less similar than
    another exactly when its colours are farther apart. *)
Theorem color_similarity_antitone (a b c d : string) :
  (calculate_color_similarity a b <? calculate_color_similarity c d)%float
  = (sq_distance (rgb_of c) (rgb_of d) <? sq_distance (rgb_of a) (rgb_of b))%Z.
Proof.
  rewrite !similarity_of_names.
  apply similarity_of_ltb; apply names_distance.
Qed.

(** X3: the similarity is [1.0] exactly when the two names stand for the
    same RGB triple: equal names, names equal up to case, the two
    spellings of one colour, or two names that both fall back to black. *)
Theorem color_similarity_one_iff (color1 color2 : string) :
  calculate_color_similarity color1 color2 = 1.0%float
  <-> rgb_of color1 = rgb_of color2.
Proof.
  split.
  - intro H. pose proof (names_distance color1 color2) as B.
    rewrite similarity_of_names in H.
    pose proof (similarity_of_ltb
                  (sq_distance (rgb_of color1) (rgb_of color2)) 0 B
                  ltac:(unfold max_sq; lia)) as A.
    rewrite H, similarity_of_zero in A.
    change (1 <? 1)%float with false in A. symmetry in A.
    apply Z.ltb_ge in A.
    apply sq_distance_zero; [|lia].
    destruct (triple_channels _ (get_in_rgbs color1)) as [L1 _].
    destruct (triple_channels _ (get_in_rgbs color2)) as [L2 _].
    unfold rgb_of. congruence.
  - intro H. unfold calculate_color_similarity. fold (rgb_of color1).
    fold (rgb_of color2). rewrite H. apply rgb_similarity_refl.
Qed.

(** X4: the similarity is [0.0] exactly when the two colours are at the
    largest distance two 8-bit triples can have, [3 * 255 ^ 2] squared:
    opposite corners of the RGB cube. *)
Theorem color_similarity_zero_iff (color1 color2 : string) :
  calculate_color_similarity color1 color2 = 0.0%float
  <-> sq_distance (rgb_of color1) (rgb_of color2) = 3 * 255 ^ 2.
Proof.
  pose proof (names_distance color1 color2) as B.
  rewrite similarity_of_names. split.
  - intro H.
    pose proof (similarity_of_ltb max_sq
                  (sq_distance (rgb_of color1) (rgb_of color2))
                  ltac:(unfold max_sq; lia) B) as A.
    rewrite H, similarity_of_max in A.
    change (0 <? 0)%float with false in A. symmetry in A.
    apply Z.ltb_ge in A. unfold max_sq in *. lia.
  - intro H. rewrite H. apply similarity_of_max.
Qed.

(** *** [rgb_to_color_name] *)

Definition distance_to (rgb : list Z) (item : string * list Z) : Z :=
  sq_distance rgb (snd item).

(** The loop keeps the first entry at the smallest squared distance. *)
Lemma nearer_first_min (rgb : list Z) (pal : dict (list Z)) :
  (forall item, In item pal -> 0 <= distance_to rgb item <= max_sq) ->
  pal <> [] ->
  exists pre w post,
    pal = pre ++ w :: post
    /\ fold_left (nearer rgb) pal (infinity, "unknown")
       = (sqrtZ (distance_to rgb w), fst w)
    /\ (forall y, In y pre -> distance_to rgb w < distance_to rgb y)
    /\ (forall y, In y post -> distance_to rgb w <= distance_to rgb y).
Proof.
  induction pal as [|y l IH] using rev_ind; intros B N; [now elim N|].
  clear N.
  assert (By : 0 <= distance_to rgb y <= max_sq).
  { apply B, in_or_app. right. now left. }
  assert (Bl : forall item, In item l -> 0 <= distance_to rgb item <= max_sq).
  { intros item I. apply B, in_or_app. now left. }
  rewrite fold_left_app. cbn [fold_left].
  destruct l as [|x l'].
  - exists [], y, []. cbn [fold_left app]. repeat split; try (intros z []).
    unfold nearer. destruct y as [n r]. fold (sqrtZ (sq_distance rgb r)).
    unfold distance_to in *. cbn [snd fst] in *.
    now rewrite sqrtZ_finite.
  - destruct (IH Bl ltac:(discriminate)) as [pre [w [post [E [F [Hpre Hpost]]]]]].
    rewrite F.
    assert (Bw : 0 <= distance_to rgb w <= max_sq).
    { apply Bl. rewrite E. apply in_or_app. right. now left. }
    unfold nearer. destruct y as [n r]. fold (sqrtZ (sq_distance rgb r)).
    change (sq_distance rgb r) with (distance_to rgb (n, r)).
    rewrite sqrtZ_ltb by assumption.
    destruct (Z.ltb_spec (distance_to rgb (n, r)) (distance_to rgb w)) as [L|L].
    + exists (x :: l'), (n, r), []. repeat split; [|intros z []].
      intros z Hz. rewrite E in Hz. apply in_app_or in Hz.
      destruct Hz as [Hz|[<-|Hz]]; [| lia |].
      * specialize (Hpre z Hz). lia.
      * specialize (Hpost z Hz). lia.
    + exists pre, w, (post ++ [(n, r)]). repeat split; trivial.
      * rewrite E, <- app_assoc. reflexivity.
      * intros z Hz. apply in_app_or in Hz. destruct Hz as [Hz|[<-|[]]].
        -- now apply Hpost.
        -- exact L.
Qed.

Lemma palette_in_rgbs (item : string * list Z) :
  In item color_to_rgb -> In (snd item) rgbs.
Proof. intro H. right. unfold values. now apply in_map. Qed.

(** X5: on 8-bit channels [rgb_to_color_name] returns the name of the
    first palette entry at the smallest Euclidean distance: the entries
    before it are strictly farther, those after it are not nearer. *)
Theorem nearest_palette_entry (rgb : list Z) :
  channels rgb ->
  exists pre color_rgb post,
    color_to_rgb = pre ++ (rgb_to_color_name rgb, color_rgb) :: post
    /\ (forall name rgb', In (name, rgb') pre ->
          sq_distance rgb color_rgb < sq_distance rgb rgb')
    /\ (forall name rgb', In (name, rgb') post ->
          sq_distance rgb color_rgb <= sq_distance rgb rgb').
Proof.
  intro C.
  destruct (nearer_first_min rgb color_to_rgb)
    as [pre [[n r] [post [E [F [Hpre Hpost]]]]]].
  - intros item I. apply palette_distance; [exact C|].
    now apply palette_in_rgbs.
  - discriminate.
  - exists pre, r, post. unfold rgb_to_color_name. rewrite F. cbn [snd fst].
    split; [exact E|]. split.
    + intros name rgb' I. exact (Hpre _ I).
    + intros name rgb' I. exact (Hpost _ I).
Qed.

Lemma nearest_palette_entry_witness :
  exists pre color_rgb post,
    color_to_rgb = pre ++ (rgb_to_color_name [250; 160; 10], color_rgb) :: post
    /\ (forall name rgb', In (name, rgb') pre ->
          sq_distance [250; 160; 10] color_rgb
          < sq_distance [250; 160; 10] rgb')
    /\ (forall name rgb', In (name, rgb') post ->
          sq_distance [250; 160; 10] color_rgb
          <= sq_distance [250; 160; 10] rgb').
Proof.
  apply (nearest_palette_entry [250; 160; 10]).
  repeat constructor; lia.
Defined.

(** X6: on 8-bit channels the result is never ['unknown'], and never
    ['grey'] or ['lime'], the later spellings of a colour the palette
    already has. *)
Theorem shadowed_names_never_returned (rgb : list Z) :
  channels rgb ->
  In (rgb_to_color_name rgb) (keys color_to_rgb)
  /\ rgb_to_color_name rgb <> "unknown"
  /\ rgb_to_color_name rgb <> "grey"
  /\ rgb_to_color_name rgb <> "lime".
Proof.
  intro C.
  destruct (nearer_first_min rgb color_to_rgb)
    as [pre [[n r] [post [E [F [Hpre _]]]]]].
  { intros item I. apply palette_distance; [exact C|].
    now apply palette_in_rgbs. }
  { discriminate. }
  unfold rgb_to_color_name. rewrite F. cbn [snd fst].
  unfold distance_to in Hpre. cbn [snd] in Hpre.
  assert (K : In n (keys color_to_rgb)).
  { rewrite E. unfold keys. rewrite map_app. apply in_or_app. right.
    now left. }
  split; [exact K|]. split; [|split]; intro U; rewrite U in *.
  - revert K. vm_compute. intuition discriminate.
  - assert (I : In ("gray", [128; 128; 128]) pre /\ r = [128; 128; 128]).
    { clear Hpre C. revert E. unfold color_to_rgb.
      repeat (destruct pre as [|? pre]; [discriminate|];
              intro E; injection E as <- E; revert E).
      destruct pre as [|? pre].
      - intro E. injection E as <-. split; [|reflexivity].
        do 10 right. now left.
      - intro E. exfalso. injection E as _ E. revert E.
        repeat (destruct pre as [|? pre]; [discriminate|];
                intro E; injection E as _ E; revert E).
        destruct pre; discriminate. }
    destruct I as [I ->]. specialize (Hpre _ I). cbn [snd] in Hpre. lia.
  - assert (I : In ("green", [0; 255; 0]) pre /\ r = [0; 255; 0]).
    { clear Hpre C. revert E. unfold color_to_rgb.
      repeat (destruct pre as [|? pre]; [discriminate|];
              intro E; injection E as <- E; revert E).
      destruct pre as [|? pre].
      - intro E. injection E as <-. split; [|reflexivity].
        right. now left.
      - intro E. exfalso. injection E as _ E. revert E.
        repeat (destruct pre as [|? pre]; [discriminate|];
                intro E; injection E as _ E; revert E).
        destruct pre; discriminate. }
    destruct I as [I ->]. specialize (Hpre _ I). cbn [snd] in Hpre. lia.
Qed.

Lemma shadowed_names_never_returned_witness :
  In (rgb_to_color_name [128; 128; 128]) (keys color_to_rgb)
  /\ rgb_to_color_name [128; 128; 128] <> "unknown"
  /\ rgb_to_color_name [128; 128; 128] <> "grey"
  /\ rgb_to_color_name [128; 128; 128] <> "lime".
Proof.
  apply (shadowed_names_never_returned [128; 128; 128]).
  repeat constructor; lia.
Defined.

Lemma lookup_Some_In {V : Type} (k : string) (v : V) (m : dict V) :
  lookup k m = Some v -> In (k, v) m.
Proof.
  induction m as [|[k' v'] m IH]; simpl; [discriminate|].
  destruct (String.eqb_spec k k') as [->|_].
  - intro E. injection E as ->. now left.
  - intro E. right. now apply IH.
Qed.

(** The name found for the triple of a palette entry is in lower case
    and stands for the same triple. *)
Definition names_itself (item : string * list Z) : bool :=
  let name := rgb_to_color_name (snd item) in
  (String.eqb (lower name) name
   && match lookup name color_to_rgb with
      | Some color_rgb =>
          if list_eq_dec Z.eq_dec color_rgb (snd item) then true else false
      | None => false
      end)%bool.

Lemma palette_names_itself : forallb names_itself color_to_rgb = true.
Proof. vm_compute. reflexivity. Qed.

(** X7: naming the RGB triple of a palette colour gives a name of the
    same triple, which is perfectly similar to the colour. *)
Theorem palette_round_trip (color : string) (color_rgb : list Z) :
  lookup (lower color) color_to_rgb = Some color_rgb ->
  lookup (rgb_to_color_name color_rgb) color_to_rgb = Some color_rgb
  /\ calculate_color_similarity color (rgb_to_color_name color_rgb)
     = 1.0%float.
Proof.
  intro H. pose proof palette_names_itself as P.
  rewrite forallb_forall in P.
  specialize (P _ (lookup_Some_In _ _ _ H)). unfold names_itself in P.
  cbn [snd] in P. apply andb_true_iff in P. destruct P as [L P].
  apply String.eqb_eq in L.
  destruct (lookup (rgb_to_color_name color_rgb) color_to_rgb) as [r|] eqn:E;
    [|discriminate].
  destruct (list_eq_dec Z.eq_dec r color_rgb) as [->|]; [|discriminate].
  split; [reflexivity|].
  unfold calculate_color_similarity, get. rewrite H, L, E.
  apply rgb_similarity_refl.
Qed.

Lemma palette_round_trip_witness :
  lookup (lower "Grey") color_to_rgb = Some [128; 128; 128]
  /\ lookup (rgb_to_color_name [128; 128; 128]) color_to_rgb
     = Some [128; 128; 128]
  /\ calculate_color_similarity "Grey" (rgb_to_color_name [128; 128; 128])
     = 1.0%float.
Proof.
  split; [reflexivity|].
  apply (palette_round_trip "Grey" [128; 128; 128]). reflexivity.
Defined.

End PaletteFacts.

(** * More on the scorer *)

Module ScorerFacts.
Import Py ColorRate Float64 DictFacts ColorRateFacts ScoreFacts PaletteFacts.

Local Open Scope string_scope.
Local Open Scope list_scope.

(** *** Two exact quotients *)

Lemma finite_positive (x : float) :
  nonneg x -> 0 < val x < Binary.top prec emax ->
  exists m e, Prim2SF x = S754_finite false m e.
Proof.
  intros N V. apply nonneg_spec in N. unfold val in V.
  destruct (Prim2SF x) as [s|s| |s m e]; try contradiction;
    cbn [Binary.sval] in V.
  - lia.
  - destruct s; [contradiction | lia].
  - destruct s; [contradiction|]. now exists m, e.
Qed.

(** A positive finite float divided by itself is [1.0]. *)
Lemma div_self (x : float) :
  nonneg x -> 0 < val x < Binary.top prec emax -> (x / x)%float = 1%float.
Proof.
  intros N V. destruct (finite_positive x N V) as [m [e E]].
  apply Prim2SF_inj. rewrite FloatAxioms.div_spec, E.
  unfold SF64div. cbn [SFdiv xorb].
  rewrite (Binary.SFdiv_core_binary_eq prec emax).
  replace (Zdigits2 (Zpos m) + e - (Zdigits2 (Zpos m) + e)) with 0 by lia.
  replace (e - e) with 0 by lia.
  change (Z.min (SpecFloat.fexp prec emax 0) 0) with (- 53).
  change (0 - - 53) with 53.
  rewrite Z.mul_comm, Z.div_mul, Z.mod_mul by lia.
  rewrite Binary.new_location_0.
  vm_compute. reflexivity.
Qed.

(** Zero divided by a positive finite float is [0.0]. *)
Lemma zero_div (y : float) :
  nonneg y -> 0 < val y < Binary.top prec emax -> (0 / y)%float = 0%float.
Proof.
  intros N V. destruct (finite_positive y N V) as [m [e E]].
  apply Prim2SF_inj. rewrite FloatAxioms.div_spec, E, Prim2SF_zero.
  reflexivity.
Qed.

Lemma ratio_inv_finite (a : acc) :
  ratio_inv a ->
  0 < val (to_float (total_comparisons a)) < Binary.top prec emax.
Proof.
  intros [_ [_ [_ [[Hl Hu] _]]]]. pose proof one_val_pos.
  rewrite top_eq.
  assert (2 ^ 54 < 2 ^ 1024) by (apply Z.pow_lt_mono_r; lia). nia.
Qed.

(** The accumulators after both loops, for a user mapping of fewer than
    [2 ^ 53] entries. *)
Lemma accumulate_ratio_inv dict1 dict2 :
  dict1 <> [] -> Z.of_nat (List.length dict1) < 2 ^ 53 ->
  ratio_inv (accumulate dict1 dict2).
Proof.
  intros H1 Hlen. unfold accumulate. apply reverse_pass_ratio_inv.
  apply (forward_inv_ratio _ (0 + Z.of_nat (List.length dict1))).
  - destruct dict1; [contradiction | cbn [List.length] in *; lia].
  - apply forward_pass_inv; [lia | lia |].
    split; [reflexivity | cbn; lia].
Qed.

Lemma nonempty_guard {V W : Type} (d1 : dict V) (d2 : dict W) :
  d1 <> [] -> d2 <> [] -> (is_empty d1 || is_empty d2)%bool = false.
Proof. destruct d1, d2; intros; try contradiction; reflexivity. Qed.

(** *** The values of the list *)

(** X8: every value of the returned list is a float between [0.0] and
    [1.0]. *)
Theorem entry_similarities_in_unit_interval dict1 dict2 dict2_rgb :
  Forall (fun s => (0 <=? s)%float = true /\ (s <=? 1)%float = true)
         (snd (calculate_enhanced_similarity dict1 dict2 dict2_rgb)).
Proof.
  unfold calculate_enhanced_similarity.
  destruct (is_empty dict1 || is_empty dict2)%bool; [constructor|].
  unfold finish. cbn [snd]. rewrite accumulate_similarities.
  apply Forall_forall. intros s Hs. apply in_map_iff in Hs.
  destruct Hs as [item [<- _]]. unfold entry_similarity.
  destruct (lookup (lower (fst item)) dict2) as [c|];
    [|split; reflexivity].
  destruct (String.eqb c (snd item)); [split; reflexivity|].
  rewrite similarity_of_names.
  destruct (similarity_of_bounds _ (names_distance (snd item) c)) as [N V].
  split; [exact N|].
  rewrite leb_val by (trivial; apply nonneg_one). rewrite val_one.
  now apply Z.leb_le.
Qed.

(** *** A perfect match *)

Definition exact_in (dict2 : dict string) (item : string * string) : Prop :=
  lookup (lower (fst item)) dict2 = Some (snd item).

Lemma forward_pass_exact dict2 dict1 (j : Z) (l : list float) :
  Forall (exact_in dict2) dict1 ->
  fold_left (forward_step dict2) dict1 (mkAcc (PInt j) (PInt j) l)
  = mkAcc (PInt (j + Z.of_nat (List.length dict1)))
          (PInt (j + Z.of_nat (List.length dict1)))
          (l ++ map (fun _ => 1.0%float) dict1).
Proof.
  intro H. revert j l. induction H as [|[o c] d Hx _ IH]; intros j l.
  - cbn. now rewrite Z.add_0_r, app_nil_r.
  - cbn [fold_left]. unfold forward_step at 2. unfold exact_in in Hx.
    cbn [fst snd] in Hx. rewrite Hx, String.eqb_refl.
    cbn [matches total_comparisons color_similarities add].
    rewrite IH. cbn [List.length map]. rewrite Nat2Z.inj_succ, <- app_assoc.
    cbn [app]. f_equal; f_equal; lia.
Qed.

Lemma reverse_pass_equal dict1 dict2 (a : acc) :
  matches a = total_comparisons a ->
  matches (fold_left (reverse_step dict1) dict2 a)
  = total_comparisons (fold_left (reverse_step dict1) dict2 a).
Proof.
  revert a. induction dict2 as [|item d IH]; intros a H; [exact H|].
  cbn [fold_left]. apply IH. unfold reverse_step.
  destruct (qualifies dict1 item); [|exact H].
  unfold bonus. cbn [matches total_comparisons]. now rewrite H.
Qed.

Lemma exact_accumulate dict1 dict2 :
  dict1 <> [] -> Z.of_nat (List.length dict1) < 2 ^ 53 ->
  Forall (exact_in dict2) dict1 ->
  finish (accumulate dict1 dict2)
  = (1.0%float, map (fun _ => 1.0%float) dict1).
Proof.
  intros H1 Hlen Hx.
  pose proof (accumulate_ratio_inv dict1 dict2 H1 Hlen) as R.
  unfold finish. rewrite (ratio_inv_gt0 _ R).
  pose proof (ratio_inv_finite _ R) as F.
  destruct R as [_ [Nt _]].
  assert (E : matches (accumulate dict1 dict2)
              = total_comparisons (accumulate dict1 dict2)).
  { unfold accumulate. apply reverse_pass_equal. unfold acc0.
    now rewrite forward_pass_exact. }
  unfold truediv. rewrite E, div_self by assumption.
  f_equal. unfold accumulate. rewrite reverse_pass_similarities.
  unfold acc0. now rewrite forward_pass_exact.
Qed.

Lemma exact_nonempty (dict1 dict2 : dict string) :
  dict1 <> [] -> Forall (exact_in dict2) dict1 -> dict2 <> [].
Proof.
  intros H1 Hx. destruct dict1 as [|x d]; [contradiction|].
  inversion Hx; subst. unfold exact_in in *. intros ->. discriminate.
Qed.

(** X9: when every user entry finds its own colour under its lower-cased
    label, the score is exactly [1.0] and every value of the list is
    [1.0], whatever else the reference holds. *)
Theorem perfect_match_scores_one dict1 dict2 dict2_rgb :
  dict1 <> [] -> Z.of_nat (List.length dict1) < 2 ^ 53 ->
  Forall (exact_in dict2) dict1 ->
  calculate_enhanced_similarity dict1 dict2 dict2_rgb
  = (1.0%float, map (fun _ => 1.0%float) dict1).
Proof.
  intros H1 Hlen Hx. unfold calculate_enhanced_similarity.
  rewrite nonempty_guard by (trivial; now apply (exact_nonempty dict1)).
  now apply exact_accumulate.
Qed.

Lemma perfect_match_scores_one_witness :
  calculate_enhanced_similarity
    [("Lantern", "red"); ("car", "blue")]
    [("car", "blue"); ("tree", "red"); ("lantern", "red")] []
  = (1.0%float, map (fun _ => 1.0%float) [("Lantern", "red"); ("car", "blue")]).
Proof.
  apply (perfect_match_scores_one
           [("Lantern", "red"); ("car", "blue")]
           [("car", "blue"); ("tree", "red"); ("lantern", "red")] []).
  - discriminate.
  - reflexivity.
  - repeat constructor.
Defined.

(** *** Nothing in common *)

Lemma forward_pass_absent dict2 dict1 (m : num) (j : Z) (l : list float) :
  Forall (fun item => lookup (lower (fst item)) dict2 = None) dict1 ->
  fold_left (forward_step dict2) dict1 (mkAcc m (PInt j) l)
  = mkAcc m (PInt (j + Z.of_nat (List.length dict1)))
          (l ++ map (fun _ => 0.0%float) dict1).
Proof.
  intro H. revert j l. induction H as [|[o c] d Hx _ IH]; intros j l.
  - cbn. now rewrite Z.add_0_r, app_nil_r.
  - cbn [fold_left]. unfold forward_step at 2.
    cbn [fst] in Hx. rewrite Hx.
    cbn [matches total_comparisons color_similarities add].
    rewrite IH. cbn [List.length map]. rewrite Nat2Z.inj_succ, <- app_assoc.
    cbn [app]. f_equal; f_equal; lia.
Qed.

Lemma reverse_pass_none dict1 dict2 (a : acc) :
  Forall (fun item => ~ In (snd item) (values dict1)) dict2 ->
  fold_left (reverse_step dict1) dict2 a = a.
Proof.
  intro H. induction H as [|[o c] d Hx _ IH]; [reflexivity|].
  cbn [fold_left]. unfold reverse_step at 2, qualifies.
  cbn [snd] in Hx. apply str_in_not_In in Hx. rewrite Hx, andb_false_r.
  exact IH.
Qed.

(** X10: when no lower-cased user label is a reference label and no
    reference colour is one of the user's colours, the score is exactly
    [0.0] and every value of the list is [0.0]. *)
Theorem nothing_in_common_scores_zero dict1 dict2 dict2_rgb :
  dict1 <> [] -> dict2 <> [] -> Z.of_nat (List.length dict1) < 2 ^ 53 ->
  Forall (fun item => lookup (lower (fst item)) dict2 = None) dict1 ->
  Forall (fun item => ~ In (snd item) (values dict1)) dict2 ->
  calculate_enhanced_similarity dict1 dict2 dict2_rgb
  = (0.0%float, map (fun _ => 0.0%float) dict1).
Proof.
  intros H1 H2 Hlen Hf Hr.
  unfold calculate_enhanced_similarity. rewrite nonempty_guard by assumption.
  unfold accumulate. rewrite reverse_pass_none by exact Hr.
  unfold acc0. rewrite forward_pass_absent by exact Hf.
  rewrite Z.add_0_l. cbn [app].
  assert (L : 0 < Z.of_nat (List.length dict1)).
  { destruct dict1; [contradiction | cbn [List.length]; lia]. }
  unfold finish. cbn [total_comparisons matches color_similarities gt0].
  apply Z.ltb_lt in L. rewrite L. apply Z.ltb_lt in L.
  unfold truediv. cbn [to_float].
  destruct (Z2F_exact (Z.of_nat (List.length dict1)) ltac:(lia)) as [N V].
  change (Z2F 0) with 0%float. rewrite zero_div; trivial.
  rewrite V, top_eq. pose proof one_val_pos.
  assert (2 ^ 53 < 2 ^ 1024) by (apply Z.pow_lt_mono_r; lia). nia.
Qed.

Lemma nothing_in_common_scores_zero_witness :
  calculate_enhanced_similarity
    [("Lantern", "red"); ("car", "blue")]
    [("tree", "green"); ("Car", "Blue")] []
  = (0.0%float, map (fun _ => 0.0%float) [("Lantern", "red"); ("car", "blue")]).
Proof.
  apply (nothing_in_common_scores_zero
           [("Lantern", "red"); ("car", "blue")]
           [("tree", "green"); ("Car", "Blue")] []).
  - discriminate.
  - discriminate.
  - reflexivity.
  - repeat constructor.
  - repeat constructor; cbn; intuition discriminate.
Defined.

(** *** The order of the reference entries *)

Lemma lookup_permutation {V : Type} (k : string) (d d' : dict V) :
  NoDup (keys d) -> Permutation d d' -> lookup k d = lookup k d'.
Proof.
  intros N P.
  assert (N' : NoDup (keys d')).
  { apply (Permutation_NoDup (l := keys d)); [|exact N].
    unfold keys. now apply Permutation_map. }
  destruct (lookup k d) as [v|] eqn:E.
  - symmetry. apply lookup_In; [exact N'|].
    apply (Permutation_in _ P). now apply lookup_Some_In.
  - symmetry. apply lookup_None_keys. apply lookup_None_keys in E.
    intro I. apply E. unfold keys in *.
    apply (Permutation_in (l := map fst d')); [|exact I].
    apply Permutation_map. now apply Permutation_sym.
Qed.

Lemma reverse_step_comm dict1 (a : acc) (x y : string * string) :
  reverse_step dict1 (reverse_step dict1 a x) y
  = reverse_step dict1 (reverse_step dict1 a y) x.
Proof.
  unfold reverse_step.
  destruct (qualifies dict1 x), (qualifies dict1 y); reflexivity.
Qed.

Lemma reverse_pass_permutation dict1 (d d' : dict string) (a : acc) :
  Permutation d d' ->
  fold_left (reverse_step dict1) d a = fold_left (reverse_step dict1) d' a.
Proof.
  intro P. revert a. induction P as [|x l l' _ IH|x y l|l l' l'' _ IH1 _ IH2];
    intro a; cbn [fold_left].
  - reflexivity.
  - apply IH.
  - now rewrite reverse_step_comm.
  - now rewrite IH1.
Qed.

(** X11: the result does not depend on the order of the entries of the
    reference mapping. *)
Theorem reference_order_irrelevant dict1 dict2 dict2' dict2_rgb rgb' :
  NoDup (keys dict2) -> Permutation dict2 dict2' ->
  calculate_enhanced_similarity dict1 dict2 dict2_rgb
  = calculate_enhanced_similarity dict1 dict2' rgb'.
Proof.
  intros N P. unfold calculate_enhanced_similarity.
  assert (E : is_empty dict2 = is_empty dict2').
  { destruct dict2 as [|x d].
    - apply Permutation_nil in P. now subst.
    - destruct dict2'; [|reflexivity].
      apply Permutation_sym, Permutation_nil in P. discriminate. }
  rewrite E. destruct (is_empty dict1 || is_empty dict2')%bool; [reflexivity|].
  f_equal. unfold accumulate.
  rewrite (reverse_pass_permutation dict1 dict2 dict2') by exact P.
  f_equal. generalize acc0. induction dict1 as [|[o c] d IH]; intro a.
  - reflexivity.
  - cbn [fold_left]. rewrite <- IH. f_equal. unfold forward_step.
    now rewrite (lookup_permutation _ dict2 dict2').
Qed.

Lemma reference_order_irrelevant_witness :
  calculate_enhanced_similarity [("car", "red"); ("Tree", "green")]
    [("car", "blue"); ("tree", "green"); ("bus", "red")] []
  = calculate_enhanced_similarity [("car", "red"); ("Tree", "green")]
      [("bus", "red"); ("car", "blue"); ("tree", "green")] [].
Proof.
  apply (reference_order_irrelevant [("car", "red"); ("Tree", "green")]
           [("car", "blue"); ("tree", "green"); ("bus", "red")]
           [("bus", "red"); ("car", "blue"); ("tree", "green")] [] []).
  - repeat constructor; cbn; intuition discriminate.
  - apply Permutation_sym.
    apply (Permutation_cons_app [("car", "blue"); ("tree", "green")] []).
    apply Permutation_refl.
Defined.

(** *** The case of the user's labels *)

(** Two entries with ASCII labels, the same but for the case of the
    letters of the label. *)
Definition same_up_to_label_case (item item' : string * string) : Prop :=
  is_ascii (fst item) = true /\ is_ascii (fst item') = true
  /\ lower (fst item) = lower (fst item') /\ snd item = snd item'.

Lemma same_case_labels dict1 dict1' :
  Forall2 same_up_to_label_case dict1 dict1' ->
  map lower (keys dict1) = map lower (keys dict1')
  /\ values dict1 = values dict1'.
Proof.
  induction 1 as [|x y l l' [_ [_ [H1 H2]]] _ [IH1 IH2]];
    [split; reflexivity|].
  unfold keys, values in *. cbn [map]. now rewrite H1, H2, IH1, IH2.
Qed.

(** X12: ASCII user labels are compared without regard to case: changing
    the case of letters in user labels that are ASCII changes nothing in
    the result. *)
Theorem user_label_case_irrelevant dict1 dict1' dict2 dict2_rgb :
  Forall2 same_up_to_label_case dict1 dict1' ->
  calculate_enhanced_similarity dict1 dict2 dict2_rgb
  = calculate_enhanced_similarity dict1' dict2 dict2_rgb.
Proof.
  intro H. unfold calculate_enhanced_similarity.
  assert (E : is_empty dict1 = is_empty dict1') by now destruct H.
  rewrite E. destruct (is_empty dict1' || is_empty dict2)%bool; [reflexivity|].
  f_equal. unfold accumulate.
  destruct (same_case_labels _ _ H) as [K V].
  assert (Q : forall a item,
            reverse_step dict1 a item = reverse_step dict1' a item).
  { intros a [o c]. unfold reverse_step, qualifies. now rewrite K, V. }
  assert (R : forall d a,
            fold_left (reverse_step dict1) d a
            = fold_left (reverse_step dict1') d a).
  { induction d as [|x d IH]; intro a; [reflexivity|].
    cbn [fold_left]. now rewrite Q, IH. }
  rewrite R. f_equal. clear - H. generalize acc0.
  induction H as [|[o c] [o' c'] l l' [_ [_ [H1 H2]]] _ IH]; intro a;
    [reflexivity|].
  cbn [fold_left]. cbn [fst snd] in H1, H2. subst c'.
  rewrite <- IH. f_equal. unfold forward_step. now rewrite H1.
Qed.

Lemma user_label_case_irrelevant_witness :
  calculate_enhanced_similarity [("Car", "red"); ("TREE", "green")]
    [("car", "blue"); ("tree", "green")] []
  = calculate_enhanced_similarity [("cAR", "red"); ("tree", "green")]
      [("car", "blue"); ("tree", "green")] [].
Proof.
  apply (user_label_case_irrelevant [("Car", "red"); ("TREE", "green")]
           [("cAR", "red"); ("tree", "green")]
           [("car", "blue"); ("tree", "green")] []).
  repeat constructor.
Defined.

(** *** The case of the reference labels *)

Lemma lower_ascii_idem (c : ascii) : lower_ascii (lower_ascii c) = lower_ascii c.
Proof.
  destruct c as [b0 b1 b2 b3 b4 b5 b6 b7].
  destruct b0, b1, b2, b3, b4, b5, b6, b7; reflexivity.
Qed.

Lemma lower_idem (s : string) : lower (lower s) = lower s.
Proof.
  induction s as [|c s IH]; [reflexivity|].
  cbn [lower]. now rewrite lower_ascii_idem, IH.
Qed.

Lemma lookup_skip {V : Type} (k k0 : string) (v : V) (d d' : dict V) :
  k0 <> k -> lookup k0 (d ++ (k, v) :: d') = lookup k0 (d ++ d').
Proof.
  intro N. apply String.eqb_neq in N.
  induction d as [|[k1 v1] d IH]; cbn [app lookup].
  - now rewrite N.
  - now rewrite IH.
Qed.

(** X13: the scorer lower-cases the user's labels, not the reference's.
    With ASCII labels, a reference label that is not in lower case is
    matched with no user label, not even one spelt the same; its entry
    can only earn the bonus of the second loop, on its colour alone. *)
Theorem mixed_case_reference_label_unmatched
    (json_obj json_color : string) (dict1 d d' : dict string) (a : acc) :
  is_ascii json_obj = true ->
  Forall (fun user_obj => is_ascii user_obj = true) (keys dict1) ->
  lower json_obj <> json_obj ->
  fold_left (forward_step (d ++ (json_obj, json_color) :: d')) dict1 a
  = fold_left (forward_step (d ++ d')) dict1 a
  /\ qualifies dict1 (json_obj, json_color)
     = str_in json_color (values dict1).
Proof.
  intros _ _ H.
  assert (N : forall o, lower o <> json_obj).
  { intros o E. apply H. rewrite <- E. apply lower_idem. }
  split.
  - revert a. induction dict1 as [|[o c] l IH]; intro a; [reflexivity|].
    cbn [fold_left]. rewrite <- IH. f_equal. unfold forward_step.
    now rewrite lookup_skip by apply N.
  - unfold qualifies.
    assert (S : str_in json_obj (map lower (keys dict1)) = false).
    { apply str_in_not_In. intro I. apply in_map_iff in I.
      destruct I as [o [E _]]. now apply (N o). }
    now rewrite S.
Qed.

Lemma mixed_case_reference_label_unmatched_witness :
  fold_left (forward_step ([("tree", "green")] ++ ("Car", "red") :: []))
    [("Car", "red")] acc0
  = fold_left (forward_step ([("tree", "green")] ++ [])) [("Car", "red")] acc0
  /\ qualifies [("Car", "red")] ("Car", "red")
     = str_in "red" (values [("Car", "red")]).
Proof.
  apply (mixed_case_reference_label_unmatched "Car" "red" [("Car", "red")]
           [("tree", "green")] [] acc0).
  - reflexivity.
  - repeat constructor.
  - discriminate.
Defined.

End ScorerFacts.

(** * More on the aggregator *)

Module ReferenceFacts.
Import Py Exc Aggregator Float64 DictFacts AggregatorFacts.

Local Open Scope string_scope.
Local Open Scope list_scope.

(** *** The labels of a source *)

(** The case-normalized labels, each once, in the order in which they are
    first met. *)
Definition labels_of (es : list DetectionEntry) : list string :=
  fold_left
    (fun seen e =>
       if str_in (lower (label e)) seen then seen
       else seen ++ [lower (label e)])
    es [].

Lemma labels_of_snoc es e :
  labels_of (es ++ [e])
  = if str_in (lower (label e)) (labels_of es) then labels_of es
    else labels_of es ++ [lower (label e)].
Proof. unfold labels_of. now rewrite fold_left_app. Qed.

Lemma counts_keys es :
  keys (object_color_counts (tables_of es)) = labels_of es.
Proof.
  induction es as [|e es IH] using rev_ind; [reflexivity|].
  rewrite tables_of_snoc, labels_of_snoc.
  cbn [record_typed object_color_counts]. now rewrite keys_update, IH.
Qed.

(** The records of label [l] are those of its entries, in order. *)
Definition record_of (e : DetectionEntry) : rgb_record :=
  mkRgb (rgb_triple e) (color e) (confidence e).

Lemma filter_snoc {A : Type} (p : A -> bool) (l : list A) (x : A) :
  filter p (l ++ [x]) = filter p l ++ (if p x then [x] else []).
Proof. rewrite filter_app. reflexivity. Qed.

Lemma rgb_records es l :
  get l (object_rgb_data (tables_of es)) []
  = map record_of (filter (shares l) es).
Proof.
  induction es as [|e es IH] using rev_ind; [reflexivity|].
  rewrite tables_of_snoc, filter_snoc, map_app.
  cbn [record_typed object_rgb_data]. unfold get, shares in *.
  destruct (String.eqb_spec (lower (label e)) l) as [E|N].
  - rewrite E, lookup_update_same. unfold get. f_equal. exact IH.
  - rewrite lookup_update_other by congruence. rewrite app_nil_r. exact IH.
Qed.

(** *** The second loop *)

Lemma keys_set {V : Type} (k : string) (v : V) (d : dict V) :
  keys (set k v d) = if str_in k (keys d) then keys d else keys d ++ [k].
Proof.
  unfold keys, str_in. induction d as [|[k' v'] d IH]; simpl; [reflexivity|].
  destruct (String.eqb k k'); simpl; [reflexivity|].
  rewrite IH. now destruct (existsb (String.eqb k) (map fst d)).
Qed.

(** What the second loop leaves in its two dictionaries, when every label
    has counters and records. *)
Lemma second_loop_out (rgb_data : dict (list rgb_record))
    (items : dict (dict float)) (out : dict string * dict (list Z)) :
  NoDup (keys items) ->
  (forall l cc, In (l, cc) items ->
     cc <> [] /\ exists r rs, lookup l rgb_data = Some (r :: rs)) ->
  (forall l, In l (keys items) ->
     ~ In l (keys (fst out)) /\ ~ In l (keys (snd out))) ->
  exists out',
    foldM (pick rgb_data) items out = Ok out'
    /\ keys (fst out') = keys (fst out) ++ keys items
    /\ keys (snd out') = keys (snd out) ++ keys items
    /\ forall l,
         lookup l (snd out')
         = match lookup l items, lookup l rgb_data with
           | Some _, Some (r :: rs) => Some (rgb (max_by score r rs))
           | _, _ => lookup l (snd out)
           end.
Proof.
  revert out. induction items as [|[l0 cc] items IH]; intros out N R D.
  - exists out. cbn [keys map]. rewrite !app_nil_r.
    repeat split; reflexivity.
  - inversion N as [|? ? N0 N1]; subst.
    destruct (R l0 cc ltac:(now left)) as [Hcc [r [rs Er]]].
    destruct cc as [|c cs]; [now elim Hcc|].
    destruct (D l0 ltac:(now left)) as [D1 D2].
    cbn [foldM]. unfold pick at 1. unfold get. rewrite Er. cbn [bind].
    set (out1 := (set l0 (fst (max_by snd c cs)) (fst out),
                  set l0 (rgb (max_by score r rs)) (snd out))).
    assert (K1 : keys (fst out1) = keys (fst out) ++ [l0]).
    { unfold out1. cbn [fst]. rewrite keys_set.
      apply str_in_not_In in D1. now rewrite D1. }
    assert (K2 : keys (snd out1) = keys (snd out) ++ [l0]).
    { unfold out1. cbn [snd]. rewrite keys_set.
      apply str_in_not_In in D2. now rewrite D2. }
    destruct (IH out1 N1) as [out' [E [H1 [H2 H3]]]].
    + intros l cc' I. apply (R l cc'). now right.
    + intros l I. rewrite K1, K2.
      destruct (D l ltac:(now right)) as [D1' D2'].
      assert (l <> l0) by (intros ->; contradiction).
      split; intro X; apply in_app_or in X;
        destruct X as [X|[X|[]]]; congruence.
    + exists out'. split; [exact E|].
      rewrite H1, H2, K1, K2, <- !app_assoc. cbn [keys map fst app].
      repeat split; trivial.
      intro l. rewrite H3. cbn [lookup].
      destruct (String.eqb_spec l l0) as [->|Ne].
      * rewrite Er. apply lookup_None_keys in N0. rewrite N0.
        unfold out1. cbn [snd]. apply lookup_set_same.
      * unfold out1. cbn [snd]. rewrite lookup_set_other by exact Ne.
        reflexivity.
Qed.

Lemma counts_nonempty es l cc :
  In (l, cc) (object_color_counts (tables_of es)) ->
  cc <> []
  /\ exists r rs, lookup l (object_rgb_data (tables_of es)) = Some (r :: rs).
Proof.
  intro I.
  pose proof (lookup_In _ _ _ (counts_keys_NoDup es) I) as L.
  split.
  - rewrite counts_of_label in L. destruct (colors_of es l); [discriminate|].
    injection L as <-. discriminate.
  - apply rgb_data_of_label. rewrite L. discriminate.
Qed.

(** On typed entries the aggregation returns, with the keys and the RGB
    values of its result. *)
Lemma aggregate_typed (es : list DetectionEntry) :
  exists colors rgbs,
    process_json_file (Loaded (doc_of es)) = Ok (colors, rgbs)
    /\ keys colors = labels_of es
    /\ keys rgbs = labels_of es
    /\ forall l,
         lookup l rgbs
         = match filter (shares l) es with
           | [] => None
           | e :: fs => Some (rgb (max_by score (record_of e) (map record_of fs)))
           end.
Proof.
  unfold process_json_file, aggregate, doc_of. cbn [j_entries getitem bind].
  rewrite first_loop. fold (tables_of es). cbn [bind].
  destruct (second_loop_out (object_rgb_data (tables_of es))
              (object_color_counts (tables_of es)) ([], [])
              (counts_keys_NoDup es)) as [[colors rgbs] [E [K1 [K2 H]]]].
  - apply counts_nonempty.
  - intros l _. split; intros [].
  - exists colors, rgbs. cbn [fst snd keys map app] in *.
    rewrite counts_keys in K1, K2.
    split; [exact E|]. split; [exact K1|]. split; [exact K2|].
    intro l. rewrite H. cbn [lookup].
    pose proof (rgb_records es l) as G. unfold get in G.
    destruct (lookup l (object_color_counts (tables_of es))) as [cc|] eqn:L.
    + destruct (rgb_data_of_label es l) as [r [rs Er]];
        [rewrite L; discriminate|].
      rewrite Er in *. destruct (filter (shares l) es) as [|e fs];
        [discriminate|].
      cbn [map] in G. injection G as -> ->. reflexivity.
    + rewrite counts_of_label in L.
      destruct (colors_of es l) eqn:C; [|discriminate].
      destruct (filter (shares l) es) as [|e fs] eqn:F; [reflexivity|].
      exfalso.
      assert (Ie : In e (filter (shares l) es)) by (rewrite F; now left).
      apply filter_In in Ie. destruct Ie as [Ie Se].
      pose proof (colors_of_shares es e l Ie Se) as X. now rewrite C in X.
Qed.

(** *** The keys of the result *)

Lemma labels_of_spec (es : list DetectionEntry) (l : string) :
  In l (labels_of es) <-> exists e, In e es /\ lower (label e) = l.
Proof.
  induction es as [|e es IH] using rev_ind.
  - split; [intros [] | intros [e [[] _]]].
  - rewrite labels_of_snoc. split.
    + intro I.
      assert (X : In l (labels_of es) \/ l = lower (label e)).
      { destruct (str_in (lower (label e)) (labels_of es)); [now left|].
        apply in_app_or in I. destruct I as [I|[<-|[]]]; auto. }
      destruct X as [X| ->].
      * apply IH in X. destruct X as [e' [I' L']].
        exists e'. split; [apply in_or_app; now left | exact L'].
      * exists e. split; [apply in_or_app; right; now left | reflexivity].
    + intros [e' [I' L']]. apply in_app_or in I'.
      assert (X : In l (labels_of es) \/ l = lower (label e)).
      { destruct I' as [I'|[<-|[]]]; [left | now right].
        apply IH. now exists e'. }
      destruct (str_in (lower (label e)) (labels_of es)) eqn:S.
      * destruct X as [X| ->]; [exact X | now apply str_in_In].
      * apply in_or_app. destruct X as [X| ->]; [now left | right; now left].
Qed.

(** X14: on a document whose entries have their four members, each of
    the type the program expects (a string label and colour name, a list
    of ints, a float score), and ASCII labels, the aggregator returns;
    both mappings have the same keys, the lower-cased labels of the
    source, each once, in the order in which they are first met. *)
Theorem one_entry_per_label (es : list DetectionEntry) :
  Forall (fun e => is_ascii (label e) = true) es ->
  exists colors rgbs,
    process_json_file (Loaded (doc_of es)) = Ok (colors, rgbs)
    /\ keys colors = labels_of es
    /\ keys rgbs = labels_of es
    /\ NoDup (labels_of es)
    /\ forall l, In l (labels_of es) <-> exists e, In e es /\ lower (label e) = l.
Proof.
  intros _.
  destruct (aggregate_typed es) as [colors [rgbs [E [K1 [K2 _]]]]].
  exists colors, rgbs.
  split; [exact E|]. split; [exact K1|]. split; [exact K2|]. split.
  - rewrite <- counts_keys. apply counts_keys_NoDup.
  - apply labels_of_spec.
Qed.

Lemma one_entry_per_label_witness :
  exists colors rgbs,
    process_json_file (Loaded (doc_of tie_entries)) = Ok (colors, rgbs)
    /\ keys colors = labels_of tie_entries
    /\ keys rgbs = labels_of tie_entries
    /\ NoDup (labels_of tie_entries)
    /\ forall l, In l (labels_of tie_entries)
                 <-> exists e, In e tie_entries /\ lower (label e) = l.
Proof.
  apply (one_entry_per_label tie_entries). repeat constructor.
Defined.

(** *** The reported RGB *)

(** X15: the RGB reported for a label is that of its entry with the
    highest individual score, the first of them if several have it,
    whatever the colour of that entry. *)
Theorem reported_rgb_of_top_entry (es : list DetectionEntry) (l : string) :
  Forall (fun e => nonneg (confidence e)) es ->
  In l (map (fun e => lower (label e)) es) ->
  exists colors rgbs pre w post,
    process_json_file (Loaded (doc_of es)) = Ok (colors, rgbs)
    /\ lookup l rgbs = Some (rgb_triple w)
    /\ filter (shares l) es = pre ++ w :: post
    /\ (forall e, In e pre -> (confidence e <? confidence w)%float = true)
    /\ (forall e, In e post -> (confidence e <=? confidence w)%float = true).
Proof.
  intros Hn Hl.
  destruct (aggregate_typed es) as [colors [rgbs [E [_ [_ H]]]]].
  exists colors, rgbs. specialize (H l).
  apply in_map_iff in Hl. destruct Hl as [e0 [El Ie]].
  assert (I0 : In e0 (filter (shares l) es)).
  { apply filter_In. split; [exact Ie|]. unfold shares.
    now apply String.eqb_eq. }
  destruct (filter (shares l) es) as [|e fs] eqn:F; [contradiction|].
  destruct (max_by_first_max (fun e => score (record_of e)) e fs)
    as [pre [w [post [Ep [M [Hpre Hpost]]]]]].
  { intros y Hy. cbn [record_of score].
    rewrite Forall_forall in Hn. apply Hn.
    rewrite <- F in Hy. apply filter_In in Hy. tauto. }
  assert (Q : forall xs x,
            max_by score (record_of x) (map record_of xs)
            = record_of (max_by (fun e => score (record_of e)) x xs)).
  { unfold max_by. induction xs as [|y xs IHx]; intro x; [reflexivity|].
    cbn [map fold_left]. cbn [record_of score] in *.
    destruct (confidence x <? confidence y)%float; apply IHx. }
  rewrite Q, M in H. cbn [record_of rgb] in H.
  exists pre, w, post. repeat split; trivial.
Qed.

Lemma reported_rgb_of_top_entry_witness :
  exists colors rgbs pre w post,
    process_json_file (Loaded (doc_of tie_entries)) = Ok (colors, rgbs)
    /\ lookup "car" rgbs = Some (rgb_triple w)
    /\ filter (shares "car") tie_entries = pre ++ w :: post
    /\ (forall e, In e pre -> (confidence e <? confidence w)%float = true)
    /\ (forall e, In e post -> (confidence e <=? confidence w)%float = true).
Proof.
  apply (reported_rgb_of_top_entry tie_entries "car").
  - repeat constructor.
  - simpl. now left.
Defined.

(** *** Entries that lack a member *)

(** The first member, in the order in which the loop reads them, that the
    entry lacks. *)
Definition first_missing (entry : json_entry) : option string :=
  match j_class entry, j_dominant_name entry,
        j_dominant_rgb entry, j_score entry with
  | None, _, _, _ => Some "class"
  | Some _, None, _, _ => Some "dominant_name"
  | Some _, Some _, None, _ => Some "dominant_rgb"
  | Some _, Some _, Some _, None => Some "score"
  | Some _, Some _, Some _, Some _ => None
  end.

Lemma foldM_app {A S : Type} (body : S -> A -> result S) (l1 l2 : list A)
    (s : S) :
  foldM body (l1 ++ l2) s = bind (foldM body l1 s) (foldM body l2).
Proof.
  revert s. induction l1 as [|x l1 IH]; intro s; [reflexivity|].
  cbn [app foldM]. destruct (body s x); cbn [bind]; [apply IH | reflexivity].
Qed.

(** X16: an entry that lacks a member ends the aggregation with a
    [KeyError] for the first member it lacks; the well-formed entries
    before it and whatever follows it are lost. *)
Theorem incomplete_entry_raises (good : list DetectionEntry)
    (bad : json_entry) (rest : list json_entry) (key : string) :
  first_missing bad = Some key ->
  process_json_file (Loaded (mkDoc (Some (map to_json good ++ bad :: rest))))
  = Raise (KeyError key).
Proof.
  intro H. unfold process_json_file, aggregate. cbn [j_entries getitem bind].
  rewrite foldM_app, first_loop. cbn [bind foldM].
  unfold record_entry at 1. unfold first_missing in H.
  destruct (j_class bad); [|injection H as <-; reflexivity].
  destruct (j_dominant_name bad); [|injection H as <-; reflexivity].
  destruct (j_dominant_rgb bad); [|injection H as <-; reflexivity].
  destruct (j_score bad); [discriminate | injection H as <-; reflexivity].
Qed.

Lemma incomplete_entry_raises_witness :
  process_json_file
    (Loaded (mkDoc (Some (map to_json tie_entries
                          ++ mkEntry (Some "bus") (Some "red") None None
                             :: [to_json (mkDetection "bus" "red" [] 1)]))))
  = Raise (KeyError "dominant_rgb").
Proof.
  apply (incomplete_entry_raises tie_entries
           (mkEntry (Some "bus") (Some "red") None None)
           [to_json (mkDetection "bus" "red" [] 1)] "dominant_rgb").
  reflexivity.
Defined.

(** *** Labels are aggregated one by one *)

(** The colour and the RGB reported for label [l], from its entries. *)
Lemma aggregate_label (es : list DetectionEntry) :
  exists colors rgbs,
    process_json_file (Loaded (doc_of es)) = Ok (colors, rgbs)
    /\ (forall l,
          lookup l colors
          = match map (fun c => (c, summed es l c)) (colors_of es l) with
            | [] => None
            | c :: cs => Some (fst (max_by snd c cs))
            end)
    /\ (forall l,
          lookup l rgbs
          = match filter (shares l) es with
            | [] => None
            | e :: fs =>
                Some (rgb (max_by score (record_of e) (map record_of fs)))
            end).
Proof.
  destruct (aggregate_typed es) as [colors [rgbs [E [_ [_ H]]]]].
  exists colors, rgbs. split; [exact E|]. split; [|exact H].
  revert E. unfold process_json_file, aggregate, doc_of.
  cbn [j_entries getitem bind]. rewrite first_loop. fold (tables_of es).
  cbn [bind]. intro E.
  destruct (second_loop (object_rgb_data (tables_of es))
              (object_color_counts (tables_of es)) ([], [])
              (counts_keys_NoDup es)) as [out [E' G]].
  { intros l' cc I. apply rgb_data_of_label.
    rewrite (lookup_In _ _ _ (counts_keys_NoDup es) I). discriminate. }
  rewrite E in E'. injection E' as <-. intro l.
  pose proof (G l) as Gl. cbn [fst lookup] in Gl. rewrite Gl.
  rewrite counts_of_label.
  destruct (colors_of es l) as [|c cs]; reflexivity.
Qed.

Lemma fold_left_filter {A B : Type} (f : B -> A -> B) (p : A -> bool)
    (l : list A) (b : B) :
  (forall b x, p x = false -> f b x = b) ->
  fold_left f (filter p l) b = fold_left f l b.
Proof.
  intro H. revert b. induction l as [|x l IH]; intro b; [reflexivity|].
  cbn [filter fold_left]. destruct (p x) eqn:E.
  - cbn [fold_left]. apply IH.
  - rewrite (H b x E). apply IH.
Qed.

Lemma summed_filter es l c :
  summed (filter (shares l) es) l c = summed es l c.
Proof.
  unfold summed. apply fold_left_filter. intros s e E. now rewrite E.
Qed.

Lemma colors_of_filter es l :
  colors_of (filter (shares l) es) l = colors_of es l.
Proof.
  unfold colors_of. apply fold_left_filter. intros s e E. now rewrite E.
Qed.

Lemma filter_idem {A : Type} (p : A -> bool) (l : list A) :
  filter p (filter p l) = filter p l.
Proof.
  induction l as [|x l IH]; [reflexivity|].
  cbn [filter]. destruct (p x) eqn:E; [|exact IH].
  cbn [filter]. now rewrite E, IH.
Qed.

(** X17: each label is aggregated from its own entries alone: the colour
    and the RGB reported for a label are those the aggregator reports
    when the entries of all other labels are left out. *)
Theorem labels_aggregate_independently (es : list DetectionEntry)
    (l : string) :
  exists colors rgbs colors' rgbs',
    process_json_file (Loaded (doc_of es)) = Ok (colors, rgbs)
    /\ process_json_file (Loaded (doc_of (filter (shares l) es)))
       = Ok (colors', rgbs')
    /\ lookup l colors = lookup l colors'
    /\ lookup l rgbs = lookup l rgbs'.
Proof.
  destruct (aggregate_label es) as [colors [rgbs [E [Hc Hr]]]].
  destruct (aggregate_label (filter (shares l) es))
    as [colors' [rgbs' [E' [Hc' Hr']]]].
  exists colors, rgbs, colors', rgbs'.
  split; [exact E|]. split; [exact E'|]. split.
  - rewrite Hc, Hc', colors_of_filter.
    destruct (colors_of es l) as [|c cs]; [reflexivity|].
    cbn [map]. rewrite summed_filter. do 3 f_equal.
    apply map_ext. intro c'. now rewrite summed_filter.
  - now rewrite Hr, Hr', filter_idem.
Qed.

(** *** The case of the entries' labels *)

(** Two entries with ASCII labels, the same but for the case of the
    letters of the label. *)
Definition same_up_to_case (e e' : DetectionEntry) : Prop :=
  is_ascii (label e) = true /\ is_ascii (label e') = true
  /\ lower (label e) = lower (label e') /\ color e = color e'
  /\ rgb_triple e = rgb_triple e' /\ confidence e = confidence e'.

(** X18: entries are grouped by lower-cased label: changing the case of
    letters in labels that are ASCII changes nothing in the result. *)
Theorem entry_label_case_irrelevant (es es' : list DetectionEntry) :
  Forall2 same_up_to_case es es' ->
  process_json_file (Loaded (doc_of es))
  = process_json_file (Loaded (doc_of es')).
Proof.
  intro H. unfold process_json_file, aggregate, doc_of.
  cbn [j_entries getitem bind]. rewrite !first_loop.
  assert (T : forall t, fold_left record_typed es t
                        = fold_left record_typed es' t).
  { induction H as [|e e' l l' [_ [_ [H1 [H2 [H3 H4]]]]] _ IH]; intro t;
      [reflexivity|].
    cbn [fold_left]. rewrite <- IH. f_equal. unfold record_typed.
    now rewrite H1, H2, H3, H4. }
  now rewrite T.
Qed.

Lemma entry_label_case_irrelevant_witness :
  process_json_file (Loaded (doc_of tie_entries))
  = process_json_file
      (Loaded (doc_of [ mkDetection "CAR" "red" [250; 1; 2] 0.5;
                        mkDetection "Car" "blue" [0; 1; 200] 0.4;
                        mkDetection "car" "blue" [0; 1; 220] 0.1 ])).
Proof.
  apply (entry_label_case_irrelevant tie_entries
           [ mkDetection "CAR" "red" [250; 1; 2] 0.5;
             mkDetection "Car" "blue" [0; 1; 200] 0.4;
             mkDetection "car" "blue" [0; 1; 220] 0.1 ]).
  repeat constructor.
Defined.

End ReferenceFacts.

(** * More on the driver *)

Module DirectoryFacts.
Import Py Exc ColorRate Aggregator Driver Float64 DictFacts DriverFacts.
Import ScoreFacts AggregatorFacts ScorerFacts ReferenceFacts.

Local Open Scope string_scope.
Local Open Scope list_scope.

(** *** A file that raises *)

Lemma score_file_ok user_dict scores file_name file_path r :
  process_json_file file_path = Ok r ->
  exists v, score_file user_dict scores (file_name, file_path)
            = Ok (set (remove ".json" file_name) v scores).
Proof.
  intro H. unfold score_file. rewrite H. cbn [bind]. destruct r as [c g].
  destruct (is_empty c); eauto.
Qed.

Lemma score_file_raise user_dict scores file_name file_path e :
  process_json_file file_path = Raise e ->
  score_file user_dict scores (file_name, file_path) = Raise e.
Proof. intro H. unfold score_file. now rewrite H. Qed.

Lemma raising_run user_dict (l : list (string * file)) scores :
  (exists f e, In f l /\ process_json_file (snd f) = Raise e) ->
  exists f e,
    In f l /\ process_json_file (snd f) = Raise e
    /\ foldM (score_file user_dict) l scores = Raise e.
Proof.
  revert scores. induction l as [|[n0 p0] l IH]; intros scores [f [e [I R]]];
    [contradiction|].
  cbn [foldM]. destruct (process_json_file p0) as [r|e0] eqn:P.
  - destruct (score_file_ok user_dict scores n0 p0 r P) as [v ->].
    cbn [bind]. destruct I as [<-|I]; [cbn [snd] in R; congruence|].
    destruct (IH (set (remove ".json" n0) v scores)) as [f' [e' [I' [R' F']]]].
    { now exists f, e. }
    exists f', e'. split; [now right | now split].
  - rewrite (score_file_raise _ _ _ _ _ P). cbn [bind].
    exists (n0, p0), e0. split; [now left | now split].
Qed.

(** X19: one file that makes [process_json_file] raise makes the whole run
    raise, with the exception of such a file; no score is returned for
    any file. *)
Theorem raising_file_aborts_run user_dict json_files file_name file_path e :
  In (file_name, file_path) json_files ->
  process_json_file file_path = Raise e ->
  exists f e',
    In f json_files /\ process_json_file (snd f) = Raise e'
    /\ calculate_similarity_scores_dict user_dict (Some json_files) = Raise e'.
Proof.
  intros I R. unfold calculate_similarity_scores_dict.
  destruct json_files as [|f0 fs]; [contradiction|].
  destruct (raising_run user_dict (sorted (f0 :: fs)) []) as [f [e' [I' [R' F]]]].
  - exists (file_name, file_path), e. split; [|exact R].
    now apply (proj2 (sorted_In _ _)).
  - exists f, e'. split; [now apply (proj1 (sorted_In _ _)) | now split].
Qed.

Lemma raising_file_aborts_run_witness :
  exists f e',
    In f [("a.colors.json", Loaded (doc_of tie_entries));
          ("c.colors.json", FileNotFound);
          ("b.colors.json", Unreadable)]
    /\ process_json_file (snd f) = Raise e'
    /\ calculate_similarity_scores_dict [("car", "red")]
         (Some [("a.colors.json", Loaded (doc_of tie_entries));
                ("c.colors.json", FileNotFound);
                ("b.colors.json", Unreadable)])
       = Raise e'.
Proof.
  apply (raising_file_aborts_run [("car", "red")]
           [("a.colors.json", Loaded (doc_of tie_entries));
            ("c.colors.json", FileNotFound);
            ("b.colors.json", Unreadable)]
           "b.colors.json" Unreadable OSError).
  - right. right. now left.
  - reflexivity.
Defined.

(** *** A directory of well-formed sources *)

(** A source the program handles: no file at the path, text that
    [json.load] rejects with [JSONDecodeError], or a JSON object whose
    ['entries'] are objects with the four members, each of the type the
    program expects (a string label and colour name, a list of ints, a
    float score). *)
Definition well_formed (f : file) : Prop :=
  caught f \/ exists es, f = Loaded (doc_of es).

Definition unit_interval (s : float) : Prop :=
  (0 <=? s)%float = true /\ (s <=? 1)%float = true.

Lemma enhanced_similarity_bounds dict1 dict2 dict2_rgb :
  Z.of_nat (List.length dict1) < 2 ^ 53 ->
  unit_interval (fst (calculate_enhanced_similarity dict1 dict2 dict2_rgb)).
Proof.
  intro Hlen. unfold calculate_enhanced_similarity.
  destruct dict1 as [|x d1]; [split; reflexivity|].
  destruct (is_empty (x :: d1) || is_empty dict2)%bool;
    [split; reflexivity|].
  apply ratio_inv_score. apply accumulate_ratio_inv; [discriminate | exact Hlen].
Qed.

Lemma score_file_well_formed user_dict scores file_name file_path :
  Z.of_nat (List.length user_dict) < 2 ^ 53 ->
  well_formed file_path ->
  exists v,
    unit_interval v
    /\ score_file user_dict scores (file_name, file_path)
       = Ok (set (remove ".json" file_name) v scores).
Proof.
  intros Hlen [C | [es ->]].
  - exists 0.0%float. split; [split; reflexivity|].
    now apply score_file_caught.
  - destruct (aggregate_typed es) as [colors [rgbs [E _]]].
    unfold score_file. rewrite E. cbn [bind].
    destruct (is_empty colors).
    + exists 0.0%float. split; [split; reflexivity | reflexivity].
    + eexists. split; [|reflexivity].
      now apply enhanced_similarity_bounds.
Qed.

Lemma well_formed_run user_dict (l : list (string * file)) scores :
  Z.of_nat (List.length user_dict) < 2 ^ 53 ->
  Forall (fun f => well_formed (snd f)) l ->
  Forall unit_interval (values scores) ->
  exists d,
    foldM (score_file user_dict) l scores = Ok d
    /\ Forall unit_interval (values d)
    /\ (forall k, lookup k scores <> None -> lookup k d <> None)
    /\ (forall f, In f l -> lookup (remove ".json" (fst f)) d <> None).
Proof.
  intros Hlen Hl. revert scores.
  induction Hl as [|[name src] l Hw _ IH]; intros scores Hs.
  - exists scores. simpl. repeat split; trivial; try apply Hs. intros f [].
  - cbn [snd] in Hw. cbn [foldM].
    destruct (score_file_well_formed user_dict scores name src Hlen Hw)
      as [v [Hv ->]].
    cbn [bind].
    destruct (IH (set (remove ".json" name) v scores))
      as [d [Ed [Hd [Hk Hf]]]].
    { now apply values_set. }
    exists d. split; [exact Ed|]. split; [exact Hd|]. split.
    + intros k Hks. apply Hk.
      destruct (String.eqb_spec k (remove ".json" name)) as [->|N].
      * rewrite lookup_set_same. discriminate.
      * now rewrite lookup_set_other.
    + intros f [<- | Hin]; [|now apply Hf].
      apply Hk. cbn [fst]. rewrite lookup_set_same. discriminate.
Qed.

(** X20: over a directory whose sources are each of these three kinds,
    and for a user mapping of fewer than [2 ^ 53] entries, the driver
    returns; every source has a score under its key, and every score is
    between [0.0] and [1.0]. *)
Theorem well_formed_directory_scores user_dict json_files :
  Z.of_nat (List.length user_dict) < 2 ^ 53 ->
  Forall (fun f => well_formed (snd f)) json_files ->
  exists scores,
    calculate_similarity_scores_dict user_dict (Some json_files) = Ok scores
    /\ (forall f, In f json_files ->
          lookup (remove ".json" (fst f)) scores <> None)
    /\ Forall unit_interval (values scores).
Proof.
  intros Hlen Hw. unfold calculate_similarity_scores_dict.
  destruct json_files as [|f0 fs].
  { exists []. split; [reflexivity|]. split; [intros f [] | constructor]. }
  destruct (well_formed_run user_dict (sorted (f0 :: fs)) [] Hlen)
    as [d [Ed [Hd [_ Hf]]]].
  - apply Forall_forall. intros f Hin. apply (proj1 (sorted_In _ _)) in Hin.
    rewrite Forall_forall in Hw. now apply Hw.
  - constructor.
  - exists d. split; [exact Ed|]. split; [|exact Hd].
    intros f Hin. apply Hf. now apply (proj2 (sorted_In _ _)).
Qed.

Lemma well_formed_directory_scores_witness :
  exists scores,
    calculate_similarity_scores_dict [("car", "blue"); ("bus", "red")]
      (Some [("b.colors.json", Loaded (doc_of tie_entries));
             ("a.colors.json", InvalidJSON)])
    = Ok scores
    /\ (forall f,
          In f [("b.colors.json", Loaded (doc_of tie_entries));
                ("a.colors.json", InvalidJSON)] ->
          lookup (remove ".json" (fst f)) scores <> None)
    /\ Forall unit_interval (values scores).
Proof.
  apply (well_formed_directory_scores [("car", "blue"); ("bus", "red")]
           [("b.colors.json", Loaded (doc_of tie_entries));
            ("a.colors.json", InvalidJSON)]).
  - reflexivity.
  - constructor; [right; now exists tie_entries|].
    constructor; [left; now right | constructor].
Defined.

(** *** The key of a file *)

(** The string holds the character. *)
Fixpoint has_char (c : ascii) (s : string) : bool :=
  match s with
  | EmptyString => false
  | String c' s' => (Ascii.eqb c c' || has_char c s')%bool
  end.

Lemma remove_dotless (stem rest : string) :
  has_char "." stem = false ->
  remove ".json" (stem ++ rest)%string
  = (stem ++ remove ".json" rest)%string.
Proof.
  unfold remove. induction stem as [|c s IH]; intro H; [reflexivity|].
  cbn [has_char] in H. apply orb_false_iff in H. destruct H as [Hc Hs].
  cbn [append remove_from].
  assert (P : prefix ".json" (String c (s ++ rest)%string) = false).
  { cbn [prefix]. destruct (ascii_dec "." c) as [E|_]; [|reflexivity].
    subst c. discriminate. }
  rewrite P. cbn [andb]. now rewrite IH.
Qed.

(** X21: with no dot in [stem], the key of [stem.colors.json] is
    [stem.colors], and a file of that name that can be aggregated is
    scored under it. *)
Theorem key_of_colors_file (stem : string) :
  has_char "." stem = false ->
  remove ".json" (stem ++ ".colors.json")%string = (stem ++ ".colors")%string
  /\ forall user_dict scores file_path r,
       process_json_file file_path = Ok r ->
       exists v,
         score_file user_dict scores
           ((stem ++ ".colors.json")%string, file_path)
         = Ok (set (stem ++ ".colors")%string v scores).
Proof.
  intro H.
  assert (K : remove ".json" (stem ++ ".colors.json")%string
              = (stem ++ ".colors")%string).
  { now rewrite remove_dotless. }
  split; [exact K|]. intros user_dict scores file_path r P.
  rewrite <- K. now apply (score_file_ok _ _ _ _ r).
Qed.

Lemma key_of_colors_file_witness :
  remove ".json" ("001" ++ ".colors.json")%string = ("001" ++ ".colors")%string
  /\ forall user_dict scores file_path r,
       process_json_file file_path = Ok r ->
       exists v,
         score_file user_dict scores
           (("001" ++ ".colors.json")%string, file_path)
         = Ok (set ("001" ++ ".colors")%string v scores).
Proof.
  apply (key_of_colors_file "001"). reflexivity.
Defined.

(** *** The order of the listing *)

Lemma compare_trans_lt (s1 s2 s3 : string) :
  String.compare s1 s2 <> Gt -> String.compare s2 s3 <> Gt ->
  String.compare s1 s3 <> Gt.
Proof.
  revert s2 s3. induction s1 as [|c1 s1 IH]; intros [|c2 s2] [|c3 s3];
    cbn [String.compare]; try congruence.
  unfold Ascii.compare.
  destruct (N.compare_spec (N_of_ascii c1) (N_of_ascii c2)) as [E12|L12|G12];
    destruct (N.compare_spec (N_of_ascii c2) (N_of_ascii c3)) as [E23|L23|G23];
    try congruence; intros H12 H23.
  - rewrite E12, E23, N.compare_refl. now apply (IH s2).
  - rewrite E12. apply N.compare_lt_iff in L23. rewrite L23. discriminate.
  - rewrite <- E23. apply N.compare_lt_iff in L12. rewrite L12. discriminate.
  - assert (L : (N_of_ascii c1 < N_of_ascii c3)%N) by lia.
    apply N.compare_lt_iff in L. rewrite L. discriminate.
Qed.

Lemma leb_trans (s1 s2 s3 : string) :
  (s1 <=? s2) = true -> (s2 <=? s3) = true -> (s1 <=? s3) = true.
Proof.
  unfold String.leb. intros H12 H23.
  pose proof (compare_trans_lt s1 s2 s3) as T.
  destruct (String.compare s1 s2); try discriminate;
    destruct (String.compare s2 s3); try discriminate;
    destruct (String.compare s1 s3); trivial; elim T; congruence.
Qed.

(** The order of [sorted]: by name. *)
Definition by_name {A : Type} (x y : string * A) : Prop :=
  (fst x <=? fst y) = true.

Lemma insert_sorted_sorted {A : Type} (x : string * A) l :
  StronglySorted by_name l -> StronglySorted by_name (insert_sorted x l).
Proof.
  induction 1 as [|y l S IH F]; cbn [insert_sorted].
  - constructor; constructor.
  - destruct (fst x <=? fst y) eqn:L.
    + constructor; [now constructor|]. constructor; [exact L|].
      apply Forall_forall. intros z Hz. rewrite Forall_forall in F.
      unfold by_name. apply (leb_trans _ (fst y)); [exact L | now apply F].
    + constructor; [exact IH|].
      apply Forall_forall. intros z Hz. apply insert_sorted_In in Hz.
      destruct Hz as [->|Hz].
      * unfold by_name. destruct (String.leb_total (fst x) (fst y)); congruence.
      * rewrite Forall_forall in F. now apply F.
Qed.

Lemma sorted_sorted {A : Type} (l : list (string * A)) :
  StronglySorted by_name (sorted l).
Proof.
  induction l as [|x l IH]; cbn; [constructor|].
  now apply insert_sorted_sorted.
Qed.

Lemma insert_sorted_perm {A : Type} (x : string * A) l :
  Permutation (insert_sorted x l) (x :: l).
Proof.
  induction l as [|y l IH]; cbn [insert_sorted]; [apply Permutation_refl|].
  destruct (fst x <=? fst y); [apply Permutation_refl|].
  apply (Permutation_trans (l' := y :: x :: l));
    [now apply perm_skip | apply perm_swap].
Qed.

Lemma sorted_perm {A : Type} (l : list (string * A)) :
  Permutation (sorted l) l.
Proof.
  induction l as [|x l IH]; cbn; [constructor|].
  apply (Permutation_trans (insert_sorted_perm x (sorted l))).
  now apply perm_skip.
Qed.

Lemma same_name_same_file {A : Type} (l : list (string * A)) x y :
  NoDup (map fst l) -> In x l -> In y l -> fst x = fst y -> x = y.
Proof.
  induction l as [|z l IH]; intros N Hx Hy E; [contradiction|].
  cbn [map] in N. inversion N as [|? ? Nz Nl]; subst.
  destruct Hx as [->|Hx], Hy as [->|Hy]; trivial.
  - elim Nz. rewrite E. now apply in_map.
  - elim Nz. rewrite <- E. now apply in_map.
  - now apply IH.
Qed.

(** Two listings of the same distinct names, both in order, are equal. *)
Lemma sorted_unique {A : Type} (l1 l2 : list (string * A)) :
  StronglySorted by_name l1 -> StronglySorted by_name l2 ->
  Permutation l1 l2 -> NoDup (map fst l1) -> l1 = l2.
Proof.
  intro S1. revert l2. induction S1 as [|x t1 S1 IH F1]; intros l2 S2 P N.
  - apply Permutation_nil in P. now subst.
  - destruct S2 as [|y t2 S2 F2].
    { apply Permutation_sym, Permutation_nil in P. discriminate. }
    rewrite Forall_forall in F1, F2.
    assert (Hxy : by_name x y).
    { assert (I : In y (x :: t1)).
      { apply (Permutation_in _ (Permutation_sym P)). now left. }
      destruct I as [<-|I]; [|now apply F1].
      unfold by_name. destruct (String.leb_total (fst x) (fst x)); trivial. }
    assert (Hyx : by_name y x).
    { assert (I : In x (y :: t2)).
      { apply (Permutation_in _ P). now left. }
      destruct I as [<-|I]; [|now apply F2].
      unfold by_name. destruct (String.leb_total (fst y) (fst y)); trivial. }
    assert (E : x = y).
    { apply (same_name_same_file (x :: t1)); trivial.
      - now left.
      - apply (Permutation_in _ (Permutation_sym P)). now left.
      - now apply String.leb_antisym. }
    subst y. f_equal. apply IH; trivial.
    + now apply Permutation_cons_inv in P.
    + cbn [map] in N. now inversion N.
Qed.

(** X22: the result does not depend on the order in which the directory
    lists its files, their names being distinct. *)
Theorem listing_order_irrelevant user_dict json_files json_files' :
  NoDup (map fst json_files) -> Permutation json_files json_files' ->
  calculate_similarity_scores_dict user_dict (Some json_files)
  = calculate_similarity_scores_dict user_dict (Some json_files').
Proof.
  intros N P.
  assert (E : sorted json_files = sorted json_files').
  { apply sorted_unique; try apply sorted_sorted.
    - apply (Permutation_trans (sorted_perm json_files)).
      apply (Permutation_trans P). apply Permutation_sym, sorted_perm.
    - apply (Permutation_NoDup (l := map fst json_files)); [|exact N].
      apply Permutation_map, Permutation_sym, sorted_perm. }
  unfold calculate_similarity_scores_dict.
  destruct json_files as [|f0 fs].
  - apply Permutation_nil in P. now subst.
  - destruct json_files' as [|f0' fs'].
    + apply Permutation_sym, Permutation_nil in P. discriminate.
    + now rewrite E.
Qed.

Lemma listing_order_irrelevant_witness :
  calculate_similarity_scores_dict [("car", "blue")]
    (Some [("b.colors.json", Loaded (doc_of tie_entries));
           ("a.colors.json", InvalidJSON)])
  = calculate_similarity_scores_dict [("car", "blue")]
      (Some [("a.colors.json", InvalidJSON);
             ("b.colors.json", Loaded (doc_of tie_entries))]).
Proof.
  apply (listing_order_irrelevant [("car", "blue")]
           [("b.colors.json", Loaded (doc_of tie_entries));
            ("a.colors.json", InvalidJSON)]
           [("a.colors.json", InvalidJSON);
            ("b.colors.json", Loaded (doc_of tie_entries))]).
  - repeat constructor; cbn; intuition discriminate.
  - apply perm_swap.
Defined.

(** *** A source against its own reference *)

Lemma labels_of_length (es : list DetectionEntry) :
  (List.length (labels_of es) <= List.length es)%nat.
Proof.
  induction es as [|e es IH] using rev_ind; [apply Nat.le_refl|].
  rewrite labels_of_snoc, length_app. cbn [List.length].
  destruct (str_in (lower (label e)) (labels_of es));
    [|rewrite length_app; cbn [List.length]]; lia.
Qed.

Lemma own_reference_exact (es : list DetectionEntry) (colors : dict string) :
  keys colors = labels_of es -> Forall (exact_in colors) colors.
Proof.
  intro K. apply Forall_forall. intros [k v] I. unfold exact_in.
  cbn [fst snd].
  assert (Ik : In k (labels_of es)).
  { rewrite <- K. unfold keys. change k with (fst (k, v)). now apply in_map. }
  apply labels_of_spec in Ik. destruct Ik as [e [_ <-]].
  rewrite lower_idem. apply lookup_In; [|exact I].
  rewrite K, <- counts_keys. apply counts_keys_NoDup.
Qed.

(** X23: a source of fewer than [2 ^ 53] well-formed entries, scored
    against the mapping the aggregator makes of it, gets exactly [1.0]. *)
Theorem own_reference_scores_one (es : list DetectionEntry) :
  es <> [] -> Z.of_nat (List.length es) < 2 ^ 53 ->
  exists colors rgbs,
    process_json_file (Loaded (doc_of es)) = Ok (colors, rgbs)
    /\ calculate_enhanced_similarity colors colors rgbs
       = (1.0%float, map (fun _ => 1.0%float) colors)
    /\ forall scores file_name,
         score_file colors scores (file_name, Loaded (doc_of es))
         = Ok (set (remove ".json" file_name) 1.0%float scores).
Proof.
  intros Hne Hlen.
  destruct (aggregate_typed es) as [colors [rgbs [E [K _]]]].
  exists colors, rgbs.
  assert (Hc : colors <> []).
  { destruct es as [|e es']; [contradiction|].
    assert (I : In (lower (label e)) (labels_of (e :: es'))).
    { apply labels_of_spec. exists e. split; [now left | reflexivity]. }
    rewrite <- K in I. intros ->. contradiction. }
  assert (L : Z.of_nat (List.length colors) < 2 ^ 53).
  { pose proof (labels_of_length es) as B. rewrite <- K in B.
    unfold keys in B. rewrite length_map in B. lia. }
  assert (S : calculate_enhanced_similarity colors colors rgbs
              = (1.0%float, map (fun _ => 1.0%float) colors)).
  { unfold calculate_enhanced_similarity.
    rewrite nonempty_guard by assumption.
    apply exact_accumulate; trivial. now apply (own_reference_exact es). }
  split; [exact E|]. split; [exact S|].
  intros scores file_name. unfold score_file. rewrite E. cbn [bind].
  destruct colors as [|x c]; [contradiction|]. cbn [is_empty].
  now rewrite S.
Qed.

Lemma own_reference_scores_one_witness :
  exists colors rgbs,
    process_json_file (Loaded (doc_of tie_entries)) = Ok (colors, rgbs)
    /\ calculate_enhanced_similarity colors colors rgbs
       = (1.0%float, map (fun _ => 1.0%float) colors)
    /\ forall scores file_name,
         score_file colors scores (file_name, Loaded (doc_of tie_entries))
         = Ok (set (remove ".json" file_name) 1.0%float scores).
Proof.
  apply (own_reference_scores_one tie_entries).
  - discriminate.
  - reflexivity.
Defined.

End DirectoryFacts.
